(** * TreeCat: tree-structured latent-categorical model

    A shallow embedding of [pyro/contrib/tabular/treecat.py]: the leaf-stripping
    centre of a tree, the tree pretty-printer, the conjugate edge guide
    ([_EdgeGuide]: its statistics update, posterior means and edge logits), the
    construction and pickling of a [TreeCat] object, the precondition checks
    of the model and its propagation of samples along the tree; and of
    [pyro/poutine/do_messenger.py]: the handling of a sample site by a
    [DoMessenger].

    Conventions of the embedding.
    - Python floats are read as exact rationals ([Q], compared with [==]); the
      rounding of the floating-point unit is outside the model.
    - Vertex ids, the entries of an edge tensor, are natural numbers; a
      negative entry, which Python takes as an index from the end, is outside
      the model.
    - A Python [set] of vertices is a [gset nat]; [sorted(s)] is [sorted s].
    - A Python [list] indexed by position is a Rocq list read with [!!] and
      written with [<[i:=x]>]; an index out of range raises [IndexError].
    - A raised exception is a value [Raise e] of the result type [res]; code
      that mutates an object before it raises returns the mutated object next
      to the exception.
    - [while] loops run on fuel; [OutOfFuel] is the only artefact of that, and
      [find_center_of_tree_fuel] and [print_tree_fuel] show that the two loops
      never meet it. *)

From Stdlib Require Import ZArith QArith Qminmax Lqa Lia List String Ascii.
From stdpp Require Import base list gmap sorting strings.

#[global] Set Warnings "-clear-no-such-hyp,-register-all".

Open Scope nat_scope.

(** ** Exceptions and results *)

Inductive exn : Type :=
  | AssertionError
  | IndexError
  | KeyError
  | ValueError
  | ZeroDivisionError
  | RuntimeError
  | UnboundLocalError
  | TypeError.

Inductive res (A : Type) : Type :=
  | Ok (a : A)
  | Raise (e : exn)
  | OutOfFuel.

Arguments Ok {A} a.
Arguments Raise {A} e.
Arguments OutOfFuel {A}.

#[global] Instance res_ret : MRet res := fun A a => Ok a.

#[global] Instance res_bind : MBind res := fun A B k m =>
  match m with
  | Ok a => k a
  | Raise e => Raise e
  | OutOfFuel => OutOfFuel
  end.

(** [assert c] of Python. *)
Definition assert (c : bool) : res unit :=
  if c then Ok tt else Raise AssertionError.

(** [l[i]] of Python on a list (non-negative index). *)
Definition getitem {A : Type} (l : list A) (i : nat) : res A :=
  match l !! i with
  | Some x => Ok x
  | None => Raise IndexError
  end.

(** ** Vertex sets *)

(** [sorted(s)] for a set of vertex ids. *)
Definition sorted (s : gset nat) : list nat := merge_sort Nat.le (elements s).

(** [s.remove(v)]: raises [KeyError] when [v] is absent. *)
Definition set_remove (v : nat) (s : gset nat) : res (gset nat) :=
  if decide (v ∈ s) then Ok (s ∖ {[v]}) else Raise KeyError.

(** ** Adjacency of an edge list *)

(** One turn of [for v1, v2 in edges.numpy(): neighbors[v1].add(v2);
    neighbors[v2].add(v1)]. *)
Definition add_edge (neighbors : list (gset nat)) (e : nat * nat)
  : res (list (gset nat)) :=
  let '(v1, v2) := e in
  s1 ← getitem neighbors v1;
  let neighbors1 := <[v1 := s1 ∪ {[v2]}]> neighbors in
  s2 ← getitem neighbors1 v2;
  Ok (<[v2 := s2 ∪ {[v1]}]> neighbors1).

Fixpoint add_edges (neighbors : list (gset nat)) (edges : list (nat * nat))
  : res (list (gset nat)) :=
  match edges with
  | [] => Ok neighbors
  | e :: edges' => nb ← add_edge neighbors e; add_edges nb edges'
  end.

(** [neighbors = [set() for _ in range(V)]] followed by the loop over edges. *)
Definition build_neighbors (V : nat) (edges : list (nat * nat))
  : res (list (gset nat)) :=
  add_edges (replicate V ∅) edges.

(** ** [find_center_of_tree] *)

(** The inner loop [for v2 in sorted(neighbors[v]): neighbors[v2].remove(v);
    if len(neighbors[v2]) == 1: queue.append(v2)], over the snapshot [vs]. *)
Fixpoint strip_vertex (v : nat) (vs : list nat)
    (neighbors : list (gset nat)) (queue : list nat)
  : res (list (gset nat) * list nat) :=
  match vs with
  | [] => Ok (neighbors, queue)
  | v2 :: vs' =>
      s ← getitem neighbors v2;
      s' ← set_remove v s;
      strip_vertex v vs' (<[v2 := s']> neighbors)
        (if decide (size s' = 1) then queue ++ [v2] else queue)
  end.

(** The [while queue] loop.  [v] is the Python variable of that name (unbound
    before the first turn); [visited] records the vertices popped so far, in
    order, and is not read by the loop. *)
Fixpoint strip_loop (fuel : nat) (neighbors : list (gset nat))
    (queue : list nat) (v : option nat) (visited : list nat)
  : res (option nat * list nat) :=
  match queue with
  | [] => Ok (v, visited)
  | v' :: queue' =>
      match fuel with
      | 0 => OutOfFuel
      | S fuel' =>
          s ← getitem neighbors v';
          '(nb, q) ← strip_vertex v' (sorted s) neighbors queue';
          strip_loop fuel' nb q (Some v') (visited ++ [v'])
      end
  end.

(** [len(neighbors[v])] for [v] in range. *)
Definition degree (neighbors : list (gset nat)) (v : nat) : nat :=
  from_option size 0 (neighbors !! v).

(** [deque(v for v in range(V) if len(neighbors[v]) <= 1)]. *)
Definition initial_queue (neighbors : list (gset nat)) : list nat :=
  filter (fun v => degree neighbors v <= 1) (seq 0 (length neighbors)).

(** Every turn of the loop pops one vertex, and a vertex is appended only when
    an entry leaves a neighbour set, so [V + 2 * E] turns are enough. *)
Definition strip_fuel (V : nat) (edges : list (nat * nat)) : nat :=
  S (V + 2 * length edges).

(** The loop of [find_center_of_tree] with its trace: the final value of [v]
    and the order in which vertices were popped. *)
Definition strip_leaves (edges : list (nat * nat))
  : res (option nat * list nat) :=
  let V := length edges + 1 in
  neighbors ← build_neighbors V edges;
  strip_loop (strip_fuel V edges) neighbors (initial_queue neighbors) None [].

Definition find_center_of_tree (edges : list (nat * nat)) : res nat :=
  '(v, _) ← strip_leaves edges;
  match v with
  | Some c => Ok c
  | None => Raise UnboundLocalError
  end.

(** ** [print_tree] *)

(** [feature_names.index(root)]: the first position holding [root]. *)
Fixpoint index (feature_names : list string) (root : string) : res nat :=
  match feature_names with
  | [] => Raise ValueError
  | n :: rest =>
      if decide (n = root) then Ok 0 else i ← index rest root; Ok (S i)
  end.

(** The first [neighbor] of the [for] loop that is [not in seen], if any
    (the loop breaks there). *)
Definition first_unseen (seen : gset nat) (candidates : list nat) : option nat :=
  head (filter (fun neighbor => neighbor ∉ seen) candidates).

(** The [while stack] loop.  The Python list [stack] grows at its end; here
    the top of the stack is the head of the list, so [stack[-1]] is the head,
    [append] is a cons and [len(stack)] after [pop] is the length of the tail. *)
Fixpoint print_loop (fuel : nat) (feature_names : list string)
    (neighbors : list (gset nat)) (stack : list nat) (seen : gset nat)
    (lines : list (nat * string)) : res (list (nat * string)) :=
  match stack with
  | [] => Ok lines
  | top :: rest =>
      match fuel with
      | 0 => OutOfFuel
      | S fuel' =>
          s ← getitem neighbors top;
          match first_unseen seen (reverse (sorted s)) with
          | Some neighbor =>
              print_loop fuel' feature_names neighbors (neighbor :: stack)
                (seen ∪ {[neighbor]}) lines
          | None =>
              name ← getitem feature_names top;
              print_loop fuel' feature_names neighbors rest seen
                (lines ++ [(length rest, name)])
          end
      end
  end.

Definition newline : string := String (ascii_of_nat 10) EmptyString.

(** ["  " * i]. *)
Fixpoint indent (i : nat) : string :=
  match i with
  | 0 => EmptyString
  | S i' => String.append "  " (indent i')
  end.

(** ["{}{}".format("  " * i, n)]. *)
Definition format_line (l : nat * string) : string :=
  String.append (indent (fst l)) (snd l).

(** ["\n".join(...)]. *)
Fixpoint join (sep : string) (parts : list string) : string :=
  match parts with
  | [] => EmptyString
  | [x] => x
  | x :: rest => String.append x (String.append sep (join sep rest))
  end.

Definition render (lines : list (nat * string)) : string :=
  join newline (map format_line lines).

(** The name the listing starts from: [root], which defaults to the name of
    the centre, checked by [assert root in feature_names]. *)
Definition resolve_root (edges : list (nat * nat))
    (feature_names : list string) (root : option string) : res string :=
  _ ← assert (bool_decide (length feature_names = 1 + length edges));
  root ← match root with
         | Some r => Ok r
         | None => c ← find_center_of_tree edges; getitem feature_names c
         end;
  _ ← assert (bool_decide (root ∈ feature_names));
  Ok root.

(** Each turn of the loop pushes a vertex for the first time or pops one. *)
Definition print_fuel (feature_names : list string) : nat :=
  S (2 * length feature_names).

(** The [(depth, name)] lines after [lines.reverse()]. *)
Definition print_tree_lines (edges : list (nat * nat))
    (feature_names : list string) (root : option string)
  : res (list (nat * string)) :=
  root ← resolve_root edges feature_names root;
  neighbors ← build_neighbors (length feature_names) edges;
  r ← index feature_names root;
  lines ← print_loop (print_fuel feature_names) feature_names neighbors
             [r] {[r]} [];
  Ok (reverse lines).

Definition print_tree (edges : list (nat * nat))
    (feature_names : list string) (root : option string) : res string :=
  lines ← print_tree_lines edges feature_names root;
  Ok (render lines).

(** ** Tensors of rationals and of indices *)

Open Scope Q_scope.

#[global] Instance Qlt_decision : RelDecision Qlt := fun x y =>
  match Qlt_le_dec x y with
  | left H => left H
  | right H => right (Qle_not_lt _ _ H)
  end.

(** A non-negative Python [int] where a number is expected. *)
Definition of_int (n : nat) : Q := inject_Z (Z.of_nat n).

(** [sum(-1)] of one row. *)
Definition Qsum (row : list Q) : Q := foldr Qplus 0 row.

(** [torch.full((n, m), x)]. *)
Definition full (n m : nat) (x : Q) : list (list Q) := replicate n (replicate m x).

(** [t *= c]. *)
Definition scale (c : Q) (t : list (list Q)) : list (list Q) :=
  map (map (fun x => x * c)) t.

(** Python's [a / b] on numbers: a zero divisor raises. *)
Definition truediv (a b : Q) : res Q :=
  if Qeq_bool b 0 then Raise ZeroDivisionError else Ok (a / b).

(** Python's [min(a, b)]: [b] only when it is strictly smaller. *)
Definition pymin (a b : Q) : Q := if Qlt_le_dec b a then b else a.

(** [z.size(-1)] of a matrix with at least one row, kept as its rows. *)
Definition size_last {A : Type} (z : list (list A)) : nat :=
  match z with
  | [] => 0%nat
  | row :: _ => length row
  end.

(** One row of [t.scatter_add_(-1, index, ones)]: [row[i] += 1] for every [i]
    of [idx]; an index outside the row is refused. *)
Fixpoint scatter_add_row (row : list Q) (idx : list nat) : res (list Q) :=
  match idx with
  | [] => Ok row
  | i :: idx' =>
      match row !! i with
      | Some x => scatter_add_row (<[i := x + 1]> row) idx'
      | None => Raise RuntimeError
      end
  end.

(** [t.scatter_add_(-1, index, one.expand_as(index))]; [index] may not have
    more rows than [t]. *)
Fixpoint scatter_add_ (t : list (list Q)) (index : list (list nat))
  : res (list (list Q)) :=
  match index, t with
  | [], _ => Ok t
  | _ :: _, [] => Raise RuntimeError
  | idx :: index', row :: t' =>
      row' ← scatter_add_row row idx;
      rest ← scatter_add_ t' index';
      Ok (row' :: rest)
  end.

(** [mapM] over a list, left to right. *)
Fixpoint traverse {A B : Type} (f : A -> res B) (l : list A) : res (list B) :=
  match l with
  | [] => Ok []
  | a :: l' => b ← f a; bs ← traverse f l'; Ok (b :: bs)
  end.

(** [(M * z)[grid0] + z[grid1]]: row [k] is [M * z[grid0[k]] + z[grid1[k]]],
    entry by entry. *)
Definition pair_codes (M : nat) (z : list (list nat)) (grid0 grid1 : list nat)
  : res (list (list nat)) :=
  a ← traverse (getitem (map (map (fun s => (M * s)%nat)) z)) grid0;
  b ← traverse (getitem z) grid1;
  Ok (zip_with (zip_with Nat.add) a b).

(** Modelled from the spec: [make_complete_graph] of
    [pyro.distributions.spanning_tree] is imported, not defined, by the source.
    The spec addresses the unordered pair [(v1, v2)], [v1 < v2], of the
    complete graph at the pair index [k = v1 + v2*(v2-1)/2] of a table with
    [K = V*(V-1)/2] rows; the grid is the [(2, K)] tensor whose column [k] is
    that pair, returned here as its two rows. *)
Definition complete_pairs (V : nat) : list (nat * nat) :=
  flat_map (fun v2 => map (fun v1 => (v1, v2)) (seq 0 v2)) (seq 0 V).

(** Modelled from the spec: the grid [make_complete_graph(V)] returns, the
    [(2, K)] tensor of the pairs above as its row of first and its row of
    second endpoints. *)
Definition make_complete_graph (V : nat) : list nat * list nat :=
  (map fst (complete_pairs V), map snd (complete_pairs V)).

(** The pair index [v1 + v2 * (v2 - 1) // 2]. *)
Definition pair_index (v1 v2 : nat) : nat := (v1 + v2 * (v2 - 1) / 2)%nat.

Close Scope Q_scope.

(** ** [_EdgeGuide] *)

Module EdgeGuide.

Open Scope Q_scope.

(** The attributes of an [_EdgeGuide] object.  [edges] is the [(V-1, 2)]
    tensor as its rows; [_grid] is the [(2, K)] tensor as its two rows. *)
Record t : Type := mk {
  capacity : nat;
  edges : list (nat * nat);
  annealing_rate : Q;
  _grid : list nat * list nat;
  _vertex_prior : Q;
  _edge_prior : Q;
  _count_stats : Q;
  _vertex_stats : list (list Q);
  _complete_stats : list (list Q)
}.

Definition set_count_stats (c : Q) (self : t) : t :=
  mk (capacity self) (edges self) (annealing_rate self) (_grid self)
     (_vertex_prior self) (_edge_prior self)
     c (_vertex_stats self) (_complete_stats self).

Definition set_vertex_stats (vs : list (list Q)) (self : t) : t :=
  mk (capacity self) (edges self) (annealing_rate self) (_grid self)
     (_vertex_prior self) (_edge_prior self)
     (_count_stats self) vs (_complete_stats self).

Definition set_complete_stats (cs : list (list Q)) (self : t) : t :=
  mk (capacity self) (edges self) (annealing_rate self) (_grid self)
     (_vertex_prior self) (_edge_prior self)
     (_count_stats self) (_vertex_stats self) cs.

(** [_EdgeGuide.__init__]. *)
Definition __init__ (capacity : nat) (edges : list (nat * nat))
    (annealing_rate : Q) : res t :=
  _ ← assert (bool_decide (0 < annealing_rate));
  let E := length edges in
  let V := (E + 1)%nat in
  let K := (V * (V - 1) / 2)%nat in
  let M := capacity in
  let grid := make_complete_graph V in
  edge_prior ← truediv (1 # 2) (of_int M);
  count_stats ← Ok 1;
  v0 ← truediv 1 (of_int M);
  c0 ← truediv 1 (of_int (M ^ 2));
  Ok (mk capacity edges annealing_rate grid (1 # 2) edge_prior
         count_stats (full V M v0) (full K (M * M) c0)).

(** Lines 314-327 of [update]: the batch size and the decay factor. *)
Definition decay (self : t) (num_rows : option nat) (z : list (list nat))
  : res (nat * Q) :=
  let batch_size := size_last z in
  let num_rows := default batch_size num_rows in
  _ ← assert (bool_decide (batch_size <= num_rows)%nat);
  _ ← assert (bool_decide (0 < _count_stats self));
  r1 ← truediv (of_int batch_size) (_count_stats self);
  annealing ← truediv (1 + annealing_rate self) (1 + r1);
  r2 ← truediv (of_int batch_size) (of_int num_rows);
  exponential_smoothing ← truediv 1 (1 + r2);
  Ok (batch_size, pymin annealing exponential_smoothing).

(** [t + prior] followed by [t /= t.sum(-1, True)], on one row. *)
Definition posterior_mean (prior : Q) (row : list Q) : list Q :=
  let probs := map (fun x => prior + x) row in
  map (fun x => x / Qsum probs) probs.

(** [get_posterior]. *)
Definition get_posterior (self : t) : res (list (list Q) * list (list Q)) :=
  let k := map (fun e => pair_index (fst e) (snd e)) (edges self) in
  edge_stats ← traverse (getitem (_complete_stats self)) k;
  let vertex_probs := map (posterior_mean (_vertex_prior self)) (_vertex_stats self) in
  let edge_probs := map (posterior_mean (_edge_prior self)) edge_stats in
  Ok (vertex_probs, edge_probs).

(** The entropy [-(p * p.log()).sum(-1)] of a row of probabilities.  The
    embedding computes no logarithm: an entropy is kept as the row it is the
    entropy of. *)
Inductive entropy : Type :=
  | Entropy (row : list Q).

(** Lines 340-354 of [update], the block under
    [logging.Logger(None).isEnabledFor(logging.DEBUG)].  A logger made on the
    spot has no level of its own and no parent, so the test holds on every
    call unless [logging.disable] has switched the level off for the whole
    process.  The block writes no attribute, and its three texts go to the
    root logger; what reaches the caller is an exception of
    [get_posterior] or of the indexing [vertex_entropy[self.edges]] of the
    [(V,)] tensor of entropies by both endpoints of every edge.  The
    difference with [edge_entropy], its sort and the formatting of the
    numbers do not fail. *)
Definition log_metrics (self : t) : res unit :=
  '(vertex_probs, edge_probs) ← get_posterior self;
  let vertex_entropy := map Entropy vertex_probs in
  let edge_entropy := map Entropy edge_probs in
  mutual_info ←
    traverse (fun e => h1 ← getitem vertex_entropy (fst e);
                       h2 ← getitem vertex_entropy (snd e);
                       Ok (h1, h2)) (edges self);
  let mutual_info := zip mutual_info edge_entropy in
  Ok tt.

(** [update].  The object is mutated in place, so the object comes back also
    when an exception leaves the method half-way; a table on which
    [scatter_add_] raised keeps the value it had before that call.  The
    logging block runs last, on the updated object. *)
Definition update (self : t) (num_rows : option nat) (z : list (list nat))
  : t * res unit :=
  let M := capacity self in
  match decay self num_rows z with
  | Raise e => (self, Raise e)
  | OutOfFuel => (self, OutOfFuel)
  | Ok (batch_size, decay) =>
      let self :=
        set_count_stats (_count_stats self + of_int batch_size) self in
      let self := set_count_stats (_count_stats self * decay) self in
      match scatter_add_ (_vertex_stats self) z with
      | Raise e => (self, Raise e)
      | OutOfFuel => (self, OutOfFuel)
      | Ok vs =>
          let self := set_vertex_stats vs self in
          let self := set_vertex_stats (scale decay (_vertex_stats self)) self in
          match pair_codes M z (fst (_grid self)) (snd (_grid self)) with
          | Raise e => (self, Raise e)
          | OutOfFuel => (self, OutOfFuel)
          | Ok zz =>
              match scatter_add_ (_complete_stats self) zz with
              | Raise e => (self, Raise e)
              | OutOfFuel => (self, OutOfFuel)
              | Ok cs =>
                  let self := set_complete_stats cs self in
                  let self :=
                    set_complete_stats (scale decay (_complete_stats self)) self in
                  (self, log_metrics self)
              end
          end
      end
  end.

Section Logits.

(** [torch.lgamma] on one number; the embedding does not compute it. *)
Variable lgamma : Q -> Q.

(** [_dirmul_log_prob]: [unsqueeze(-1)] and the sum with [[alpha, 1]] give
    the pair [(c + alpha, c + 1)] per count, [lgamma_] maps both, [mv] with
    [[1., -1.]] takes their dot product, and [sum(-1)] adds up each row. *)
Definition _dirmul_log_prob (alpha : Q) (counts : list (list Q)) : list Q :=
  let temp := map (map (fun c => (lgamma (c + alpha), lgamma (c + 1)))) counts in
  let temp := map (map (fun p => fst p * 1 + snd p * (-1))) temp in
  map Qsum temp.

(** The docstring's formula, on one row:
    [(alpha + counts).lgamma().sum(-1) - (1 + counts).lgamma().sum(-1)]. *)
Definition dirmul_reference (alpha : Q) (counts : list Q) : Q :=
  Qsum (map (fun c => lgamma (alpha + c)) counts)
  - Qsum (map (fun c => lgamma (1 + c)) counts).

(** [compute_edge_logits].  The two in-place subtractions need the indexed
    vertex logits to have the shape of [edge_logits]. *)
Definition compute_edge_logits (self : t) : res (list Q) :=
  let E := length (edges self) in
  let V := (E + 1)%nat in
  let K := (V * (V - 1) / 2)%nat in
  let vertex_logits := _dirmul_log_prob (_vertex_prior self) (_vertex_stats self) in
  let edge_logits := _dirmul_log_prob (_edge_prior self) (_complete_stats self) in
  l0 ← traverse (getitem vertex_logits) (fst (_grid self));
  _ ← (if decide (length l0 = length edge_logits) then Ok tt else Raise RuntimeError);
  let edge_logits := zip_with Qminus edge_logits l0 in
  l1 ← traverse (getitem vertex_logits) (snd (_grid self));
  _ ← (if decide (length l1 = length edge_logits) then Ok tt else Raise RuntimeError);
  let edge_logits := zip_with Qminus edge_logits l1 in
  _ ← assert (bool_decide (length edge_logits = K));
  Ok edge_logits.

End Logits.

Close Scope Q_scope.

End EdgeGuide.

(** ** [TreeCat] *)

(** A two-dimensional [LongTensor]: its [shape] and its rows. *)
Record LongTensor : Type := {
  shape : Z * Z;
  rows : list (list nat)
}.

(** The distribution handed to a [Categorical] site: one probability vector,
    or one per row of the batch. *)
Inductive probs : Type :=
  | Unbatched (p : list Q)
  | Batched (ps : list (list Q)).

Module TreeCat.

Section Model.

(** The collaborators of the model: the feature objects, the data columns with
    their [size(0)], the samples drawn for the two probability tables, the
    realized latent states of a [Categorical] site and the realized value of a
    feature site. *)
Variables Feature Column : Type.
Variable size0 : Column -> nat.
Variable sample_probs : nat -> nat -> nat -> list (list Q) * list (list Q).
Variable sample_z : nat -> probs -> list nat.
Variable sample_x : nat -> list nat -> option Column -> Column.

Record t : Type := mk {
  features : list Feature;
  capacity : nat;
  _edge_guide : EdgeGuide.t;
  _vertex_prior : list Q;
  _edge_prior : list Q;
  _saved_z : option (list (option (list nat)));
  _edges : list (nat * nat);
  _root : nat;
  _neighbors : list (gset nat);
  _edge_index : gmap (nat * nat) nat
}.

(** [torch.stack([arange(E), arange(1, 1 + E)], dim=-1)]; [arange] refuses a
    negative bound. *)
Definition default_edges (E : Z) : res LongTensor :=
  if decide (E < 0)%Z then Raise RuntimeError
  else Ok {| shape := (E, 2%Z);
             rows := map (fun i => [i; S i]) (seq 0 (Z.to_nat E)) |}.

(** The rows [v1, v2] of [edges.numpy()]. *)
Definition edge_rows (edges : LongTensor) : res (list (nat * nat)) :=
  traverse (fun row => match row with
                       | [v1; v2] => Ok (v1, v2)
                       | _ => Raise ValueError
                       end) (rows edges).

(** The loop of the [edges] setter over [enumerate(edges.numpy())]. *)
Fixpoint index_edges (e : nat) (edges : list (nat * nat))
    (neighbors : list (gset nat)) (edge_index : gmap (nat * nat) nat)
  : res (list (gset nat) * gmap (nat * nat) nat) :=
  match edges with
  | [] => Ok (neighbors, edge_index)
  | (v1, v2) :: edges' =>
      nb ← add_edge neighbors (v1, v2);
      index_edges (S e) edges' nb (<[(v2, v1) := e]> (<[(v1, v2) := e]> edge_index))
  end.

(** [TreeCat.__init__], the [edges] setter included.  The argument has the
    type [isinstance(edges, torch.LongTensor)] asserts; the feature guide,
    built by the external [AutoDelta], is not an attribute of the model
    here. *)
Definition __init__ (features : list Feature) (capacity : Z)
    (edges : option LongTensor) (annealing_rate : Q) : res t :=
  let V := Z.of_nat (length features) in
  let E := (V - 1)%Z in
  let M := capacity in
  edges ← match edges with
          | Some e => Ok e
          | None => default_edges E
          end;
  _ ← assert (bool_decide (capacity > 1)%Z);
  _ ← assert (bool_decide (shape edges = (E, 2%Z)));
  let M := Z.to_nat M in
  pairs ← edge_rows edges;
  edge_guide ← EdgeGuide.__init__ M pairs annealing_rate;
  edge_prior ← truediv (1 # 2)%Q (of_int M);
  root ← find_center_of_tree pairs;
  '(neighbors, edge_index) ←
    index_edges 0 pairs (replicate (length features) ∅) ∅;
  Ok (mk features M edge_guide (replicate M (1 # 2)%Q) (replicate (M * M) edge_prior)
         None pairs root neighbors edge_index).

(** The scan of [_propagate] over [self._neighbors[v]]: the upstream parent
    [v0] and the downstream [children]. *)
Fixpoint scan (z : list (option (list nat))) (candidates : list nat)
    (v0 : option nat) (children : list nat) : res (option nat * list nat) :=
  match candidates with
  | [] => Ok (v0, children)
  | v2 :: rest =>
      zv2 ← getitem z v2;
      match zv2 with
      | None => scan z rest v0 (children ++ [v2])
      | Some _ => scan z rest (Some v2) children
      end
  end.

(** [joint.reshape(joint.shape[:-1] + (M, M))]. *)
Definition reshape (M : nat) (joint : list Q) : res (list (list Q)) :=
  if decide (length joint = M * M) then
    Ok (map (fun i => take M (drop (i * M) joint)) (seq 0 M))
  else Raise RuntimeError.

(** [joint.transpose(-1, -2)] of an [M x M] block. *)
Definition transpose (M : nat) (joint : list (list Q)) : list (list Q) :=
  map (fun j => map (fun row => nth j row 0%Q) joint) (seq 0 M).

(** The distribution of [z[v]] in [_propagate]: the marginal row of a vertex
    without parent, else the rows of the joint block of the edge to the parent
    [v0] selected by the parent's states [z[v0]] (the scan only yields a
    parent whose [z[v0]] is set). *)
Definition conditional (self : t) (vertex_probs edge_probs : list (list Q))
    (z : list (option (list nat))) (v : nat) (v0 : option nat) : res probs :=
  let M := capacity self in
  match v0 with
  | None => p ← getitem vertex_probs v; Ok (Unbatched p)
  | Some v0 =>
      e ← match _edge_index self !! (v, v0) with
          | Some e => Ok e
          | None => Raise KeyError
          end;
      joint ← getitem edge_probs e;
      joint ← reshape M joint;
      let joint := if decide (v < v0)%nat then transpose M joint else joint in
      zv0 ← getitem z v0;
      match zv0 with
      | None => Raise RuntimeError
      | Some states => ps ← traverse (getitem joint) states; Ok (Batched ps)
      end
  end.

(** The head of [_propagate], down to the distribution of the [Categorical]
    site of [v]: the scan of the neighbours and the look-up.  The order in
    which a Python set yields its members is the order of [elements]. *)
Definition site (self : t) (vertex_probs edge_probs : list (list Q))
    (z : list (option (list nat))) (v : nat)
  : res (probs * list nat) :=
  s ← getitem (_neighbors self) v;
  '(v0, children) ← scan z (elements s) None [];
  p ← conditional self vertex_probs edge_probs z v v0;
  Ok (p, children).

(** A left fold of a fallible step, as a [for] loop runs it. *)
Fixpoint for_each {A S : Type} (step : S -> A -> res S) (l : list A) (st : S)
  : res S :=
  match l with
  | [] => Ok st
  | a :: l' => st' ← step st a; for_each step l' st'
  end.

(** [_propagate].  The fuel bounds the depth of the recursion. *)
Fixpoint _propagate (fuel : nat) (self : t) (data : list (option Column))
    (impute : bool) (vertex_probs edge_probs : list (list Q))
    (zx : list (option (list nat)) * list (option Column)) (v : nat)
  : res (list (option (list nat)) * list (option Column)) :=
  match fuel with
  | 0 => OutOfFuel
  | S fuel' =>
      let '(z, x) := zx in
      '(p, children) ← site self vertex_probs edge_probs z v;
      _ ← getitem z v;
      let zv := sample_z v p in
      let z := <[v := Some zv]> z in
      dv ← getitem data v;
      x ← (if bool_decide (is_Some dv) || impute
           then _ ← getitem x v; Ok (<[v := Some (sample_x v zv dv)]> x)
           else Ok x);
      for_each (_propagate fuel' self data impute vertex_probs edge_probs)
        children (z, x)
  end.

(** Lines 101-106 of [model]: the two assertions, the batch size and the
    default of [num_rows]. *)
Definition model_batch (self : t) (data : list (option Column))
    (num_rows : option nat) : res (nat * nat) :=
  _ ← assert (bool_decide (length data = length (features self)));
  _ ← assert (negb (forallb (fun column => bool_decide (column = None)) data));
  batch_size ← match head (omap id data) with
               | Some col => Ok (size0 col)
               | None => Raise RuntimeError
               end;
  Ok (batch_size, default batch_size num_rows).

(** [model]: the object with its [_saved_z], and the returned [x]. *)
Definition model (self : t) (data : list (option Column))
    (num_rows : option nat) (impute : bool)
  : res (t * list (option Column)) :=
  '(batch_size, num_rows) ← model_batch self data num_rows;
  let V := length (features self) in
  let E := length (_edges self) in
  let M := capacity self in
  let '(vertex_probs, edge_probs) := sample_probs V E M in
  '(z, x) ← _propagate (S V) self data impute vertex_probs edge_probs
              (replicate V None, replicate V None) (_root self);
  Ok (mk (features self) (capacity self) (_edge_guide self)
         (_vertex_prior self) (_edge_prior self) (Some z)
         (_edges self) (_root self) (_neighbors self) (_edge_index self), x).

End Model.

Arguments __init__ {Feature} features capacity edges annealing_rate.
Arguments site {Feature} self vertex_probs edge_probs z v.
Arguments conditional {Feature} self vertex_probs edge_probs z v v0.
Arguments model_batch {Feature Column} size0 self data num_rows.
Arguments model {Feature Column} size0 sample_probs sample_z sample_x
  self data num_rows impute.
Arguments _propagate {Feature Column} sample_z sample_x fuel self data impute
  vertex_probs edge_probs zx v.

End TreeCat.

(** ** Shapes and reachable states of the edge guide *)

(** The shape [__init__] gives an edge guide and [update] keeps: the grid of
    the complete graph on [V = E + 1] vertices, the two priors, a [(V, M)]
    table of vertex statistics and a [(K, M * M)] table of pair statistics. *)
Definition shaped (s : EdgeGuide.t) : Prop :=
  let V := length (EdgeGuide.edges s) + 1 in
  let M := EdgeGuide.capacity s in
  let K := V * (V - 1) / 2 in
  EdgeGuide._grid s = make_complete_graph V
  /\ EdgeGuide._vertex_prior s = (1 # 2)%Q
  /\ EdgeGuide._edge_prior s = ((1 # 2) / of_int M)%Q
  /\ length (EdgeGuide._vertex_stats s) = V
  /\ Forall (fun row => length row = M) (EdgeGuide._vertex_stats s)
  /\ length (EdgeGuide._complete_stats s) = K
  /\ Forall (fun row => length row = M * M) (EdgeGuide._complete_stats s).

(** The edge rows the logging block of [update] can read: [get_posterior]
    takes row [v1 + v2*(v2-1)//2] of the [K] rows of [_complete_stats], and
    [vertex_entropy[self.edges]] takes the entries [v1] and [v2] of [V]. *)
Definition readable_edges (s : EdgeGuide.t) : Prop :=
  let V := length (EdgeGuide.edges s) + 1 in
  let K := V * (V - 1) / 2 in
  Forall (fun e => pair_index e.1 e.2 < K /\ e.1 < V /\ e.2 < V)
         (EdgeGuide.edges s).

#[global] Instance readable_edges_dec s : Decision (readable_edges s).
Proof. unfold readable_edges. apply _. Defined.

(** A [(V, B)] matrix of latent states below [M]. *)
Definition latent_matrix (V M B : nat) (z : list (list nat)) : Prop :=
  length z = V
  /\ Forall (fun row => length row = B /\ Forall (fun st => st < M) row) z.

(** The states an edge guide goes through from [s0] under calls of [update],
    whatever their arguments and whether or not they raise. *)
Inductive reachable (s0 : EdgeGuide.t) : EdgeGuide.t -> Prop :=
  | reachable_init : reachable s0 s0
  | reachable_update s num_rows z :
      reachable s0 s -> reachable s0 (fst (EdgeGuide.update s num_rows z)).

(** Entry [(i, j)] of a table. *)
Definition cell (t : list (list Q)) (i j : nat) : Q := nth j (nth i t []) 0%Q.

(** The number of entries of [l] equal to [m]. *)
Definition occurrences (m : nat) (l : list nat) : nat :=
  length (filter (fun st => st = m) l).


(** The two terms of the decay factor as the spec writes them:
    [annealing = (1 + annealing_rate) / (1 + batch_size / count_stats)] and
    [exponential_smoothing = 1 / (1 + batch_size / num_rows)]. *)
Definition annealing (annealing_rate count_stats : Q) (batch_size : nat) : Q :=
  ((1 + annealing_rate) / (1 + of_int batch_size / count_stats))%Q.

Definition exponential_smoothing (batch_size num_rows : nat) : Q :=
  (1 / (1 + of_int batch_size / of_int num_rows))%Q.

(** The value [update] binds to [decay] for a batch of [B] rows out of [n]. *)
Definition decay_value (s : EdgeGuide.t) (B n : nat) : Q :=
  pymin (annealing (EdgeGuide.annealing_rate s) (EdgeGuide._count_stats s) B)
        (exponential_smoothing B n).

(** ** The scenario of the spec: the path [0-1-2] with [M = 2] *)

Definition path3 : list (nat * nat) := [(0, 1); (1, 2)].

(** The edge guide [__init__] builds for it. *)
Definition guide3 : EdgeGuide.t :=
  EdgeGuide.mk 2 path3 (1 # 100) ([0; 0; 1], [1; 2; 2]) (1 # 2) (1 # 4) 1
    (replicate 3 [(1 # 2)%Q; (1 # 2)%Q])
    (replicate 3 [(1 # 4)%Q; (1 # 4)%Q; (1 # 4)%Q; (1 # 4)%Q]).

(** The minibatch [z = [[0], [0], [1]]] of one row. *)
Definition z3 : list (list nat) := [[0]; [0]; [1]].

(** What a row [p.1] of a table becomes under [scatter_add_] with the row
    [p.2] of indices: the same length, [len(p.2)] more in total, and at every
    position as many units more as the position occurs in [p.2]. *)
Definition scattered (row' : list Q) (p : list Q * list nat) : Prop :=
  length row' = length p.1
  /\ (Qsum row' == Qsum p.1 + of_int (length p.2))%Q
  /\ forall j, (nth j row' 0 == nth j p.1 0 + of_int (occurrences j p.2))%Q.

(** The code [z[v1, row] * M + z[v2, row]] of a pair of latent states. *)
Definition pair_code (M a b : nat) : nat := a * M + b.

(** A table of non-negative statistics. *)
Definition nonneg_table (t : list (list Q)) : Prop :=
  Forall (Forall (fun x => 0 <= x)%Q) t.

(** Entry [(i, j)] of the [M x M] block a flat row of [M * M] numbers
    reshapes to. *)
Definition block_entry (M : nat) (joint : list Q) (i j : nat) : option Q :=
  joint !! (i * M + j).

(** The model [TreeCat.__init__] builds for three features, [M = 2] and the
    default edges, which are those of [path3]. *)
Definition tree3 : TreeCat.t unit :=
  TreeCat.mk unit [tt; tt; tt] 2 guide3
    [(1 # 2)%Q; (1 # 2)%Q] [(1 # 4)%Q; (1 # 4)%Q; (1 # 4)%Q; (1 # 4)%Q]
    None path3 1
    [{[1]}; {[0; 2]}; {[1]}]
    (<[(2, 1) := 1]> (<[(1, 2) := 1]> (<[(1, 0) := 0]> (<[(0, 1) := 0]> ∅)))).

(** Two tables of probabilities for it. *)
Definition vertex_probs3 : list (list Q) :=
  [[(1 # 2)%Q; (1 # 2)%Q]; [(1 # 4)%Q; (3 # 4)%Q]; [(1 # 2)%Q; (1 # 2)%Q]].

Definition edge_probs3 : list (list Q) :=
  [[(1 # 10)%Q; (2 # 10)%Q; (3 # 10)%Q; (4 # 10)%Q];
   [(4 # 10)%Q; (3 # 10)%Q; (2 # 10)%Q; (1 # 10)%Q]].

(** ** Trees *)

(** The members of [neighbors[u]] (none out of range). *)
Definition neighbors_of (neighbors : list (gset nat)) (u : nat) : gset nat :=
  default ∅ (neighbors !! u).

(** [a] and [b] are joined by an edge of the list, in either order. *)
Definition edge_between (edges : list (nat * nat)) (a b : nat) : Prop :=
  (a, b) ∈ edges \/ (b, a) ∈ edges.

(** The edge lists the spec calls trees: [V - 1] edges between distinct
    vertices of [0 .. V-1] that connect all of them. *)
Definition is_tree (edges : list (nat * nat)) : Prop :=
  let V := length edges + 1 in
  Forall (fun e => e.1 < V /\ e.2 < V /\ e.1 <> e.2) edges
  /\ forall u w, u < V -> w < V -> rtc (edge_between edges) u w.

(** The path [0 - 1 - ... - (V-1)]. *)
Definition path_edges (V : nat) : list (nat * nat) :=
  map (fun i => (i, S i)) (seq 0 (V - 1)).

(** The state of the leaf-stripping loop on a tree with [V] vertices: [live]
    lists the vertices not yet popped.  Among them the neighbour sets are
    symmetric and irreflexive, the queue holds exactly those of degree at
    most 1, every two are connected, and there are fewer edges than
    vertices. *)
Record strip_inv (V : nat) (neighbors : list (gset nat)) (queue : list nat)
    (visited live : list nat) : Prop := {
  inv_length : length neighbors = V;
  inv_live : forall u, u ∈ live <-> u < V /\ u ∉ visited;
  inv_live_nodup : NoDup live;
  inv_visited_nodup : NoDup visited;
  inv_queue_nodup : NoDup queue;
  inv_adj : forall u w, u ∈ live -> w ∈ neighbors_of neighbors u ->
            w ∈ live /\ w <> u /\ u ∈ neighbors_of neighbors w;
  inv_queue : forall u, u ∈ live -> (u ∈ queue <-> degree neighbors u <= 1);
  inv_queue_live : forall u, u ∈ queue -> u ∈ live;
  inv_connected : forall u w, u ∈ live -> w ∈ live ->
                  rtc (fun a b => b ∈ neighbors_of neighbors a) u w;
  inv_count : live <> [] ->
              sum_list_with (degree neighbors) live + 2 <= 2 * length live
}.

(** The neighbour sets of the stretch [lo .. hi] of a path whose vertices
    outside the stretch have been stripped. *)
Definition path_state (lo hi : nat) (neighbors : list (gset nat)) : Prop :=
  hi < length neighbors
  /\ forall i, lo <= i <= hi ->
       forall w, w ∈ neighbors_of neighbors i
                 <-> lo <= w <= hi /\ (w = S i \/ i = S w).

(** ** Rooted trees and listings *)

(** A rooted tree: a vertex and the subtrees of its children. *)
Inductive rtree : Type :=
  | Node (v : nat) (kids : list rtree).

Definition root_of (t : rtree) : nat :=
  match t with Node v _ => v end.

Fixpoint vertices (t : rtree) : list nat :=
  match t with
  | Node v kids => v :: concat (map vertices kids)
  end.

(** [t] is the tree the neighbour sets hang below [root_of t], reached from
    [parent]: the neighbours of every vertex are its children and its parent,
    and the children are kept in increasing order of their ids. *)
Inductive rooted (neighbors : list (gset nat)) : option nat -> rtree -> Prop :=
  | rooted_node parent v kids :
      neighbors !! v
      = Some (list_to_set (map root_of kids)
              ∪ match parent with Some p => {[p]} | None => ∅ end) ->
      StronglySorted lt (map root_of kids) ->
      Forall (rooted neighbors (Some v)) kids ->
      rooted neighbors parent (Node v kids).

(** The depth-first listing that names a vertex before its subtrees, each
    vertex with its depth. *)
Fixpoint preorder (depth : nat) (t : rtree) : list (nat * nat) :=
  match t with
  | Node v kids => (depth, v) :: concat (map (preorder (S depth)) kids)
  end.

(** The listing the loop of [print_tree] builds before [lines.reverse()]:
    the subtrees in decreasing order of their roots, then the vertex. *)
Fixpoint postorder_desc (depth : nat) (t : rtree) : list (nat * nat) :=
  match t with
  | Node v kids =>
      concat (reverse (map (postorder_desc (S depth)) kids)) ++ [(depth, v)]
  end.

(** The turns the loop of [print_tree] spends on a subtree: one to push each
    child and one to pop each vertex. *)
Fixpoint turns (t : rtree) : nat :=
  match t with
  | Node v kids => S (sum_list_with (fun k => S (turns k)) kids)
  end.

(** The lines of a listing: each vertex replaced by its feature name. *)
Definition labelled (feature_names : list string) (l : list (nat * nat))
  : list (nat * string) :=
  map (fun dv => (dv.1, nth dv.2 feature_names EmptyString)) l.

(** ** The listing order the spec words *)

(** The children of a vertex in reverse-lexicographic order of their feature
    names. *)
Definition reverse_lexicographic (feature_names : list string)
    (children : list nat) : list nat :=
  merge_sort (fun a b => Is_true (String.leb (nth b feature_names EmptyString)
                                             (nth a feature_names EmptyString)))
             children.

(** The spec's listing: depth-first from [v], every vertex before its
    children, ties among the children broken by [reverse_lexicographic]. *)
Fixpoint spec_listing (fuel : nat) (feature_names : list string)
    (neighbors : list (gset nat)) (parent : option nat) (depth v : nat)
  : list (nat * string) :=
  match fuel with
  | 0 => []
  | S fuel' =>
      (depth, nth v feature_names EmptyString)
      :: concat (map (spec_listing fuel' feature_names neighbors (Some v) (S depth))
                   (reverse_lexicographic feature_names
                      (filter (fun u => Some u <> parent)
                         (elements (neighbors_of neighbors v)))))
  end.

Definition spec_print_tree (neighbors : list (gset nat))
    (feature_names : list string) (r : nat) : string :=
  render (spec_listing (length feature_names) feature_names neighbors None 0 r).

(** A star with centre 0 and the names of the counterexample. *)
Definition star3 : list (nat * nat) := [(0, 1); (0, 2)].
Definition star3_neighbors : list (gset nat) := [{[1; 2]}; {[0]}; {[0]}].
Definition star3_tree : rtree := Node 0 [Node 1 []; Node 2 []].
Definition names_abc : list string := ["a"; "b"; "c"]%string.
Definition names_acb : list string := ["a"; "c"; "b"]%string.

(** ** Leaf stripping on arbitrary edge lists *)

(** The state of the leaf-stripping loop on any edge list with vertices below
    [V]: the popped and the queued vertices are all distinct, a queued vertex
    has at most one neighbour left, and among the vertices not yet popped the
    neighbour sets are symmetric. *)
Record strip_safe (V : nat) (neighbors : list (gset nat))
    (queue visited : list nat) : Prop := {
  safe_length : length neighbors = V;
  safe_nodup : NoDup (visited ++ queue);
  safe_visited : forall u, u ∈ visited -> u < V;
  safe_queue : forall u, u ∈ queue -> u < V /\ degree neighbors u <= 1;
  safe_adj : forall u w, u < V -> u ∉ visited ->
             w ∈ neighbors_of neighbors u ->
             w < V /\ (w ∉ visited) /\ u ∈ neighbors_of neighbors w
}.

(** A triangle on the vertices 0, 1, 2 next to the isolated vertex 3. *)
Definition triangle : list (nat * nat) := [(0, 1); (1, 2); (2, 0)].
(** An endpoint of [e] is not a vertex of [0 .. V-1]. *)
Definition out_of_range (V : nat) (e : nat * nat) : Prop :=
  V <= e.1 \/ V <= e.2.

(** The path [0 - 1 - 2] with its edges in the other order and direction. *)
Definition path3_reversed : list (nat * nat) := [(2, 1); (1, 0)].

(** ** The traversal of [print_tree] on arbitrary edge lists *)

(** The state of the [while stack] loop of [print_tree] started at vertex [r]:
    [l] lists the vertices popped so far, each with the length of the stack it
    left behind.  The popped and the stacked vertices are distinct and make up
    [seen]; every neighbour of a popped vertex is seen; a vertex that sits on
    [k] others in the stack is reached from [r] by [k] steps along neighbours;
    and the bottom of the stack is [r], which is popped last, with depth 0. *)
Record dfs_inv (V r : nat) (neighbors : list (gset nat)) (stack : list nat)
    (seen : gset nat) (l : list (nat * nat)) : Prop := {
  dfs_nodup : NoDup (map snd l ++ stack);
  dfs_seen : forall u, u ∈ seen <-> u ∈ map snd l \/ u ∈ stack;
  dfs_range : forall u, u ∈ seen -> u < V;
  dfs_closed : forall u w, u ∈ map snd l -> w ∈ neighbors_of neighbors u ->
               w ∈ seen;
  dfs_depth : forall d u, (d, u) ∈ l ->
              nsteps (fun a b => b ∈ neighbors_of neighbors a) d r u;
  dfs_stack : forall pre top rest, stack = pre ++ top :: rest ->
              nsteps (fun a b => b ∈ neighbors_of neighbors a) (length rest) r top;
  dfs_root : match stack with
             | [] => last l = Some (0, r)
             | _ => last stack = Some r /\ r ∉ map snd l
             end
}.

(** ** Marginals of the pair statistics *)

(** [self._edge_guide.edges = edges], the assignment the [edges] setter of the
    model makes. *)
Definition guide_set_edges (edges : list (nat * nat)) (self : EdgeGuide.t)
  : EdgeGuide.t :=
  EdgeGuide.mk (EdgeGuide.capacity self) edges (EdgeGuide.annealing_rate self)
    (EdgeGuide._grid self) (EdgeGuide._vertex_prior self)
    (EdgeGuide._edge_prior self) (EdgeGuide._count_stats self)
    (EdgeGuide._vertex_stats self) (EdgeGuide._complete_stats self).





(** A minibatch of one row whose last latent state is not below [M = 2]. *)
Definition z3_bad : list (list nat) := [[0]; [0]; [2]].

(** ** The directed tree of a [TreeCat] model *)

(** The [(E, 2)] tensor whose rows are the given pairs. *)
Definition tensor_of (pairs : list (nat * nat)) : LongTensor :=
  {| shape := (Z.of_nat (length pairs), 2%Z);
     rows := map (fun p => [p.1; p.2]) pairs |}.

(** Row [e] of the edges joins [a] and [b], in either order. *)
Definition joins (edges : list (nat * nat)) (e a b : nat) : Prop :=
  edges !! e = Some (a, b) \/ edges !! e = Some (b, a).

(** Three rows on four vertices that form no tree: the pair [0, 1] twice and
    the pair [1, 2], with vertex 3 left alone. *)
Definition doubled_edge : list (nat * nat) := [(0, 1); (1, 0); (1, 2)].

(** ** Pickling a [TreeCat] model *)

(** The dictionary [__getstate__] returns. *)
Record pickled (Feature : Type) : Type := {
  init_args : list Feature * Z * LongTensor;
  edge_guide : EdgeGuide.t
}.

Arguments init_args {Feature} _.
Arguments edge_guide {Feature} _.

(** [self._edge_guide = guide]. *)
Definition set_edge_guide {Feature : Type} (guide : EdgeGuide.t)
    (self : TreeCat.t Feature) : TreeCat.t Feature :=
  TreeCat.mk Feature (TreeCat.features Feature self) (TreeCat.capacity Feature self)
    guide (TreeCat._vertex_prior Feature self) (TreeCat._edge_prior Feature self)
    (TreeCat._saved_z Feature self) (TreeCat._edges Feature self)
    (TreeCat._root Feature self) (TreeCat._neighbors Feature self)
    (TreeCat._edge_index Feature self).

(** [self._saved_z = z]. *)
Definition set_saved_z {Feature : Type} (z : option (list (option (list nat))))
    (self : TreeCat.t Feature) : TreeCat.t Feature :=
  TreeCat.mk Feature (TreeCat.features Feature self) (TreeCat.capacity Feature self)
    (TreeCat._edge_guide Feature self) (TreeCat._vertex_prior Feature self)
    (TreeCat._edge_prior Feature self) z (TreeCat._edges Feature self)
    (TreeCat._root Feature self) (TreeCat._neighbors Feature self)
    (TreeCat._edge_index Feature self).

(** [TreeCat.__getstate__]: the arguments to build the model again, and the
    edge guide.  The property [self.edges] is the tensor of the stored rows. *)
Definition __getstate__ {Feature : Type} (self : TreeCat.t Feature)
  : pickled Feature :=
  {| init_args := (TreeCat.features Feature self,
                   Z.of_nat (TreeCat.capacity Feature self),
                   tensor_of (TreeCat._edges Feature self));
     edge_guide := TreeCat._edge_guide Feature self |}.

(** [TreeCat.__setstate__]: [__init__] with the three pickled arguments and
    the default [annealing_rate=0.01], then the pickled edge guide in place of
    the new one, with the edges of the model assigned to it. *)
Definition __setstate__ {Feature : Type} (state : pickled Feature)
  : res (TreeCat.t Feature) :=
  let '(features, capacity, edges) := init_args state in
  self ← TreeCat.__init__ features capacity (Some edges) (1 # 100)%Q;
  let self := set_edge_guide (edge_guide state) self in
  Ok (set_edge_guide
        (guide_set_edges (TreeCat._edges Feature self)
           (TreeCat._edge_guide Feature self))
        self).

(** * [DoMessenger]: interventions on sample sites

    A shallow embedding of [pyro/poutine/do_messenger.py].  A message is the
    dictionary [pyro.sample] hands to the handlers: the keys [_pyro_sample]
    reads or writes are the fields of a record, the other keys travel in
    [rest]; [msg.get('_intervener_id', None)] is the field [_intervener_id],
    [None] when the key is absent.  Distributions, tensors, [Delta] and
    [torch.tensor] belong to the libraries and stay abstract, and so do the
    numbers with their conversion [float]; [float] and [Delta] may raise.  The two
    effects of the method, [warnings.warn] and [apply_stack], are recorded in
    the order they happen; what the handler stack does with the copy it
    receives is outside the embedding. *)

Module Message.

Section Message.

Variables Distribution Tensor Rest : Type.

Record t : Type := mk {
  name : string;
  fn : Distribution;
  value : option Tensor;
  is_observed : bool;
  done : bool;
  _intervener_id : option string;
  rest : Rest
}.

Definition set_name (n : string) (msg : t) : t :=
  mk n (fn msg) (value msg) (is_observed msg) (done msg) (_intervener_id msg)
     (rest msg).

Definition set_fn (d : Distribution) (msg : t) : t :=
  mk (name msg) d (value msg) (is_observed msg) (done msg) (_intervener_id msg)
     (rest msg).

Definition set_value (v : option Tensor) (msg : t) : t :=
  mk (name msg) (fn msg) v (is_observed msg) (done msg) (_intervener_id msg)
     (rest msg).

Definition set_is_observed (b : bool) (msg : t) : t :=
  mk (name msg) (fn msg) (value msg) b (done msg) (_intervener_id msg)
     (rest msg).

Definition set_done (b : bool) (msg : t) : t :=
  mk (name msg) (fn msg) (value msg) (is_observed msg) b (_intervener_id msg)
     (rest msg).

Definition set_intervener_id (i : option string) (msg : t) : t :=
  mk (name msg) (fn msg) (value msg) (is_observed msg) (done msg) i (rest msg).

End Message.

Arguments mk {Distribution Tensor Rest} _ _ _ _ _ _ _.
Arguments name {Distribution Tensor Rest} _.
Arguments fn {Distribution Tensor Rest} _.
Arguments value {Distribution Tensor Rest} _.
Arguments is_observed {Distribution Tensor Rest} _.
Arguments done {Distribution Tensor Rest} _.
Arguments _intervener_id {Distribution Tensor Rest} _.
Arguments rest {Distribution Tensor Rest} _.
Arguments set_name {Distribution Tensor Rest} _ _.
Arguments set_fn {Distribution Tensor Rest} _ _.
Arguments set_value {Distribution Tensor Rest} _ _.
Arguments set_is_observed {Distribution Tensor Rest} _ _.
Arguments set_done {Distribution Tensor Rest} _ _.
Arguments set_intervener_id {Distribution Tensor Rest} _ _.

End Message.

Module DoMessenger.

Section DoMessenger.

Variables Distribution Tensor Number Rest : Type.

(** [len(d.event_shape)]; [float(x)] on an instance of [numbers.Number],
    which raises on the numbers that have no conversion; [torch.tensor(x)] of
    a float; and [Delta(v, event_dim=k)], whose constructor may refuse its
    arguments. *)
Variable event_dim : Distribution -> nat.
Variable float : Number -> res Q.
Variable tensor : Q -> Tensor.
Variable Delta : Tensor -> nat -> res Distribution.

(** A value of the dictionary [data]: [None], a [Distribution], a number, or
    anything else, which is handed to [Delta] as it is. *)
Inductive intervention : Type :=
  | INone
  | IDistribution (d : Distribution)
  | INumber (x : Number)
  | IValue (v : Tensor).

(** [warnings.warn(text, RuntimeWarning)] and [apply_stack(new_msg)]. *)
Inductive effect : Type :=
  | Warn (text : string)
  | ApplyStack (new_msg : Message.t Distribution Tensor Rest).

Record t : Type := mk {
  data : gmap string intervention;
  _intervener_id : string
}.

(** [DoMessenger.__init__]; [identity] is [str(id(self))]. *)
Definition __init__ (data : gmap string intervention) (identity : string) : t :=
  mk data identity.

(** The text of the warning for the site [name]. *)
Definition warning_text (name : string) : string :=
  String.append "Attempting to intervene on variable "
    (String.append name
       " multiple times,this is almost certainly incorrect behavior").

(** [DoMessenger._pyro_sample].  The message is a dictionary changed in
    place and the effects have happened when an exception leaves the method,
    so the message as the method leaves it and the effects of the call come
    back next to the result. *)
Definition _pyro_sample (self : t) (msg : Message.t Distribution Tensor Rest)
  : Message.t Distribution Tensor Rest * list effect * res unit :=
  if bool_decide (Message._intervener_id msg <> Some (_intervener_id self))
     && bool_decide (is_Some (data self !! Message.name msg)) then
    let warned :=
      if bool_decide (Message._intervener_id msg <> None)
      then [Warn (warning_text (Message.name msg))] else [] in
    let msg := Message.set_intervener_id (Some (_intervener_id self)) msg in
    let new_msg := msg in
    let effects := warned ++ [ApplyStack new_msg] in
    match data self !! Message.name msg with
    | None => (msg, effects, Raise KeyError)
    | Some intervention =>
        let msg :=
          Message.set_name (String.append (Message.name msg) "__CF") msg in
        match
          match intervention with
          | INone => Ok (Message.fn msg)
          | IDistribution d => Ok d
          | INumber x =>
              x ← float x; Delta (tensor x) (event_dim (Message.fn msg))
          | IValue v => Delta v (event_dim (Message.fn msg))
          end
        with
        | Raise e => (msg, effects, Raise e)
        | OutOfFuel => (msg, effects, OutOfFuel)
        | Ok intervention =>
            let msg := Message.set_fn intervention msg in
            let msg := Message.set_value None msg in
            let msg := Message.set_is_observed false msg in
            let msg := Message.set_done false msg in
            (msg, effects, Ok tt)
        end
    end
  else (msg, [], Ok tt).

(** The distribution an intervention puts at a site in place of [fn], as the
    branches of [_pyro_sample] choose it, or the exception of the
    conversion. *)
Definition intervened_fn (i : intervention) (fn : Distribution)
  : res Distribution :=
  match i with
  | INone => Ok fn
  | IDistribution d => Ok d
  | INumber x => x ← float x; Delta (tensor x) (event_dim fn)
  | IValue v => Delta v (event_dim fn)
  end.

End DoMessenger.

Arguments INone {Distribution Tensor Number}.
Arguments IDistribution {Distribution Tensor Number} d.
Arguments INumber {Distribution Tensor Number} x.
Arguments IValue {Distribution Tensor Number} v.
Arguments Warn {Distribution Tensor Rest} text.
Arguments ApplyStack {Distribution Tensor Rest} new_msg.
Arguments mk {Distribution Tensor Number} data _intervener_id.
Arguments data {Distribution Tensor Number} _.
Arguments _intervener_id {Distribution Tensor Number} _.
Arguments __init__ {Distribution Tensor Number} data identity.
Arguments _pyro_sample {Distribution Tensor Number Rest} event_dim float tensor
  Delta self msg.
Arguments intervened_fn {Distribution Tensor Number} event_dim float tensor
  Delta i fn.

End DoMessenger.

(** ** A scenario: interventions on the site [z]

    Distributions are known by their names, tensors are numbers, and no
    further key is carried.  A number is a real one, read as a rational, or a
    complex one, for which [float] raises [TypeError].  The site [z] is
    observed at the value 3; one messenger sets it to 1, another to 2, and a
    third to the complex number [1j]. *)
Inductive number : Type :=
  | Real (x : Q)
  | Complex (re im : Q).

Definition float_of (x : number) : res Q :=
  match x with
  | Real q => Ok q
  | Complex _ _ => Raise TypeError
  end.

Definition delta_name (v : Q) (event_dim : nat) : res string := Ok "Delta"%string.

Definition site_z : Message.t string Q unit :=
  Message.mk "z" "Normal" (Some 3%Q) true false None tt.

Definition do_one : DoMessenger.t string Q number :=
  DoMessenger.__init__ {["z"%string := DoMessenger.INumber (Real 1%Q)]} "1".


Definition do_complex : DoMessenger.t string Q number :=
  DoMessenger.__init__
    {["z"%string := DoMessenger.INumber (Complex 0%Q 1%Q)]} "3".

(** ** The directed tree a model propagates along *)

(** [t] is the tree the neighbour sets hang below [root_of t], reached from
    [parent]: the neighbours of every vertex are its children and its
    parent. *)
Inductive hangs (neighbors : list (gset nat)) : option nat -> rtree -> Prop :=
  | hangs_node parent v kids :
      neighbors !! v
      = Some (list_to_set (map root_of kids)
              ∪ match parent with Some p => {[p]} | None => ∅ end) ->
      Forall (hangs neighbors (Some v)) kids ->
      hangs neighbors parent (Node v kids).

(** The number of vertices on the longest way down from the root. *)
Fixpoint height (t : rtree) : nat :=
  match t with
  | Node _ kids => S (foldr Nat.max 0 (map height kids))
  end.

(** The pairs (parent, child) of a rooted tree. *)
Fixpoint tree_edges (t : rtree) : list (nat * nat) :=
  match t with
  | Node v kids =>
      map (fun k => (v, root_of k)) kids ++ concat (map tree_edges kids)
  end.

(** [z[v]] is the sample drawn at the [Categorical] site of [v] from the
    distribution [_propagate] looks up for [v] given the state of [parent]
    in [z]. *)
Definition sampled {Feature : Type} (sample_z : nat -> probs -> list nat)
    (self : TreeCat.t Feature) (vertex_probs edge_probs : list (list Q))
    (z : list (option (list nat))) (parent : option nat) (v : nat) : Prop :=
  exists p,
    TreeCat.conditional self vertex_probs edge_probs z v parent = Ok p
    /\ z !! v = Some (Some (sample_z v p)).

(** [x[v]] is the value of the feature site of [v], run on the latent states
    [z[v]] with the observation [data[v]], when the column is observed or
    imputed, and [None] otherwise. *)
Definition emitted {Column : Type}
    (sample_x : nat -> list nat -> option Column -> Column)
    (data : list (option Column)) (impute : bool)
    (z : list (option (list nat))) (x : list (option Column)) (v : nat) : Prop :=
  exists states dv,
    z !! v = Some (Some states) /\ data !! v = Some dv
    /\ x !! v = Some (if bool_decide (is_Some dv) || impute
                      then Some (sample_x v states dv) else None).

Section Propagation.

Context {Feature Column : Type}.
Variable sample_z : nat -> probs -> list nat.
Variable sample_x : nat -> list nat -> option Column -> Column.
Variable self : TreeCat.t Feature.
Variable data : list (option Column).
Variable impute : bool.
Variables vertex_probs edge_probs : list (list Q).

(** The lists [z] and [x] before [_propagate] enters the subtree [t] from
    [parent]: nothing is set in the subtree, and the parent, which is not part
    of it, has its latent states, all below the capacity. *)
Definition ready (z : list (option (list nat))) (x : list (option Column))
    (parent : option nat) (t : rtree) : Prop :=
  length z = length (TreeCat._neighbors Feature self)
  /\ length x = length (TreeCat._neighbors Feature self)
  /\ (forall u, u ∈ vertices t -> z !! u = Some None /\ x !! u = Some None)
  /\ (forall p, parent = Some p ->
        (p ∉ vertices t)
        /\ exists states,
             z !! p = Some (Some states)
             /\ Forall (fun st => st < TreeCat.capacity Feature self) states).

(** The lists [z'] and [x'] after [_propagate] has left the subtree [t]:
    outside the subtree they are as before; inside, every vertex has its
    latent states, all below the capacity, and its feature value; the root of
    the subtree was sampled given [parent], and every other vertex given its
    parent in the tree. *)
Definition propagated (z : list (option (list nat))) (x : list (option Column))
    (z' : list (option (list nat))) (x' : list (option Column))
    (parent : option nat) (t : rtree) : Prop :=
  length z' = length (TreeCat._neighbors Feature self)
  /\ length x' = length (TreeCat._neighbors Feature self)
  /\ (forall u, u ∉ vertices t -> z' !! u = z !! u /\ x' !! u = x !! u)
  /\ (forall u, u ∈ vertices t ->
        exists states,
          z' !! u = Some (Some states)
          /\ Forall (fun st => st < TreeCat.capacity Feature self) states)
  /\ (forall u, u ∈ vertices t -> emitted sample_x data impute z' x' u)
  /\ sampled sample_z self vertex_probs edge_probs z' parent (root_of t)
  /\ (forall a b, (a, b) ∈ tree_edges t ->
        sampled sample_z self vertex_probs edge_probs z' (Some a) b).

End Propagation.
(** ** The tree that leaf stripping leaves below the centre *)

(** The forest leaf stripping has built so far: every vertex [u] not yet
    popped carries the tree [forest u] of the popped vertices that were
    stripped towards it; in the neighbour sets [neighbors0] of the whole graph
    the neighbours of [u] are the roots below it and the neighbours it still
    has in [neighbors]; and the trees hold every vertex popped or not, once. *)
Definition forest_inv (neighbors0 neighbors : list (gset nat))
    (live visited : list nat) (forest : nat -> rtree) : Prop :=
  (forall u, u ∈ live ->
     exists kids,
       forest u = Node u kids
       /\ Forall (hangs neighbors0 (Some u)) kids
       /\ neighbors0 !! u
          = Some (list_to_set (map root_of kids) ∪ neighbors_of neighbors u))
  /\ concat (map (fun u => vertices (forest u)) live) ≡ₚ live ++ visited.
(** ** A scenario for [model]: the path [0-1-2] with one observed column *)

(** Columns are lists of numbers; the first column is observed at one row. *)
Definition data3 : list (option (list nat)) := [Some [5]; None; None].

(** Samplers for the scenario: the two tables of probabilities above, latent
    state 0 in the single row of the batch, and the observation itself (or an
    empty column) as the value of a feature site. *)
Definition sample_probs3 (V E M : nat) : list (list Q) * list (list Q) :=
  (vertex_probs3, edge_probs3).

Definition sample_z3 (v : nat) (p : probs) : list nat := [0].

Definition sample_x3 (v : nat) (states : list nat) (obs : option (list nat))
  : list nat :=
  default [] obs.

(** ** Edge rows stored with the larger vertex first *)

(** The tree with the edges [0-1] and [0-2], the second stored as the row
    [(2, 0)], and a minibatch of one row for it. *)
Definition descending_edges : list (nat * nat) := [(0, 1); (2, 0)].

Definition z_descending : list (list nat) := [[0]; [1]; [1]].

(** * Properties *)

(** ** The result monad *)

Lemma bind_Ok {A B : Type} (m : res A) (f : A -> res B) (b : B) :
  m ≫= f = Ok b -> exists a, m = Ok a /\ f a = Ok b.
Proof. destruct m; simpl; intros; [eauto | done | done]. Qed.

Lemma assert_Ok (c : bool) (u : unit) : assert c = Ok u -> c = true.
Proof. by destruct c. Qed.

Lemma getitem_Ok {A : Type} (l : list A) (i : nat) (x : A) :
  getitem l i = Ok x <-> l !! i = Some x.
Proof. unfold getitem. destruct (l !! i); split; intros; by simplify_eq. Qed.

Lemma getitem_lookup {A : Type} (l : list A) (i : nat) (x : A) :
  l !! i = Some x -> getitem l i = Ok x.
Proof. apply getitem_Ok. Qed.

(** ** Rational arithmetic of the decay factor *)

Lemma truediv_ok a b : ~ (b == 0)%Q -> truediv a b = Ok (a / b)%Q.
Proof.
  intros H. unfold truediv. destruct (Qeq_bool b 0) eqn:E; [|done].
  apply Qeq_bool_iff in E. done.
Qed.

Lemma truediv_pos a b : (0 < b)%Q -> truediv a b = Ok (a / b)%Q.
Proof.
  intros H. apply truediv_ok. intros E. rewrite E in H. by apply Qlt_irrefl in H.
Qed.

Lemma truediv_zero a b : (b == 0)%Q -> truediv a b = Raise ZeroDivisionError.
Proof.
  intros H. unfold truediv. apply Qeq_bool_iff in H. by rewrite H.
Qed.

Lemma pymin_Qmin a b : (pymin a b == Qmin a b)%Q.
Proof.
  unfold pymin. destruct (Qlt_le_dec b a) as [H|H].
  - symmetry. apply Q.min_r. by apply Qlt_le_weak.
  - symmetry. by apply Q.min_l.
Qed.

Lemma of_int_nonneg n : (0 <= of_int n)%Q.
Proof. unfold of_int. change 0%Q with (inject_Z 0). rewrite <- Zle_Qle. lia. Qed.

Lemma of_int_pos n : n <> 0 -> (0 < of_int n)%Q.
Proof.
  intros. unfold of_int. change 0%Q with (inject_Z 0). rewrite <- Zlt_Qlt. lia.
Qed.

Lemma Qdiv_nonneg a b : (0 <= a -> 0 < b -> 0 <= a / b)%Q.
Proof.
  intros Ha Hb. apply Qle_shift_div_l; [done|]. by rewrite Qmult_0_l.
Qed.

Lemma Qdiv_pos a b : (0 < a -> 0 < b -> 0 < a / b)%Q.
Proof.
  intros Ha Hb. apply Qlt_shift_div_l; [done|]. by rewrite Qmult_0_l.
Qed.

Lemma Qinv_le_1 x : (0 <= x -> 1 / (1 + x) <= 1)%Q.
Proof. intros Hx. apply Qle_shift_div_r; lra. Qed.

(** ** The decay factor of [update] *)

Section Decay.

Import EdgeGuide.

Implicit Types (s : EdgeGuide.t) (z : list (list nat)).

Lemma decay_ok s num_rows z :
  let B := size_last z in
  let n := default B num_rows in
  B <= n -> (0 < _count_stats s)%Q -> n <> 0 ->
  decay s num_rows z = Ok (B, decay_value s B n).
Proof.
  intros B n HB Hc Hn. unfold decay. fold B. fold n.
  clearbody n. clearbody B.
  rewrite bool_decide_eq_true_2 by done. simpl.
  rewrite bool_decide_eq_true_2 by done. simpl.
  pose proof (of_int_nonneg B) as HB0.
  pose proof (of_int_pos n Hn) as Hn0.
  pose proof (Qdiv_nonneg _ _ HB0 Hc).
  pose proof (Qdiv_nonneg _ _ HB0 Hn0).
  repeat (rewrite truediv_pos by lra; simpl).
  reflexivity.
Qed.

Lemma decay_zero_rows s num_rows z :
  let B := size_last z in
  let n := default B num_rows in
  B <= n -> (0 < _count_stats s)%Q -> n = 0 ->
  decay s num_rows z = Raise ZeroDivisionError.
Proof.
  intros B n HB Hc Hn. unfold decay. fold B. fold n.
  clearbody n. clearbody B.
  rewrite bool_decide_eq_true_2 by done. simpl.
  rewrite bool_decide_eq_true_2 by done. simpl.
  pose proof (of_int_nonneg B) as HB0.
  pose proof (Qdiv_nonneg _ _ HB0 Hc).
  rewrite Hn, (truediv_zero _ (of_int 0)) by reflexivity.
  repeat (rewrite truediv_pos by lra; simpl).
  reflexivity.
Qed.

Lemma decay_inv s num_rows z B d :
  decay s num_rows z = Ok (B, d) ->
  B = size_last z /\ B <= default B num_rows /\ default B num_rows <> 0
  /\ (0 < _count_stats s)%Q
  /\ d = decay_value s B (default B num_rows).
Proof.
  intros H. pose proof H as H'. unfold decay in H'. cbv zeta in H'.
  apply bind_Ok in H' as (? & HB%assert_Ok%bool_decide_eq_true & H').
  apply bind_Ok in H' as (? & Hc%assert_Ok%bool_decide_eq_true & _).
  destruct (decide (default (size_last z) num_rows = 0)) as [Hn|Hn].
  { rewrite decay_zero_rows in H by done. done. }
  rewrite decay_ok in H by done. by simplify_eq.
Qed.

Lemma decay_value_bounds s B n :
  (0 < annealing_rate s)%Q -> (0 < _count_stats s)%Q -> n <> 0 ->
  (0 < decay_value s B n /\ decay_value s B n <= 1)%Q.
Proof.
  intros Ha Hc Hn.
  pose proof (of_int_nonneg B) as HB0.
  pose proof (of_int_pos n Hn) as Hn0.
  pose proof (Qdiv_nonneg _ _ HB0 Hc) as H1.
  pose proof (Qdiv_nonneg _ _ HB0 Hn0) as H2.
  assert (0 < annealing (annealing_rate s) (_count_stats s) B)%Q as Hann
    by (apply Qdiv_pos; lra).
  assert (0 < exponential_smoothing B n)%Q as Hsm by (apply Qdiv_pos; lra).
  assert (exponential_smoothing B n <= 1)%Q as Hsm1 by (by apply Qinv_le_1).
  unfold decay_value, pymin. destruct (Qlt_le_dec _ _); split; lra.
Qed.

End Decay.

(** ** C2 and C7: the decay factor and the positivity of [count_stats] *)

Lemma update_count_stats s num_rows z B d :
  EdgeGuide.decay s num_rows z = Ok (B, d) ->
  EdgeGuide._count_stats (fst (EdgeGuide.update s num_rows z))
  = ((EdgeGuide._count_stats s + of_int B) * d)%Q
  /\ EdgeGuide.annealing_rate (fst (EdgeGuide.update s num_rows z))
     = EdgeGuide.annealing_rate s.
Proof.
  intros H. unfold EdgeGuide.update. rewrite H. cbv zeta.
  repeat case_match; simpl; done.
Qed.

Lemma update_decay_raise s num_rows z e :
  EdgeGuide.decay s num_rows z = Raise e ->
  EdgeGuide.update s num_rows z = (s, Raise e).
Proof. intros H. unfold EdgeGuide.update. by rewrite H. Qed.

(** C2. For a call of [update] with [batch_size <= num_rows] ([num_rows]
    defaulting to the batch size) and [count_stats > 0], the decay factor is
    [min (annealing, exponential_smoothing)] with the two terms of the spec,
    and [count_stats] is multiplied by it; this is so whenever the quotient
    [batch_size / num_rows] is defined, and for [num_rows = 0] (an empty
    batch) the call raises [ZeroDivisionError] and changes nothing. *)
Theorem update_decay_is_min s num_rows z :
  let B := size_last z in
  let n := default B num_rows in
  B <= n -> (0 < EdgeGuide._count_stats s)%Q ->
  (n <> 0 ->
   exists d,
     EdgeGuide.decay s num_rows z = Ok (B, d)
     /\ (d == Qmin (annealing (EdgeGuide.annealing_rate s)
                              (EdgeGuide._count_stats s) B)
                   (exponential_smoothing B n))%Q
     /\ EdgeGuide._count_stats (fst (EdgeGuide.update s num_rows z))
        = ((EdgeGuide._count_stats s + of_int B) * d)%Q)
  /\ (n = 0 -> EdgeGuide.update s num_rows z = (s, Raise ZeroDivisionError)).
Proof.
  intros B n HB Hc. split.
  - intros Hn. exists (decay_value s B n).
    pose proof (decay_ok s num_rows z HB Hc Hn) as Hd.
    split; [done|]. split; [apply pymin_Qmin|].
    by apply update_count_stats in Hd as [? _].
  - intros Hn. apply update_decay_raise. by apply decay_zero_rows.
Qed.

Lemma guide_init_inv capacity edges annealing_rate s0 :
  EdgeGuide.__init__ capacity edges annealing_rate = Ok s0 ->
  (0 < annealing_rate)%Q
  /\ capacity <> 0
  /\ s0 = EdgeGuide.mk capacity edges annealing_rate
            (make_complete_graph (length edges + 1)) (1 # 2)
            ((1 # 2) / of_int capacity)%Q 1
            (full (length edges + 1) capacity (1 / of_int capacity)%Q)
            (full ((length edges + 1) * (length edges + 1 - 1) / 2)
                  (capacity * capacity) (1 / of_int (capacity ^ 2))%Q).
Proof.
  unfold EdgeGuide.__init__. intros H.
  apply bind_Ok in H as (? & Ha%assert_Ok%bool_decide_eq_true & H).
  split; [done|].
  destruct (decide (capacity = 0)) as [->|HM].
  { by rewrite (truediv_zero _ (of_int 0)) in H. }
  split; [done|].
  assert (capacity ^ 2 <> 0) by (by apply Nat.pow_nonzero).
  rewrite !truediv_pos in H by (by apply of_int_pos).
  simpl in H. by simplify_eq.
Qed.

Lemma reachable_positive s0 s :
  (0 < EdgeGuide.annealing_rate s0)%Q -> (0 < EdgeGuide._count_stats s0)%Q ->
  reachable s0 s ->
  (0 < EdgeGuide.annealing_rate s)%Q /\ (0 < EdgeGuide._count_stats s)%Q.
Proof.
  intros Ha Hc. induction 1 as [|s num_rows z _ [IHa IHc]]; [done|].
  destruct (EdgeGuide.decay s num_rows z) as [[B d]| |] eqn:Hd.
  - pose proof (update_count_stats _ _ _ _ _ Hd) as [-> ->].
    apply decay_inv in Hd as (_ & _ & Hn & _ & ->).
    pose proof (decay_value_bounds s B _ IHa IHc Hn) as [Hd0 _].
    split; [done|]. apply Qmult_lt_0_compat; [|done].
    pose proof (of_int_nonneg B). lra.
  - by rewrite (update_decay_raise _ _ _ _ Hd).
  - unfold EdgeGuide.update. by rewrite Hd.
Qed.

(** C7. From the state [__init__] builds (which asserts [annealing_rate > 0])
    and through any sequence of [update] calls, [count_stats] stays strictly
    positive after every call, and a call with [batch_size <= num_rows]
    computes a decay factor in the half-open interval (0, 1]. *)
Theorem count_stats_positive_decay_in_unit capacity edges annealing_rate s0 s :
  EdgeGuide.__init__ capacity edges annealing_rate = Ok s0 ->
  reachable s0 s ->
  (0 < EdgeGuide._count_stats s)%Q
  /\ forall num_rows z,
       let B := size_last z in
       let n := default B num_rows in
       B <= n -> n <> 0 ->
       exists d, EdgeGuide.decay s num_rows z = Ok (B, d)
                 /\ (0 < d)%Q /\ (d <= 1)%Q.
Proof.
  intros Hinit Hreach.
  apply guide_init_inv in Hinit as (Ha & _ & ->).
  apply reachable_positive in Hreach as [Ha' Hc']; [|done|done].
  split; [done|]. intros num_rows z B n HB Hn.
  exists (decay_value s B n). split; [by apply decay_ok|].
  by apply decay_value_bounds.
Qed.

Lemma guide3_init : EdgeGuide.__init__ 2 path3 (1 # 100) = Ok guide3.
Proof. vm_compute. reflexivity. Qed.

Lemma update_decay_is_min_witness :
  exists d, EdgeGuide.decay guide3 (Some 1) z3 = Ok (1, d) /\ (d == 1 # 2)%Q.
Proof.
  destruct (update_decay_is_min guide3 (Some 1) z3) as [H _].
  - simpl. lia.
  - reflexivity.
  - destruct H as (d & Hd & Hmin & _); [simpl; lia|].
    exists d. split; [exact Hd|]. rewrite Hmin. vm_compute. reflexivity.
Defined.

Lemma count_stats_positive_decay_in_unit_witness :
  Qlt 0 (EdgeGuide._count_stats (fst (EdgeGuide.update guide3 (Some 1) z3))).
Proof.
  apply (count_stats_positive_decay_in_unit 2 path3 (1 # 100) guide3).
  - vm_compute. reflexivity.
  - apply reachable_update, reachable_init.
Defined.

(** ** C9: precondition violations *)

Lemma assert_false_bind {B : Type} (c : bool) (f : unit -> res B) :
  c = false -> assert c ≫= f = Raise AssertionError.
Proof. by intros ->. Qed.

Lemma assert_bind_cases {B : Type} (c : bool) (f : unit -> res B) :
  f tt = Raise AssertionError -> assert c ≫= f = Raise AssertionError.
Proof. by destruct c. Qed.

Lemma treecat_init_capacity {Feature : Type} (features : list Feature)
    capacity edges annealing_rate :
  (capacity <= 1)%Z ->
  TreeCat.__init__ features capacity edges annealing_rate = Raise AssertionError
  \/ (features = [] /\ edges = None
      /\ TreeCat.__init__ features capacity edges annealing_rate
         = Raise RuntimeError).
Proof.
  intros Hc. unfold TreeCat.__init__.
  destruct edges as [e|]; simpl.
  - left. apply assert_false_bind, bool_decide_eq_false_2. lia.
  - unfold TreeCat.default_edges. case_decide as HE; simpl.
    + right. destruct features; [done|]. simpl in HE. lia.
    + left. apply assert_false_bind, bool_decide_eq_false_2. lia.
Qed.

Lemma treecat_init_shape {Feature : Type} (features : list Feature)
    capacity edges annealing_rate :
  shape edges <> ((Z.of_nat (length features) - 1)%Z, 2%Z) ->
  TreeCat.__init__ features capacity (Some edges) annealing_rate
  = Raise AssertionError.
Proof.
  intros Hs. unfold TreeCat.__init__. simpl.
  apply assert_bind_cases, assert_false_bind. by apply bool_decide_eq_false_2.
Qed.

Lemma model_length_mismatch {Feature Column : Type} size0 sample_probs
    sample_z sample_x (self : TreeCat.t Feature)
    (data : list (option Column)) num_rows impute :
  length data <> length (TreeCat.features Feature self) ->
  TreeCat.model size0 sample_probs sample_z sample_x self data num_rows impute
  = Raise AssertionError.
Proof.
  intros H. unfold TreeCat.model, TreeCat.model_batch.
  rewrite assert_false_bind; [done|]. by apply bool_decide_eq_false_2.
Qed.

Lemma model_all_missing {Feature Column : Type} size0 sample_probs
    sample_z sample_x (self : TreeCat.t Feature)
    (data : list (option Column)) num_rows impute :
  Forall (fun column => column = None) data ->
  TreeCat.model size0 sample_probs sample_z sample_x self data num_rows impute
  = Raise AssertionError.
Proof.
  intros H. unfold TreeCat.model, TreeCat.model_batch.
  rewrite assert_bind_cases; [done|].
  apply assert_false_bind, negb_false_iff, forallb_forall.
  intros c Hin. apply bool_decide_eq_true.
  rewrite Forall_forall in H. apply H. by apply list_elem_of_In.
Qed.

Lemma update_batch_too_large s n z :
  n < size_last z ->
  EdgeGuide.update s (Some n) z = (s, Raise AssertionError).
Proof.
  intros H. apply update_decay_raise. unfold EdgeGuide.decay. simpl.
  apply assert_false_bind, bool_decide_eq_false_2. lia.
Qed.

(** C9. Each listed violation raises before anything is produced:
    [TreeCat.__init__] with [capacity <= 1] fails at [assert capacity > 1]
    (with no features and no edges given, [arange] has already refused the
    bound [-1]); an edge tensor whose shape is not [(V-1, 2)] fails an
    assertion; [model] with a data list of another length than the feature
    list, or with every column missing, fails an assertion; [update] with
    [batch_size > num_rows] fails its assertion and returns the object as it
    was. *)
Theorem precondition_violations_raise :
  (forall (Feature : Type) (features : list Feature) capacity edges annealing_rate,
     (capacity <= 1)%Z ->
     TreeCat.__init__ features capacity edges annealing_rate = Raise AssertionError
     \/ (features = [] /\ edges = None
         /\ TreeCat.__init__ features capacity edges annealing_rate
            = Raise RuntimeError))
  /\ (forall (Feature : Type) (features : list Feature) capacity edges annealing_rate,
        shape edges <> ((Z.of_nat (length features) - 1)%Z, 2%Z) ->
        TreeCat.__init__ features capacity (Some edges) annealing_rate
        = Raise AssertionError)
  /\ (forall (Feature Column : Type) size0 sample_probs sample_z sample_x
             (self : TreeCat.t Feature) (data : list (option Column))
             num_rows impute,
        length data <> length (TreeCat.features Feature self)
        \/ Forall (fun column => column = None) data ->
        TreeCat.model size0 sample_probs sample_z sample_x self data num_rows impute
        = Raise AssertionError)
  /\ (forall s n z,
        n < size_last z ->
        EdgeGuide.update s (Some n) z = (s, Raise AssertionError)).
Proof.
  split; [|split; [|split]].
  - intros. by apply treecat_init_capacity.
  - intros. by apply treecat_init_shape.
  - intros ?????????? [H|H].
    + by apply model_length_mismatch.
    + by apply model_all_missing.
  - intros. by apply update_batch_too_large.
Qed.

Lemma precondition_violations_raise_witness :
  TreeCat.__init__ [tt; tt; tt] 1 None (1 # 100) = Raise AssertionError
  /\ TreeCat.__init__ [tt; tt; tt] 2
       (Some {| shape := (3%Z, 2%Z); rows := [[0; 1]; [1; 2]; [0; 2]] |})
       (1 # 100) = Raise AssertionError
  /\ EdgeGuide.update guide3 (Some 0) z3 = (guide3, Raise AssertionError).
Proof.
  destruct precondition_violations_raise as (H1 & H2 & _ & H4).
  split; [|split].
  - destruct (H1 unit [tt; tt; tt] 1%Z None (1 # 100)%Q) as [H|(H & _)];
      [lia | exact H | discriminate H].
  - apply H2. simpl. intros [=].
  - apply H4. simpl. lia.
Defined.

(** ** The grid of the complete graph *)

Lemma complete_pairs_S V :
  complete_pairs (S V) = complete_pairs V ++ map (fun v1 => (v1, V)) (seq 0 V).
Proof.
  unfold complete_pairs. rewrite seq_S, flat_map_app. simpl.
  by rewrite app_nil_r.
Qed.

Lemma complete_pairs_length_double V :
  2 * length (complete_pairs V) = V * (V - 1).
Proof.
  induction V as [|V IH]; [done|].
  rewrite complete_pairs_S, length_app, length_map, length_seq.
  destruct V; simpl in *; lia.
Qed.

Lemma complete_pairs_length V : length (complete_pairs V) = V * (V - 1) / 2.
Proof.
  rewrite <- complete_pairs_length_double.
  rewrite Nat.mul_comm, Nat.div_mul; done.
Qed.

Lemma pair_index_length v1 v2 :
  pair_index v1 v2 = length (complete_pairs v2) + v1.
Proof. unfold pair_index. rewrite complete_pairs_length. lia. Qed.

Lemma complete_pairs_lookup V v1 v2 :
  v1 < v2 -> v2 < V -> complete_pairs V !! pair_index v1 v2 = Some (v1, v2).
Proof.
  rewrite pair_index_length. induction V as [|V IH]; [lia|]. intros H1 H2.
  rewrite complete_pairs_S. destruct (decide (v2 = V)) as [->|].
  - rewrite lookup_app_r by lia.
    replace (length (complete_pairs V) + v1 - length (complete_pairs V)) with v1 by lia.
    rewrite list_lookup_fmap, lookup_seq_lt by done. done.
  - apply lookup_app_l_Some, IH; lia.
Qed.

Lemma complete_pairs_lookup_inv V k v1 v2 :
  complete_pairs V !! k = Some (v1, v2) ->
  v1 < v2 /\ v2 < V /\ k = pair_index v1 v2.
Proof.
  rewrite pair_index_length. revert k. induction V as [|V IH]; intros k; [done|].
  rewrite complete_pairs_S. intros [H|[Hk H]]%lookup_app_Some.
  - apply IH in H. lia.
  - rewrite list_lookup_fmap in H.
    destruct (seq 0 V !! (k - length (complete_pairs V))) as [i|] eqn:Hi; [|done].
    apply lookup_seq in Hi as [-> Hi]. simpl in H. simplify_eq. lia.
Qed.


(** ** Rows and tables *)

Lemma of_int_S n : (of_int (S n) == of_int n + 1)%Q.
Proof.
  unfold of_int. rewrite Nat2Z.inj_succ, <- Z.add_1_r, inject_Z_plus. reflexivity.
Qed.

Lemma of_int_add n m : (of_int (n + m) == of_int n + of_int m)%Q.
Proof. unfold of_int. by rewrite Nat2Z.inj_add, inject_Z_plus. Qed.

Lemma occurrences_cons m i l :
  occurrences m (i :: l) = (if decide (i = m) then 1 else 0) + occurrences m l.
Proof.
  unfold occurrences. rewrite filter_cons. by case_decide.
Qed.

Lemma Qsum_insert (row : list Q) i x y :
  row !! i = Some x -> (Qsum (<[i := y]> row) == Qsum row - x + y)%Q.
Proof.
  revert i. induction row as [|a row IH]; intros [|i] H; simplify_eq/=.
  - ring.
  - rewrite (IH _ H). ring.
Qed.

Lemma Qsum_scale c (row : list Q) :
  (Qsum (map (fun x => x * c) row) == Qsum row * c)%Q.
Proof.
  induction row as [|a row IH]; simpl; [ring|]. rewrite IH. ring.
Qed.

Lemma Qsum_replicate n x : (Qsum (replicate n x) == of_int n * x)%Q.
Proof.
  induction n as [|n IH]; simpl.
  - unfold of_int. simpl. ring.
  - rewrite IH, of_int_S. ring.
Qed.

Lemma scatter_add_row_spec (idx : list nat) (row : list Q) :
  Forall (fun i => i < length row) idx ->
  exists row',
    scatter_add_row row idx = Ok row'
    /\ length row' = length row
    /\ (Qsum row' == Qsum row + of_int (length idx))%Q
    /\ forall j, (nth j row' 0 == nth j row 0 + of_int (occurrences j idx))%Q.
Proof.
  revert row. induction idx as [|i idx IH]; intros row Hidx.
  - exists row. simpl. repeat split; try done.
    + unfold of_int. simpl. ring.
    + intros j. unfold occurrences, of_int. simpl. ring.
  - apply Forall_cons in Hidx as [Hi Hidx]. simpl.
    destruct (lookup_lt_is_Some_2 row i Hi) as [x Hx]. rewrite Hx.
    destruct (IH (<[i := (x + 1)%Q]> row)) as (row' & Hrow' & Hlen & Hsum & Hnth).
    { by rewrite length_insert. }
    exists row'. rewrite length_insert in Hlen. repeat split; try done.
    + rewrite Hsum, (Qsum_insert _ _ _ _ Hx), of_int_S. ring.
    + intros j. rewrite Hnth, occurrences_cons, of_int_add.
      rewrite !nth_lookup. destruct (decide (i = j)) as [->|Hne].
      * rewrite list_lookup_insert_eq, Hx by done. simpl.
        unfold of_int. simpl. ring.
      * rewrite list_lookup_insert_ne by done. unfold of_int. simpl. ring.
Qed.

Lemma scatter_add_spec (index : list (list nat)) (t : list (list Q)) :
  Forall2 (fun row idx => Forall (fun i => i < length row) idx) t index ->
  exists t',
    scatter_add_ t index = Ok t'
    /\ Forall2 scattered t' (zip t index).
Proof.
  induction 1 as [|row idx t index Hrow _ IH].
  - exists []. split; [done|]. constructor.
  - destruct (scatter_add_row_spec idx row Hrow) as (row' & Hr & ?).
    destruct IH as (t' & Ht & ?).
    exists (row' :: t'). simpl. rewrite Hr. simpl. rewrite Ht. simpl.
    split; [done|]. by constructor.
Qed.

Lemma traverse_getitem {A : Type} (l : list A) (idxs : list nat) :
  Forall (fun i => i < length l) idxs ->
  exists out,
    traverse (getitem l) idxs = Ok out
    /\ Forall2 (fun x i => l !! i = Some x) out idxs.
Proof.
  induction 1 as [|i idxs Hi _ (out & Hout & IH)].
  - by exists [].
  - destruct (lookup_lt_is_Some_2 l i Hi) as [x Hx].
    exists (x :: out). simpl. rewrite (getitem_lookup _ _ _ Hx). simpl.
    rewrite Hout. simpl. split; [done|]. by constructor.
Qed.

(** ** C1 and C8: the effect of [update] *)

Lemma cell_scale d (t : list (list Q)) i j :
  (cell (scale d t) i j == cell t i j * d)%Q.
Proof.
  unfold cell, scale. rewrite !nth_lookup, list_lookup_fmap.
  destruct (t !! i) as [row|]; simpl.
  - rewrite list_lookup_fmap. destruct (row !! j); simpl; ring.
  - ring.
Qed.

Lemma scale_shape d (t : list (list Q)) m :
  Forall (fun row => length row = m) t ->
  Forall (fun row => length row = m) (scale d t).
Proof.
  unfold scale. intros H. apply Forall_fmap. eapply Forall_impl; [done|].
  intros row. simpl. by rewrite length_map.
Qed.

Lemma pair_codes_row M (r1 r2 : list nat) :
  zip_with Nat.add (map (fun s => M * s) r1) r2
  = zip_with (pair_code M) r1 r2.
Proof.
  revert r2. induction r1 as [|a r1 IH]; intros [|b r2]; simpl; try done.
  f_equal; [unfold pair_code; lia | apply IH].
Qed.

Lemma latent_matrix_lookup V M B z v row :
  latent_matrix V M B z -> z !! v = Some row ->
  length row = B /\ Forall (fun st => st < M) row.
Proof.
  intros [_ H] Hv. rewrite Forall_lookup in H. by apply (H v).
Qed.

Lemma pair_codes_spec V M B z :
  latent_matrix V M B z ->
  exists zz,
    pair_codes M z (fst (make_complete_graph V)) (snd (make_complete_graph V))
    = Ok zz
    /\ Forall2 (fun codes p =>
         codes = zip_with (pair_code M) (nth p.1 z []) (nth p.2 z [])
         /\ Forall (fun c => c < M * M) codes)
       zz (complete_pairs V).
Proof.
  intros Hz. pose proof Hz as [HV Hrows]. unfold pair_codes, make_complete_graph.
  simpl.
  destruct (traverse_getitem (map (map (fun s => M * s)) z)
              (map fst (complete_pairs V))) as (a & -> & Ha).
  { apply Forall_fmap, Forall_forall. intros [v1 v2] Hin.
    apply list_elem_of_lookup in Hin as [k Hk].
    apply complete_pairs_lookup_inv in Hk. rewrite length_map. simpl. lia. }
  destruct (traverse_getitem z (map snd (complete_pairs V))) as (b & -> & Hb).
  { apply Forall_fmap, Forall_forall. intros [v1 v2] Hin.
    apply list_elem_of_lookup in Hin as [k Hk].
    apply complete_pairs_lookup_inv in Hk. simpl. lia. }
  simpl. eexists. split; [done|].
  apply Forall2_fmap_r in Ha, Hb.
  apply Forall2_same_length_lookup. split.
  { rewrite length_zip_with.
    apply Forall2_length in Ha, Hb. lia. }
  intros k codes [v1 v2] Hk Hp.
  apply lookup_zip_with_Some in Hk as (ra & rb & -> & Hra & Hrb).
  pose proof (Forall2_lookup_lr _ _ _ _ _ _ Ha Hra Hp) as Ha'.
  pose proof (Forall2_lookup_lr _ _ _ _ _ _ Hb Hrb Hp) as Hb'.
  simpl in Ha', Hb'. rewrite list_lookup_fmap in Ha'.
  destruct (z !! v1) as [r1|] eqn:Hr1; [|done]. simpl in Ha'. simplify_eq.
  simpl. rewrite !nth_lookup, Hr1, Hb'. simpl. rewrite pair_codes_row. split; [done|].
  destruct (latent_matrix_lookup _ _ _ _ _ _ Hz Hr1) as [_ H1].
  destruct (latent_matrix_lookup _ _ _ _ _ _ Hz Hb') as [_ H2].
  apply Forall_lookup. intros i c Hc.
  apply lookup_zip_with_Some in Hc as (x & y & -> & Hx & Hy).
  rewrite Forall_lookup in H1. rewrite Forall_lookup in H2.
  specialize (H1 _ _ Hx). specialize (H2 _ _ Hy). unfold pair_code. simpl in *. nia.
Qed.

Lemma scattered_shape t' t index m :
  Forall2 scattered t' (zip t index) -> length index = length t ->
  Forall (fun row => length row = m) t ->
  length t' = length t /\ Forall (fun row => length row = m) t'.
Proof.
  intros H Hlen Hm. split.
  { apply Forall2_length in H. rewrite length_zip in H. lia. }
  apply Forall_lookup. intros i row' Hrow'.
  destruct (Forall2_lookup_l _ _ _ _ _ H Hrow') as ([row idx] & Hp & Hl & _).
  apply lookup_zip_with_Some in Hp as (? & ? & ? & Hrow & _). simplify_eq.
  rewrite Forall_lookup in Hm. simpl in Hl. rewrite Hl. by apply (Hm i).
Qed.

Lemma update_run s num_rows z d :
  let V := length (EdgeGuide.edges s) + 1 in
  let M := EdgeGuide.capacity s in
  let B := size_last z in
  shaped s -> latent_matrix V M B z ->
  EdgeGuide.decay s num_rows z = Ok (B, d) ->
  exists vs1 zz cs1,
    EdgeGuide.update s num_rows z
    = (EdgeGuide.mk (EdgeGuide.capacity s) (EdgeGuide.edges s)
         (EdgeGuide.annealing_rate s) (EdgeGuide._grid s)
         (EdgeGuide._vertex_prior s) (EdgeGuide._edge_prior s)
         ((EdgeGuide._count_stats s + of_int B) * d)%Q
         (scale d vs1) (scale d cs1),
       EdgeGuide.log_metrics
         (EdgeGuide.mk (EdgeGuide.capacity s) (EdgeGuide.edges s)
            (EdgeGuide.annealing_rate s) (EdgeGuide._grid s)
            (EdgeGuide._vertex_prior s) (EdgeGuide._edge_prior s)
            ((EdgeGuide._count_stats s + of_int B) * d)%Q
            (scale d vs1) (scale d cs1)))
    /\ Forall2 scattered vs1 (zip (EdgeGuide._vertex_stats s) z)
    /\ Forall2 (fun codes p =>
         codes = zip_with (pair_code M) (nth p.1 z []) (nth p.2 z [])
         /\ Forall (fun c => c < M * M) codes)
       zz (complete_pairs V)
    /\ Forall2 scattered cs1 (zip (EdgeGuide._complete_stats s) zz)
    /\ shaped (fst (EdgeGuide.update s num_rows z)).
Proof.
  intros V M B (Hgrid & Hvp & Hep & HvsV & HvsM & HcsK & HcsM) Hz Hd.
  destruct (scatter_add_spec z (EdgeGuide._vertex_stats s)) as (vs1 & Hvs1 & Hvs1').
  { apply Forall2_same_length_lookup. destruct Hz as [HzV Hzrows].
    split; [lia|]. intros i row idx Hrow Hidx.
    rewrite Forall_lookup in HvsM. rewrite (HvsM _ _ Hrow).
    rewrite Forall_lookup in Hzrows. by apply (Hzrows _ _ Hidx). }
  destruct (pair_codes_spec V M B z Hz) as (zz & Hzz & Hzz').
  destruct (scatter_add_spec zz (EdgeGuide._complete_stats s)) as (cs1 & Hcs1 & Hcs1').
  { apply Forall2_same_length_lookup. split.
    { apply Forall2_length in Hzz'. rewrite complete_pairs_length in Hzz'.
      fold V in HcsK. lia. }
    intros i row idx Hrow Hidx.
    rewrite Forall_lookup in HcsM. rewrite (HcsM _ _ Hrow).
    destruct (Forall2_lookup_l _ _ _ _ _ Hzz' Hidx) as (p & _ & _ & Hc). done. }
  exists vs1, zz, cs1.
  assert (EdgeGuide.update s num_rows z
          = (EdgeGuide.mk (EdgeGuide.capacity s) (EdgeGuide.edges s)
               (EdgeGuide.annealing_rate s) (EdgeGuide._grid s)
               (EdgeGuide._vertex_prior s) (EdgeGuide._edge_prior s)
               ((EdgeGuide._count_stats s + of_int B) * d)%Q
               (scale d vs1) (scale d cs1),
             EdgeGuide.log_metrics
               (EdgeGuide.mk (EdgeGuide.capacity s) (EdgeGuide.edges s)
                  (EdgeGuide.annealing_rate s) (EdgeGuide._grid s)
                  (EdgeGuide._vertex_prior s) (EdgeGuide._edge_prior s)
                  ((EdgeGuide._count_stats s + of_int B) * d)%Q
                  (scale d vs1) (scale d cs1)))) as Hup.
  { unfold EdgeGuide.update. rewrite Hd. cbv zeta. simpl.
    rewrite Hvs1. simpl. rewrite Hgrid. fold V. fold M. rewrite Hzz, Hcs1.
    unfold EdgeGuide.set_complete_stats, EdgeGuide.set_vertex_stats,
      EdgeGuide.set_count_stats. simpl.
    rewrite Hgrid. reflexivity. }
  split; [exact Hup|]. split; [done|]. split; [done|]. split; [done|].
  rewrite Hup. unfold shaped.
  cbn [fst EdgeGuide.edges EdgeGuide.capacity EdgeGuide._grid
       EdgeGuide._vertex_prior EdgeGuide._edge_prior
       EdgeGuide._vertex_stats EdgeGuide._complete_stats].
  destruct Hz as [HzV Hzrows].
  destruct (scattered_shape _ _ _ M Hvs1') as [Hl1 Hr1]; [lia|done|].
  destruct (scattered_shape _ _ _ (M * M) Hcs1') as [Hl2 Hr2]; [|done|].
  { apply Forall2_length in Hzz'. rewrite complete_pairs_length in Hzz'.
    by rewrite Hzz', HcsK. }
  split; [done|]. split; [done|]. split; [done|].
  split; [unfold scale; rewrite length_map; etrans; [exact Hl1|exact HvsV]|].
  split; [by apply scale_shape|].
  split; [unfold scale; rewrite length_map; etrans; [exact Hl2|exact HcsK]|].
  by apply scale_shape.
Qed.

Lemma scattered_cell t' t index i j row idx :
  Forall2 scattered t' (zip t index) ->
  t !! i = Some row -> index !! i = Some idx ->
  (cell t' i j == cell t i j + of_int (occurrences j idx))%Q.
Proof.
  intros H Hrow Hidx.
  assert (zip t index !! i = Some (row, idx)) as Hzip.
  { unfold zip. apply lookup_zip_with_Some. eauto. }
  destruct (Forall2_lookup_r _ _ _ _ _ H Hzip) as (row' & Hrow' & _ & _ & Hnth).
  unfold cell. rewrite (nth_lookup t'), (nth_lookup t), Hrow', Hrow. apply Hnth.
Qed.

Lemma size_last_latent V M B z :
  latent_matrix (V + 1) M B z -> size_last z = B.
Proof.
  intros [HV Hrows]. destruct z as [|row z]; [simpl in HV; lia|].
  apply Forall_cons in Hrows as [[? _] _]. done.
Qed.

(** ** The logging block of [update] *)

Lemma traverse_Ok {A B : Type} (f : A -> res B) (l : list A) :
  Forall (fun a => exists b, f a = Ok b) l ->
  exists bs, traverse f l = Ok bs /\ length bs = length l.
Proof.
  induction 1 as [|a l [b Hb] _ (bs & IH & Hlen)]; simpl; [by exists []|].
  rewrite Hb, IH. simpl. exists (b :: bs). split; [done|]. simpl. by rewrite Hlen.
Qed.

Lemma traverse_Raise {A B : Type} (f : A -> res B) (l : list A) e :
  Forall (fun a => (exists b, f a = Ok b) \/ f a = Raise e) l ->
  Exists (fun a => f a = Raise e) l ->
  traverse f l = Raise e.
Proof.
  induction 1 as [|a l Ha _ IH]; intros Hex; [by apply Exists_nil in Hex|].
  simpl. destruct Ha as [[b Hb]|Ha]; [|by rewrite Ha].
  rewrite Hb. simpl. apply Exists_cons in Hex as [Hex|Hex]; [congruence|].
  by rewrite (IH Hex).
Qed.

Lemma getitem_cases {A : Type} (l : list A) (i : nat) :
  (i < length l /\ exists x, getitem l i = Ok x)
  \/ (length l <= i /\ getitem l i = Raise IndexError).
Proof.
  unfold getitem. destruct (l !! i) as [x|] eqn:H.
  - left. split; [by apply lookup_lt_Some in H|eauto].
  - right. split; [by apply lookup_ge_None in H|done].
Qed.

(** The logging block returns when it can read every edge row, and raises
    [IndexError] when it cannot. *)
Lemma log_metrics_outcome s :
  shaped s ->
  EdgeGuide.log_metrics s
  = if decide (readable_edges s) then Ok tt else Raise IndexError.
Proof.
  intros (_ & _ & _ & HvsV & _ & HcsK & _).
  set (V := length (EdgeGuide.edges s) + 1) in *.
  set (K := V * (V - 1) / 2) in *.
  unfold EdgeGuide.log_metrics, EdgeGuide.get_posterior.
  set (pick := fun e : nat * nat =>
         h1 ← getitem (map EdgeGuide.Entropy
                          (map (EdgeGuide.posterior_mean (EdgeGuide._vertex_prior s))
                               (EdgeGuide._vertex_stats s))) e.1;
         h2 ← getitem (map EdgeGuide.Entropy
                          (map (EdgeGuide.posterior_mean (EdgeGuide._vertex_prior s))
                               (EdgeGuide._vertex_stats s))) e.2;
         Ok (h1, h2)).
  assert (forall e : nat * nat,
            (e.1 < V /\ e.2 < V /\ exists h, pick e = Ok h)
            \/ (~ (e.1 < V /\ e.2 < V) /\ pick e = Raise IndexError)) as Hpick.
  { intros e. unfold pick.
    destruct (getitem_cases
                (map EdgeGuide.Entropy
                   (map (EdgeGuide.posterior_mean (EdgeGuide._vertex_prior s))
                      (EdgeGuide._vertex_stats s))) e.1) as [[H1 [h1 ->]]|[H1 ->]];
      rewrite !length_map, HvsV in H1; [|right; split; [lia|done]].
    destruct (getitem_cases
                (map EdgeGuide.Entropy
                   (map (EdgeGuide.posterior_mean (EdgeGuide._vertex_prior s))
                      (EdgeGuide._vertex_stats s))) e.2) as [[H2 [h2 ->]]|[H2 ->]];
      rewrite !length_map, HvsV in H2; [|right; split; [lia|done]].
    left. split; [done|]. split; [done|]. simpl. eauto. }
  assert (forall k,
            (k < K /\ exists row, getitem (EdgeGuide._complete_stats s) k = Ok row)
            \/ (~ k < K /\ getitem (EdgeGuide._complete_stats s) k = Raise IndexError))
    as Hrow.
  { intros k. destruct (getitem_cases (EdgeGuide._complete_stats s) k)
      as [[H Hx]|[H Hx]]; rewrite HcsK in H; [left|right]; (split; [lia|done]). }
  destruct (decide (readable_edges s)) as [Hread|Hread].
  - unfold readable_edges in Hread. fold V K in Hread.
    destruct (traverse_Ok (getitem (EdgeGuide._complete_stats s))
                (map (fun e => pair_index e.1 e.2) (EdgeGuide.edges s)))
      as (edge_stats & -> & _).
    { apply Forall_fmap. eapply Forall_impl; [exact Hread|].
      intros e (Hk & _). simpl. destruct (Hrow (pair_index e.1 e.2)) as [[_ ?]|[? _]]; done. }
    cbn [mbind res_bind].
    destruct (traverse_Ok pick (EdgeGuide.edges s)) as (mi & Hmi & _).
    { eapply Forall_impl; [exact Hread|].
      intros e (_ & H1 & H2). destruct (Hpick e) as [(_ & _ & ?)|[? _]]; [done|].
      tauto. }
    fold pick. by rewrite Hmi.
  - unfold readable_edges in Hread. fold V K in Hread.
    apply not_Forall_Exists in Hread; [|apply _].
    destruct (decide (Forall (fun e : nat * nat => pair_index e.1 e.2 < K)
                        (EdgeGuide.edges s))) as [Hks|Hks].
    + destruct (traverse_Ok (getitem (EdgeGuide._complete_stats s))
                  (map (fun e => pair_index e.1 e.2) (EdgeGuide.edges s)))
        as (edge_stats & -> & _).
      { apply Forall_fmap. eapply Forall_impl; [exact Hks|].
        intros e Hk. simpl.
        destruct (Hrow (pair_index e.1 e.2)) as [[_ ?]|[? _]]; done. }
      cbn [mbind res_bind]. fold pick.
      rewrite (traverse_Raise pick (EdgeGuide.edges s) IndexError); [done| |].
      * apply Forall_forall. intros e _.
        destruct (Hpick e) as [(_ & _ & ?)|[_ ?]]; [by left|by right].
      * rewrite Forall_forall in Hks. apply Exists_exists in Hread as (e & He & Hbad).
        apply Exists_exists. exists e. split; [done|].
        destruct (Hpick e) as [(? & ? & _)|[_ ?]]; [|done].
        exfalso. apply Hbad. split; [by apply Hks|done].
    + apply not_Forall_Exists in Hks; [|apply _].
      rewrite (traverse_Raise (getitem (EdgeGuide._complete_stats s)) _ IndexError);
        [done| |].
      * apply Forall_forall. intros k _.
        destruct (Hrow k) as [[_ ?]|[_ ?]]; [by left|by right].
      * apply Exists_fmap. eapply Exists_impl; [exact Hks|].
        intros e Hbad. simpl in *.
        destruct (Hrow (pair_index e.1 e.2)) as [[? _]|[_ ?]]; done.
Qed.



Lemma shaped_guide3 : shaped guide3.
Proof. repeat split; try reflexivity; repeat constructor. Qed.



(** The single edge stored as the row [(1, 0)]: the statistics are updated,
    and then the logging block raises, because [get_posterior] reads row
    [1 + 0] of a table of one row. *)
Lemma update_descending_row :
  exists s0 s',
    EdgeGuide.__init__ 2 [(1, 0)] (1 # 100) = Ok s0
    /\ EdgeGuide.update s0 (Some 1) [[0]; [1]] = (s', Raise IndexError)
    /\ (EdgeGuide._count_stats s' == 1)%Q
    /\ (cell (EdgeGuide._vertex_stats s') 0 0 == 3 # 4)%Q.
Proof.
  eexists _, _. split; [vm_compute; reflexivity|].
  split; [vm_compute; reflexivity|]. split; vm_compute; reflexivity.
Qed.

Lemma guide_init_shaped capacity edges annealing_rate s0 :
  EdgeGuide.__init__ capacity edges annealing_rate = Ok s0 -> shaped s0.
Proof.
  intros (_ & _ & ->)%guide_init_inv. unfold shaped, full. simpl.
  rewrite !length_replicate. repeat split; try done.
  - apply Forall_replicate. by rewrite length_replicate.
  - apply Forall_replicate. by rewrite length_replicate.
Qed.






(** ** C4: [get_posterior] *)

Lemma Qsum_nonneg (row : list Q) :
  Forall (fun x => 0 <= x)%Q row -> (0 <= Qsum row)%Q.
Proof.
  induction 1 as [|x row Hx _ IH]; simpl; [apply Qle_refl|]. lra.
Qed.

Lemma Qsum_shift_pos prior (row : list Q) :
  (0 < prior)%Q -> Forall (fun x => 0 <= x)%Q row -> row <> [] ->
  (0 < Qsum (map (fun x => prior + x) row))%Q.
Proof.
  intros Hp Hrow Hne. destruct Hrow as [|x row Hx Hrow]; [done|]. simpl.
  assert (0 <= Qsum (map (fun x => prior + x) row))%Q.
  { apply Qsum_nonneg, Forall_fmap. eapply Forall_impl; [exact Hrow|].
    intros y Hy. simpl in *. lra. }
  lra.
Qed.

Lemma posterior_mean_lookup prior (row : list Q) m x :
  row !! m = Some x ->
  EdgeGuide.posterior_mean prior row !! m
  = Some ((prior + x) / Qsum (map (fun y => prior + y) row))%Q.
Proof.
  intros H. unfold EdgeGuide.posterior_mean.
  by rewrite !list_lookup_fmap, H.
Qed.

Lemma posterior_mean_sum prior (row : list Q) :
  (0 < prior)%Q -> Forall (fun x => 0 <= x)%Q row -> row <> [] ->
  (Qsum (EdgeGuide.posterior_mean prior row) == 1)%Q.
Proof.
  intros Hp Hrow Hne. pose proof (Qsum_shift_pos prior row Hp Hrow Hne) as HS.
  unfold EdgeGuide.posterior_mean.
  set (probs := map (fun x => prior + x)%Q row) in *.
  change (map (fun x => x / Qsum probs)%Q probs)
    with (map (fun x => x * / Qsum probs)%Q probs).
  rewrite Qsum_scale. field. lra.
Qed.

(** C4, amended. [get_posterior] returns as [vertex_probs] the rows
    [0.5 + vertex_stats] divided by their sums, and as [edge_probs], for each
    edge of the current tree and for those only, the row
    [0.5/M + complete_stats[k]] divided by its sum, where
    [k = v1 + v2*(v2-1)/2] is taken from the row [(v1, v2)] as it is stored;
    for rows stored with [v1 < v2 < V] this is the position of the pair in
    the complete graph, and for non-negative statistics every returned row
    adds up to 1. *)
Theorem get_posterior_normalized s :
  let V := length (EdgeGuide.edges s) + 1 in
  let M := EdgeGuide.capacity s in
  shaped s -> 0 < M ->
  Forall (fun e => e.1 < e.2 /\ e.2 < V) (EdgeGuide.edges s) ->
  nonneg_table (EdgeGuide._vertex_stats s) ->
  nonneg_table (EdgeGuide._complete_stats s) ->
  exists vertex_probs edge_probs,
    EdgeGuide.get_posterior s = Ok (vertex_probs, edge_probs)
    /\ vertex_probs
       = map (EdgeGuide.posterior_mean (1 # 2)) (EdgeGuide._vertex_stats s)
    /\ (forall prior row m x, row !! m = Some x ->
          EdgeGuide.posterior_mean prior row !! m
          = Some ((prior + x) / Qsum (map (fun y => prior + y) row))%Q)
    /\ length edge_probs = length (EdgeGuide.edges s)
    /\ (forall e v1 v2,
          EdgeGuide.edges s !! e = Some (v1, v2) ->
          exists row,
            complete_pairs V !! (v1 + v2 * (v2 - 1) / 2) = Some (v1, v2)
            /\ EdgeGuide._complete_stats s !! (v1 + v2 * (v2 - 1) / 2) = Some row
            /\ edge_probs !! e
               = Some (EdgeGuide.posterior_mean ((1 # 2) / of_int M) row))
    /\ Forall (fun row => Qsum row == 1)%Q vertex_probs
    /\ Forall (fun row => Qsum row == 1)%Q edge_probs.
Proof.
  intros V M (Hgrid & Hvp & Hep & HvsV & HvsM & HcsK & HcsM) HM Hedges Hvs Hcs.
  unfold EdgeGuide.get_posterior. rewrite Hvp, Hep. fold M.
  destruct (traverse_getitem (EdgeGuide._complete_stats s)
              (map (fun e => pair_index e.1 e.2) (EdgeGuide.edges s)))
    as (edge_stats & -> & Hes).
  { apply Forall_fmap. eapply Forall_impl; [exact Hedges|].
    intros [v1 v2] [H1 H2]. simpl in *.
    pose proof (complete_pairs_lookup V v1 v2 H1 H2) as Hp.
    apply lookup_lt_Some in Hp. rewrite complete_pairs_length in Hp.
    by rewrite HcsK. }
  apply Forall2_fmap_r in Hes. simpl.
  pose proof (of_int_pos M ltac:(lia)) as HM0.
  assert (0 < (1 # 2) / of_int M)%Q as Hprior by (apply Qdiv_pos; lra).
  eexists _, _. split; [done|]. split; [done|].
  split; [apply posterior_mean_lookup|].
  split; [rewrite length_map; by apply Forall2_length in Hes|].
  split; [|split].
  - intros e v1 v2 He. rewrite Forall_lookup in Hedges.
    destruct (Hedges _ _ He) as [H1 H2]. simpl in H1, H2.
    destruct (Forall2_lookup_r _ _ _ _ _ Hes He) as (row & Hrow & Hk).
    exists row. split; [by apply complete_pairs_lookup|]. split; [exact Hk|].
    by rewrite list_lookup_fmap, Hrow.
  - apply Forall_fmap, Forall_lookup. intros v row Hrow. simpl.
    rewrite Forall_lookup in HvsM. pose proof (HvsM _ _ Hrow) as Hlen.
    unfold nonneg_table in Hvs. rewrite Forall_lookup in Hvs.
    apply posterior_mean_sum; [reflexivity | by apply (Hvs v) |].
    intros ->. simpl in Hlen. lia.
  - apply Forall_fmap, Forall_lookup. intros e row Hrow. simpl.
    destruct (Forall2_lookup_l _ _ _ _ _ Hes Hrow) as ([v1 v2] & _ & Hk).
    simpl in Hk.
    rewrite Forall_lookup in HcsM. pose proof (HcsM _ _ Hk) as Hlen.
    unfold nonneg_table in Hcs. rewrite Forall_lookup in Hcs.
    apply posterior_mean_sum; [done | by apply (Hcs _ _ Hk) |].
    intros ->. simpl in Hlen. fold M in Hlen. nia.
Qed.

Lemma get_posterior_normalized_witness :
  exists vertex_probs edge_probs,
    EdgeGuide.get_posterior guide3 = Ok (vertex_probs, edge_probs)
    /\ Forall (fun row => Qsum row == 1)%Q vertex_probs
    /\ Forall (fun row => Qsum row == 1)%Q edge_probs.
Proof.
  destruct (get_posterior_normalized guide3)
    as (vp & ep & H & _ & _ & _ & _ & Hv & He).
  - exact shaped_guide3.
  - simpl. lia.
  - repeat constructor.
  - repeat constructor; discriminate.
  - repeat constructor; discriminate.
  - exists vp, ep. split; [exact H|]. split; [exact Hv | exact He].
Defined.

(** The index of [get_posterior] against the pair index the spec words, on
    edge rows [(v1, v2)] with [v1 > v2], which [TreeCat.__init__] accepts:
    [v1 + v2*(v2-1)//2] is then not the position of the pair in the complete
    graph.  For the single row [(1, 0)] of a model of two features the index
    is 1, outside the table of one row, and [get_posterior] raises
    [IndexError].  For the row [(2, 0)] of a model of three features the
    index is 2, the position of the pair [(1, 2)], and after one update
    [get_posterior] returns for the edge between 0 and 2 the table of the
    pair [(1, 2)], which differs from the table of the pair [(0, 2)] at
    position 1. *)
Lemma get_posterior_descending_row :
  (exists self,
     TreeCat.__init__ [tt; tt] 2 (Some (tensor_of [(1, 0)])) (1 # 100) = Ok self
     /\ pair_index 1 0 = 1
     /\ length (EdgeGuide._complete_stats (TreeCat._edge_guide unit self)) = 1
     /\ EdgeGuide.get_posterior (TreeCat._edge_guide unit self)
        = Raise IndexError)
  /\ (exists self vertex_probs edge_probs row12 row02,
        let s := fst (EdgeGuide.update (TreeCat._edge_guide unit self) (Some 1)
                        z_descending) in
        TreeCat.__init__ [tt; tt; tt] 2 (Some (tensor_of descending_edges))
          (1 # 100) = Ok self
        /\ EdgeGuide.edges s !! 1 = Some (2, 0)
        /\ pair_index 2 0 = 2
        /\ complete_pairs 3 !! 2 = Some (1, 2)
        /\ complete_pairs 3 !! 1 = Some (0, 2)
        /\ EdgeGuide.get_posterior s = Ok (vertex_probs, edge_probs)
        /\ EdgeGuide._complete_stats s !! 2 = Some row12
        /\ EdgeGuide._complete_stats s !! 1 = Some row02
        /\ edge_probs !! 1 = Some (EdgeGuide.posterior_mean (1 # 4) row12)
        /\ ~ (cell edge_probs 1 1
              == nth 1 (EdgeGuide.posterior_mean (1 # 4) row02) 0)%Q).
Proof.
  split.
  - eexists. split; [vm_compute; reflexivity|]. repeat split.
  - eexists _, _, _, _, _. cbv zeta.
    split; [vm_compute; reflexivity|].
    split; [reflexivity|]. split; [reflexivity|]. split; [reflexivity|].
    split; [reflexivity|].
    split; [vm_compute; reflexivity|].
    split; [vm_compute; reflexivity|].
    split; [vm_compute; reflexivity|].
    split; [vm_compute; reflexivity|].
    vm_compute. discriminate.
Qed.

(** ** C3: [compute_edge_logits] *)

Section EdgeLogits.

Variable lgamma : Q -> Q.
Hypothesis lgamma_proper : Proper (Qeq ==> Qeq) lgamma.

Lemma dirmul_row alpha (row : list Q) :
  (Qsum (map (fun p : Q * Q => p.1 * 1 + p.2 * -1)
           (map (fun c => (lgamma (c + alpha), lgamma (c + 1))) row))
   == EdgeGuide.dirmul_reference lgamma alpha row)%Q.
Proof.
  unfold EdgeGuide.dirmul_reference. induction row as [|c row IH]; simpl.
  - ring.
  - rewrite IH.
    assert (lgamma (c + alpha) == lgamma (alpha + c))%Q as ->
      by (apply lgamma_proper; ring).
    assert (lgamma (c + 1) == lgamma (1 + c))%Q as ->
      by (apply lgamma_proper; ring).
    ring.
Qed.

Lemma dirmul_lookup alpha (counts : list (list Q)) i row :
  counts !! i = Some row ->
  exists x, EdgeGuide._dirmul_log_prob lgamma alpha counts !! i = Some x
            /\ (x == EdgeGuide.dirmul_reference lgamma alpha row)%Q.
Proof.
  intros H. unfold EdgeGuide._dirmul_log_prob.
  rewrite !list_lookup_fmap, H. simpl. eexists. split; [done|].
  apply dirmul_row.
Qed.

Lemma dirmul_length alpha (counts : list (list Q)) :
  length (EdgeGuide._dirmul_log_prob lgamma alpha counts) = length counts.
Proof. unfold EdgeGuide._dirmul_log_prob. by rewrite !length_map. Qed.

Lemma edge_logits_spec s :
  let V := length (EdgeGuide.edges s) + 1 in
  let K := V * (V - 1) / 2 in
  shaped s ->
  exists logits,
    EdgeGuide.compute_edge_logits lgamma s = Ok logits
    /\ length logits = K
    /\ forall v1 v2, v1 < v2 -> v2 < V ->
         exists x pair_row row1 row2,
           logits !! pair_index v1 v2 = Some x
           /\ EdgeGuide._complete_stats s !! pair_index v1 v2 = Some pair_row
           /\ EdgeGuide._vertex_stats s !! v1 = Some row1
           /\ EdgeGuide._vertex_stats s !! v2 = Some row2
           /\ (x == EdgeGuide.dirmul_reference lgamma
                      ((1 # 2) / of_int (EdgeGuide.capacity s)) pair_row
                    - EdgeGuide.dirmul_reference lgamma (1 # 2) row1
                    - EdgeGuide.dirmul_reference lgamma (1 # 2) row2)%Q.
Proof.
  intros V K (Hgrid & Hvp & Hep & HvsV & HvsM & HcsK & HcsM).
  unfold EdgeGuide.compute_edge_logits. rewrite Hgrid, Hvp, Hep. fold V.
  unfold make_complete_graph. cbn [fst snd].
  set (vl := EdgeGuide._dirmul_log_prob lgamma (1 # 2) (EdgeGuide._vertex_stats s)).
  set (el := EdgeGuide._dirmul_log_prob lgamma _ (EdgeGuide._complete_stats s)).
  assert (length vl = V) as HvlV by (unfold vl; by rewrite dirmul_length).
  assert (length el = length (complete_pairs V)) as HelK.
  { unfold el. rewrite dirmul_length, complete_pairs_length. exact HcsK. }
  destruct (traverse_getitem vl (map fst (complete_pairs V))) as (l0 & -> & Hl0).
  { apply Forall_fmap, Forall_forall. intros [v1 v2] Hin.
    apply list_elem_of_lookup in Hin as [k Hk].
    apply complete_pairs_lookup_inv in Hk. simpl. lia. }
  destruct (traverse_getitem vl (map snd (complete_pairs V))) as (l1 & -> & Hl1).
  { apply Forall_fmap, Forall_forall. intros [v1 v2] Hin.
    apply list_elem_of_lookup in Hin as [k Hk].
    apply complete_pairs_lookup_inv in Hk. simpl. lia. }
  apply Forall2_fmap_r in Hl0, Hl1.
  pose proof (Forall2_length _ _ _ Hl0) as Hlen0.
  pose proof (Forall2_length _ _ _ Hl1) as Hlen1.
  cbn [mbind res_bind].
  rewrite (decide_True (P := length l0 = length el)) by lia.
  cbn [mbind res_bind].
  rewrite (decide_True (P := length l1 = length (zip_with Qminus el l0)))
    by (rewrite length_zip_with; lia).
  cbn [mbind res_bind].
  rewrite bool_decide_eq_true_2.
  2:{ etrans; [|exact (complete_pairs_length V)]. rewrite !length_zip_with. lia. }
  cbn [mbind res_bind assert]. eexists. split; [done|].
  split.
  { etrans; [|exact (complete_pairs_length V)]. rewrite !length_zip_with. lia. }
  intros v1 v2 H1 H2.
  pose proof (complete_pairs_lookup V v1 v2 H1 H2) as Hp.
  destruct (Forall2_lookup_r _ _ _ _ _ Hl0 Hp) as (x0 & Hx0 & Hv1).
  destruct (Forall2_lookup_r _ _ _ _ _ Hl1 Hp) as (x1 & Hx1 & Hv2).
  simpl in Hv1, Hv2.
  destruct (lookup_lt_is_Some_2 (EdgeGuide._complete_stats s) (pair_index v1 v2))
    as [pair_row Hprow].
  { apply lookup_lt_Some in Hp. rewrite complete_pairs_length in Hp.
    by rewrite HcsK. }
  destruct (lookup_lt_is_Some_2 (EdgeGuide._vertex_stats s) v1) as [row1 Hrow1];
    [lia|].
  destruct (lookup_lt_is_Some_2 (EdgeGuide._vertex_stats s) v2) as [row2 Hrow2];
    [lia|].
  destruct (dirmul_lookup ((1 # 2) / of_int (EdgeGuide.capacity s)) _ _ _ Hprow)
    as (xe & Hxe & Hxe').
  destruct (dirmul_lookup (1 # 2) _ _ _ Hrow1) as (y1 & Hy1 & Hy1').
  destruct (dirmul_lookup (1 # 2) _ _ _ Hrow2) as (y2 & Hy2 & Hy2').
  fold vl in Hy1, Hy2. fold el in Hxe. simplify_eq.
  exists (xe - x0 - x1)%Q, pair_row, row1, row2.
  split.
  { apply lookup_zip_with_Some. exists (xe - x0)%Q, x1. split; [done|].
    split; [|done]. apply lookup_zip_with_Some. eauto. }
  repeat (split; [done|]). by rewrite Hxe', Hy1', Hy2'.
Qed.

End EdgeLogits.

(** C3. [compute_edge_logits] returns a vector of length [K = V*(V-1)/2],
    with one entry per unordered pair [v1 < v2] of the complete graph, tree
    edge or not: the Dirichlet-multinomial score of the pair's row of
    [complete_stats] under [0.5/M] minus the scores of the rows of
    [vertex_stats] of the two endpoints under [0.5]; the score is
    [sum_i lgamma(alpha + counts_i) - sum_i lgamma(1 + counts_i)], which is
    what the tensor expression of [_dirmul_log_prob] computes on every row. *)
Theorem compute_edge_logits_scores lgamma s :
  let V := length (EdgeGuide.edges s) + 1 in
  let K := V * (V - 1) / 2 in
  Proper (Qeq ==> Qeq) lgamma ->
  shaped s ->
  (forall alpha counts i row,
     counts !! i = Some row ->
     exists x, EdgeGuide._dirmul_log_prob lgamma alpha counts !! i = Some x
               /\ (x == Qsum (map (fun c => lgamma (alpha + c)) row)
                        - Qsum (map (fun c => lgamma (1 + c)) row))%Q)
  /\ (forall k, k < K -> exists v1 v2, v1 < v2 /\ v2 < V /\ k = pair_index v1 v2)
  /\ exists logits,
       EdgeGuide.compute_edge_logits lgamma s = Ok logits
       /\ length logits = K
       /\ forall v1 v2, v1 < v2 -> v2 < V ->
            exists x pair_row row1 row2,
              logits !! pair_index v1 v2 = Some x
              /\ EdgeGuide._complete_stats s !! pair_index v1 v2 = Some pair_row
              /\ EdgeGuide._vertex_stats s !! v1 = Some row1
              /\ EdgeGuide._vertex_stats s !! v2 = Some row2
              /\ (x == EdgeGuide.dirmul_reference lgamma
                         ((1 # 2) / of_int (EdgeGuide.capacity s)) pair_row
                       - EdgeGuide.dirmul_reference lgamma (1 # 2) row1
                       - EdgeGuide.dirmul_reference lgamma (1 # 2) row2)%Q.
Proof.
  intros V K Hlg Hs. split; [|split].
  - intros alpha counts i row H. by apply dirmul_lookup.
  - intros k Hk. unfold K in Hk. rewrite <- complete_pairs_length in Hk.
    destruct (lookup_lt_is_Some_2 _ _ Hk) as [[v1 v2] Hp].
    apply complete_pairs_lookup_inv in Hp. eauto.
  - by apply edge_logits_spec.
Qed.

Lemma compute_edge_logits_scores_witness :
  exists logits,
    EdgeGuide.compute_edge_logits (fun x => x * x)%Q guide3 = Ok logits
    /\ length logits = 3.
Proof.
  destruct (compute_edge_logits_scores (fun x => x * x)%Q guide3)
    as (_ & _ & logits & H & Hlen & _).
  - intros x y Hxy. by rewrite Hxy.
  - exact shaped_guide3.
  - exists logits. split; [exact H | exact Hlen].
Defined.

(** ** The conditional distribution of the propagation step *)

Lemma scan_unassigned z candidates v0 children :
  (forall u, u ∈ candidates -> z !! u = Some None) ->
  TreeCat.scan z candidates v0 children = Ok (v0, children ++ candidates).
Proof.
  revert children. induction candidates as [|u cs IH]; intros children H; simpl.
  - by rewrite app_nil_r.
  - rewrite (getitem_lookup _ _ _ (H u ltac:(left))). simpl.
    rewrite IH by (intros; apply H; by right).
    by rewrite <- app_assoc.
Qed.

Lemma scan_parent z candidates p states v0 children :
  z !! p = Some (Some states) ->
  (forall u, u ∈ candidates -> u <> p -> z !! u = Some None) ->
  TreeCat.scan z candidates v0 children
  = Ok (if decide (p ∈ candidates) then Some p else v0,
        children ++ filter (fun u => u <> p) candidates).
Proof.
  intros Hp. revert v0 children.
  induction candidates as [|u cs IH]; intros v0 children H; simpl.
  - by rewrite app_nil_r.
  - destruct (decide (u = p)) as [->|Hne].
    + rewrite (getitem_lookup _ _ _ Hp). simpl.
      rewrite IH by (intros; apply H; [by right|done]).
      rewrite filter_cons_False by (by intros ?).
      rewrite (decide_True (P := p ∈ p :: cs)) by left.
      by case_decide.
    + rewrite (getitem_lookup _ _ _ (H u ltac:(left) Hne)). simpl.
      rewrite IH by (intros; apply H; [by right|done]).
      rewrite filter_cons_True by done. rewrite <- app_assoc. simpl.
      do 2 f_equal. rewrite (decide_ext (p ∈ u :: cs) (p ∈ cs)); [done|].
      rewrite elem_of_cons. split; [intros [->|?]; done | by right].
Qed.

Lemma reshape_lookup M joint i :
  length joint = M * M -> i < M ->
  exists block,
    TreeCat.reshape M joint = Ok block
    /\ length block = M
    /\ block !! i = Some (take M (drop (i * M) joint)).
Proof.
  intros Hlen Hi. unfold TreeCat.reshape. rewrite decide_True by done.
  eexists. split; [done|]. rewrite length_map, length_seq. split; [done|].
  by rewrite list_lookup_fmap, lookup_seq_lt.
Qed.

Lemma block_row_lookup M (joint : list Q) i j :
  j < M -> take M (drop (i * M) joint) !! j = block_entry M joint i j.
Proof.
  intros Hj. unfold block_entry. rewrite lookup_take_lt by done.
  by rewrite lookup_drop.
Qed.

Lemma block_row_length M (joint : list Q) i :
  length joint = M * M -> i < M -> length (take M (drop (i * M) joint)) = M.
Proof. intros Hlen Hi. rewrite length_take, length_drop. nia. Qed.

Lemma transpose_lookup M block j :
  j < M ->
  TreeCat.transpose M block !! j = Some (map (fun row => nth j row 0%Q) block).
Proof.
  intros Hj. unfold TreeCat.transpose.
  by rewrite list_lookup_fmap, lookup_seq_lt.
Qed.

Lemma conditional_parent {Feature : Type} (self : TreeCat.t Feature)
    vertex_probs edge_probs z v p e joint states :
  let M := TreeCat.capacity Feature self in
  TreeCat._edge_index Feature self !! (v, p) = Some e ->
  edge_probs !! e = Some joint ->
  length joint = M * M ->
  z !! p = Some (Some states) ->
  Forall (fun st => st < M) states ->
  exists ps,
    TreeCat.conditional self vertex_probs edge_probs z v (Some p)
    = Ok (Batched ps)
    /\ length ps = length states
    /\ forall row st j,
         states !! row = Some st -> j < M ->
         exists pr,
           ps !! row = Some pr
           /\ length pr = M
           /\ pr !! j = if decide (v < p) then block_entry M joint j st
                        else block_entry M joint st j.
Proof.
  intros M He Hjoint Hlen Hz Hstates. unfold TreeCat.conditional. fold M.
  clearbody M.
  rewrite He. cbn [mbind res_bind]. rewrite (getitem_lookup _ _ _ Hjoint).
  cbn [mbind res_bind].
  unfold TreeCat.reshape. rewrite decide_True by done. cbn [mbind res_bind].
  rewrite (getitem_lookup _ _ _ Hz). cbn [mbind res_bind].
  set (block := map (fun i => take M (drop (i * M) joint)) (seq 0 M)).
  assert (forall i, i < M -> block !! i = Some (take M (drop (i * M) joint)))
    as Hblock.
  { intros i Hi. unfold block. by rewrite list_lookup_fmap, lookup_seq_lt. }
  assert (length block = M) as HblockM
    by (unfold block; by rewrite length_map, length_seq).
  set (chosen := if decide (v < p) then TreeCat.transpose M block else block).
  assert (length chosen = M) as HchosenM.
  { unfold chosen. case_decide; [|done].
    unfold TreeCat.transpose. by rewrite length_map, length_seq. }
  destruct (traverse_getitem chosen states) as (ps & -> & Hps).
  { eapply Forall_impl; [exact Hstates|]. intros st Hst. by rewrite HchosenM. }
  exists ps. split; [done|]. split; [by apply Forall2_length in Hps|].
  intros row st j Hrow Hj.
  destruct (Forall2_lookup_r _ _ _ _ _ Hps Hrow) as (pr & Hpr & Hch).
  rewrite Forall_lookup in Hstates. pose proof (Hstates _ _ Hrow) as Hst.
  simpl in Hst.
  exists pr. split; [done|]. unfold chosen in Hch. case_decide.
  - rewrite transpose_lookup in Hch by done. simplify_eq.
    split; [by rewrite length_map|].
    rewrite list_lookup_fmap, (Hblock j Hj). simpl.
    rewrite nth_lookup, block_row_lookup by done. unfold block_entry.
    destruct (lookup_lt_is_Some_2 joint (j * M + st)) as [x ->]; [nia|done].
  - rewrite Hblock in Hch by done. simplify_eq.
    split; [by apply block_row_length|]. by apply block_row_lookup.
Qed.

(** The head of the propagation step at a vertex [v] whose only assigned
    neighbour is its parent [v0]: the distribution of [z[v]] is found by
    taking the [M*M] row of [edge_probs] at the edge index of [(v, v0)],
    reading it as an [M x M] block, transposed exactly when [v0 > v], and
    selecting, for every row of the batch, the row of the block given by the
    parent's state [z[v0]]; the other neighbours become the children.  At a
    vertex with no assigned neighbour (the root) the distribution is row [v]
    of [vertex_probs] and every neighbour is a child. *)
Lemma site_conditional {Feature : Type} (self : TreeCat.t Feature)
    vertex_probs edge_probs z v s :
  let M := TreeCat.capacity Feature self in
  TreeCat._neighbors Feature self !! v = Some s ->
  (forall v0 e joint states,
     v0 ∈ s -> z !! v0 = Some (Some states) ->
     (forall u, u ∈ s -> u <> v0 -> z !! u = Some None) ->
     TreeCat._edge_index Feature self !! (v, v0) = Some e ->
     edge_probs !! e = Some joint ->
     length joint = M * M ->
     Forall (fun st => st < M) states ->
     exists ps,
       TreeCat.site self vertex_probs edge_probs z v
       = Ok (Batched ps, filter (fun u => u <> v0) (elements s))
       /\ length ps = length states
       /\ forall row st j,
            states !! row = Some st -> j < M ->
            exists pr,
              ps !! row = Some pr
              /\ length pr = M
              /\ pr !! j = if decide (v < v0) then block_entry M joint j st
                           else block_entry M joint st j)
  /\ (forall p,
        (forall u, u ∈ s -> z !! u = Some None) ->
        vertex_probs !! v = Some p ->
        TreeCat.site self vertex_probs edge_probs z v
        = Ok (Unbatched p, elements s)).
Proof.
  intros M Hs. split.
  - intros v0 e joint states Hv0 Hz Hothers He Hjoint Hlen Hstates.
    destruct (conditional_parent self vertex_probs edge_probs z v v0 e joint
                states He Hjoint Hlen Hz Hstates) as (ps & Hps & Hrest).
    exists ps. split; [|exact Hrest].
    unfold TreeCat.site. rewrite (getitem_lookup _ _ _ Hs). cbn [mbind res_bind].
    rewrite (scan_parent z (elements s) v0 states None []); [|done|].
    2:{ intros u Hu. apply Hothers. by apply elem_of_elements. }
    rewrite decide_True by (by apply elem_of_elements).
    cbn [mbind res_bind app]. rewrite Hps. done.
  - intros p Hnone Hp. unfold TreeCat.site.
    rewrite (getitem_lookup _ _ _ Hs). cbn [mbind res_bind].
    rewrite scan_unassigned by (intros u Hu; apply Hnone; by apply elem_of_elements).
    cbn [mbind res_bind app]. unfold TreeCat.conditional.
    rewrite (getitem_lookup _ _ _ Hp). done.
Qed.

Lemma tree3_init : TreeCat.__init__ [tt; tt; tt] 2 None (1 # 100) = Ok tree3.
Proof. vm_compute. reflexivity. Qed.

(** ** C5: leaf stripping *)

Lemma degree_size neighbors u : degree neighbors u = size (neighbors_of neighbors u).
Proof.
  unfold degree, neighbors_of. destruct (neighbors !! u); [done|].
  simpl. reflexivity.
Qed.

Lemma neighbors_of_insert neighbors u w s :
  u < length neighbors ->
  neighbors_of (<[u := s]> neighbors) w
  = if decide (u = w) then s else neighbors_of neighbors w.
Proof.
  intros Hu. unfold neighbors_of. case_decide as H.
  - subst. by rewrite list_lookup_insert_eq.
  - by rewrite list_lookup_insert_ne.
Qed.

Lemma neighbors_of_lookup neighbors u s :
  neighbors !! u = Some s -> neighbors_of neighbors u = s.
Proof. unfold neighbors_of. by intros ->. Qed.

Lemma sum_sizes_insert (neighbors : list (gset nat)) u s s' :
  neighbors !! u = Some s ->
  sum_list_with size (<[u := s']> neighbors) + size s
  = sum_list_with size neighbors + size s'.
Proof.
  revert u. induction neighbors as [|a nb IH]; intros [|u] H; simplify_eq/=.
  - lia.
  - specialize (IH _ H). lia.
Qed.

Lemma size_add_le (s : gset nat) x : size (s ∪ {[x]}) <= size s + 1.
Proof.
  rewrite size_union_alt.
  pose proof (size_singleton (C := gset nat) x) as H1.
  assert (size (({[x]} : gset nat) ∖ s) <= 1).
  { rewrite <- H1. apply subseteq_size. set_solver. }
  lia.
Qed.

Lemma add_edge_spec neighbors a b :
  a < length neighbors -> b < length neighbors ->
  exists nb,
    add_edge neighbors (a, b) = Ok nb
    /\ length nb = length neighbors
    /\ sum_list_with size nb <= sum_list_with size neighbors + 2
    /\ forall u w, w ∈ neighbors_of nb u
                   <-> w ∈ neighbors_of neighbors u
                       \/ (u = a /\ w = b) \/ (u = b /\ w = a).
Proof.
  intros Ha Hb. unfold add_edge.
  destruct (lookup_lt_is_Some_2 neighbors a Ha) as [s1 Hs1].
  rewrite (getitem_lookup _ _ _ Hs1). cbn [mbind res_bind].
  set (nb1 := <[a := s1 ∪ {[b]}]> neighbors).
  assert (length nb1 = length neighbors) as Hlen1 by apply length_insert.
  destruct (lookup_lt_is_Some_2 nb1 b) as [s2 Hs2]; [lia|].
  rewrite (getitem_lookup _ _ _ Hs2). cbn [mbind res_bind].
  eexists. split; [done|]. split; [by rewrite length_insert|]. split.
  - pose proof (sum_sizes_insert neighbors a s1 (s1 ∪ {[b]}) Hs1) as H1.
    pose proof (sum_sizes_insert nb1 b s2 (s2 ∪ {[a]}) Hs2) as H2.
    fold nb1 in H1.
    pose proof (size_add_le s1 b). pose proof (size_add_le s2 a). lia.
  - intros u w. rewrite neighbors_of_insert by lia.
    apply neighbors_of_lookup in Hs2. rewrite <- Hs2.
    unfold nb1. rewrite !neighbors_of_insert by lia.
    apply neighbors_of_lookup in Hs1. rewrite <- Hs1.
    repeat case_decide; subst; set_solver.
Qed.

Lemma add_edges_spec edges neighbors :
  Forall (fun e => e.1 < length neighbors /\ e.2 < length neighbors) edges ->
  exists nb,
    add_edges neighbors edges = Ok nb
    /\ length nb = length neighbors
    /\ sum_list_with size nb <= sum_list_with size neighbors + 2 * length edges
    /\ forall u w, w ∈ neighbors_of nb u
                   <-> w ∈ neighbors_of neighbors u \/ edge_between edges u w.
Proof.
  revert neighbors. induction edges as [|[a b] edges IH]; intros neighbors Hr.
  - exists neighbors. simpl. split; [done|]. split; [done|]. split; [lia|].
    intros u w. unfold edge_between. set_solver.
  - apply Forall_cons in Hr as [[Ha Hb] Hr]. simpl in Ha, Hb.
    destruct (add_edge_spec neighbors a b Ha Hb) as (nb1 & H1 & Hlen1 & Hsum1 & Hmem1).
    destruct (IH nb1) as (nb & H2 & Hlen & Hsum & Hmem).
    { by rewrite Hlen1. }
    exists nb. cbn [add_edges]. rewrite H1. cbn [mbind res_bind].
    split; [done|]. split; [lia|]. split; [simpl; lia|].
    intros u w. rewrite Hmem, Hmem1. unfold edge_between.
    rewrite !elem_of_cons. split.
    + intros [[?|[[-> ->]|[-> ->]]]|[?|?]]; eauto.
    + intros [?|[[?|?]|[?|?]]]; simplify_eq; eauto 6.
Qed.

Lemma build_neighbors_spec V edges :
  Forall (fun e => e.1 < V /\ e.2 < V) edges ->
  exists nb,
    build_neighbors V edges = Ok nb
    /\ length nb = V
    /\ sum_list_with size nb <= 2 * length edges
    /\ forall u w, w ∈ neighbors_of nb u <-> edge_between edges u w.
Proof.
  intros Hr. unfold build_neighbors.
  destruct (add_edges_spec edges (replicate V ∅)) as (nb & H & Hlen & Hsum & Hmem).
  { by rewrite length_replicate. }
  exists nb. split; [done|]. rewrite length_replicate in Hlen. split; [done|].
  split.
  - assert (sum_list_with size (replicate V (∅ : gset nat)) = 0) as H0.
    { clear. induction V as [|V IH]; [done|]. simpl. exact IH. }
    lia.
  - intros u w. rewrite Hmem. unfold neighbors_of.
    destruct (replicate V (∅ : gset nat) !! u) as [s|] eqn:Hs; simpl.
    + apply lookup_replicate in Hs as [-> _]. set_solver.
    + set_solver.
Qed.

Lemma sorted_perm (s : gset nat) : sorted s ≡ₚ elements s.
Proof. apply merge_sort_Permutation. Qed.

Lemma sorted_empty (s : gset nat) : size s = 0 -> sorted s = [].
Proof.
  intros H. apply size_empty_inv in H. apply Permutation_nil_r.
  rewrite sorted_perm. apply leibniz_equiv in H. subst. by rewrite elements_empty.
Qed.

Lemma sorted_singleton (s : gset nat) :
  size s = 1 -> exists w, s = {[w]} /\ sorted s = [w].
Proof.
  intros H. apply size_1_elem_of in H as [w Hw]. apply leibniz_equiv in Hw.
  exists w. split; [done|]. apply Permutation_singleton_r.
  rewrite sorted_perm. subst. by rewrite elements_singleton.
Qed.

Lemma sum_list_with_ext {A : Type} (f g : A -> nat) (l : list A) :
  (forall x, x ∈ l -> f x = g x) -> sum_list_with f l = sum_list_with g l.
Proof.
  induction l as [|a l IH]; intros H; simpl; [done|].
  rewrite (H a) by left. rewrite IH; [done|]. intros. apply H. by right.
Qed.

Lemma sum_degree_seq (neighbors : list (gset nat)) :
  sum_list_with (degree neighbors) (seq 0 (length neighbors))
  = sum_list_with size neighbors.
Proof.
  induction neighbors as [|a nb IH] using rev_ind; [done|].
  rewrite length_app. simpl. rewrite Nat.add_1_r, seq_S. simpl.
  rewrite !sum_list_with_app. simpl. rewrite <- IH. f_equal.
  - apply sum_list_with_ext. intros i Hi. apply elem_of_seq in Hi.
    unfold degree. rewrite lookup_app_l by lia. done.
  - unfold degree. rewrite lookup_app_r by lia.
    by rewrite Nat.sub_diag.
Qed.

Lemma nodup_all_equal (l : list nat) v :
  NoDup l -> v ∈ l -> (forall u, u ∈ l -> u = v) -> l = [v].
Proof.
  intros Hnd Hv Hall. destruct l as [|a l]; [by apply elem_of_nil in Hv|].
  pose proof (Hall a ltac:(left)) as ->.
  destruct l as [|b l]; [done|].
  pose proof (Hall b ltac:(right; left)) as ->.
  apply NoDup_cons in Hnd as [Hnd _]. exfalso. apply Hnd. left.
Qed.

Lemma exists_small_degree (f : nat -> nat) (l : list nat) :
  l <> [] -> sum_list_with f l + 2 <= 2 * length l ->
  exists u, u ∈ l /\ f u <= 1.
Proof.
  intros Hne Hsum.
  destruct (decide (Exists (fun u => f u <= 1) l)) as [H|H].
  - apply Exists_exists in H. done.
  - apply not_Exists_Forall in H; [|solve_decision].
    exfalso. assert (2 * length l <= sum_list_with f l); [|lia].
    clear Hne Hsum. induction H as [|a l Ha _ IH]; simpl in *; lia.
Qed.

Lemma edge_between_sym edges a b : edge_between edges a b -> edge_between edges b a.
Proof. unfold edge_between. tauto. Qed.

Lemma is_tree_edge_range edges a b :
  is_tree edges -> edge_between edges a b ->
  a < length edges + 1 /\ b < length edges + 1 /\ a <> b.
Proof.
  intros [Hr _] [H|H]; rewrite Forall_forall in Hr;
    specialize (Hr _ H); simpl in Hr; lia.
Qed.

Lemma strip_inv_initial edges :
  is_tree edges ->
  exists neighbors,
    build_neighbors (length edges + 1) edges = Ok neighbors
    /\ strip_inv (length edges + 1) neighbors (initial_queue neighbors) []
         (seq 0 (length edges + 1)).
Proof.
  intros Htree. pose proof Htree as [Hr Hconn]. set (V := length edges + 1) in *.
  destruct (build_neighbors_spec V edges) as (nb & Hnb & Hlen & Hsum & Hmem).
  { eapply Forall_impl; [exact Hr|]. intros e. simpl. lia. }
  exists nb. split; [done|]. unfold initial_queue. rewrite Hlen. split.
  - done.
  - intros u. rewrite elem_of_seq. split; [|lia]. intros ?. split; [lia|].
    apply not_elem_of_nil.
  - apply NoDup_seq.
  - apply NoDup_nil_2.
  - apply NoDup_filter, NoDup_seq.
  - intros u w _ Hw. apply Hmem in Hw.
    destruct (is_tree_edge_range _ _ _ Htree Hw) as (? & ? & ?).
    split; [apply elem_of_seq; lia|]. split; [done|].
    by apply Hmem, edge_between_sym.
  - intros u Hu. rewrite list_elem_of_filter. tauto.
  - intros u [_ Hu]%list_elem_of_filter. done.
  - intros u w Hu%elem_of_seq Hw%elem_of_seq.
    eapply rtc_subrel; [|apply Hconn; lia].
    intros a b Hab. by apply Hmem.
  - intros _. rewrite length_seq, <- Hlen, sum_degree_seq. lia.
Qed.

Lemma reroute_around_leaf (neighbors neighbors' : list (gset nat)) v w
    (live : list nat) :
  w <> v ->
  (forall u x, u ∈ live -> x ∈ neighbors_of neighbors u ->
               x ∈ live /\ u ∈ neighbors_of neighbors x) ->
  neighbors_of neighbors v = {[w]} ->
  (forall u x, u <> v -> x <> v -> x ∈ neighbors_of neighbors u ->
               x ∈ neighbors_of neighbors' u) ->
  forall a b,
    rtc (fun a b => b ∈ neighbors_of neighbors a) a b ->
    a ∈ live -> b <> v ->
    (a <> v -> rtc (fun a b => b ∈ neighbors_of neighbors' a) a b)
    /\ (a = v -> rtc (fun a b => b ∈ neighbors_of neighbors' a) w b).
Proof.
  intros Hwv Hadj Hv Hkeep a b Hrtc.
  induction Hrtc as [a|a y b Hay Hyb IH]; intros Ha Hb.
  - split; [intros; apply rtc_refl | intros ->; done].
  - destruct (Hadj _ _ Ha Hay) as [Hy Hya].
    destruct (IH Hy Hb) as [IH1 IH2]. split.
    + intros Hav. destruct (decide (y = v)) as [->|Hyv].
      * rewrite Hv in Hya. apply elem_of_singleton in Hya as ->. by apply IH2.
      * eapply rtc_l; [|by apply IH1]. by apply Hkeep.
    + intros ->. rewrite Hv in Hay. apply elem_of_singleton in Hay as ->.
      by apply IH1.
Qed.

Lemma strip_step_isolated V neighbors v queue visited live :
  strip_inv V neighbors (v :: queue) visited live ->
  neighbors_of neighbors v = ∅ ->
  live = [v] /\ queue = []
  /\ strip_inv V neighbors [] (visited ++ [v]) [].
Proof.
  intros [Hlen Hlive Hnd Hvnd Hqnd Hadj Hq Hql Hconn Hcount] Hv.
  assert (v ∈ live) as Hvl by (apply Hql; left).
  assert (forall u, u ∈ live -> u = v) as Hall.
  { intros u Hu. pose proof (Hconn v u Hvl Hu) as Hrtc.
    inversion Hrtc as [|? y ? Hy _]; subst; [done|].
    rewrite Hv in Hy. by apply not_elem_of_empty in Hy. }
  assert (live = [v]) as -> by (by apply nodup_all_equal).
  assert (queue = []) as ->.
  { destruct queue as [|u q]; [done|]. exfalso.
    apply NoDup_cons in Hqnd as [Hnin _]. apply Hnin.
    rewrite <- (Hall u); [left|]. apply Hql. right. left. }
  split; [done|]. split; [done|].
  apply Hlive in Hvl as [HvV Hvv]. constructor.
  - done.
  - intros u. split; [by intros ?%elem_of_nil|]. intros [Hu Hnin].
    rewrite not_elem_of_app in Hnin. destruct Hnin as [Hnin Hne].
    assert (u ∈ [v]) as Hin by (by apply Hlive).
    apply list_elem_of_singleton in Hin. subst. exfalso. apply Hne. left.
  - apply NoDup_nil_2.
  - apply NoDup_app. split; [done|]. split; [|apply NoDup_singleton].
    intros x Hx ->%list_elem_of_singleton. done.
  - apply NoDup_nil_2.
  - intros u w Hu. by apply elem_of_nil in Hu.
  - intros u Hu. by apply elem_of_nil in Hu.
  - intros u Hu. by apply elem_of_nil in Hu.
  - intros u w Hu. by apply elem_of_nil in Hu.
  - done.
Qed.

Lemma strip_step_leaf V neighbors v w queue visited live :
  strip_inv V neighbors (v :: queue) visited live ->
  neighbors_of neighbors v = {[w]} ->
  exists sw live',
    neighbors !! w = Some sw
    /\ v ∈ sw
    /\ live ≡ₚ v :: live'
    /\ strip_inv V (<[w := sw ∖ {[v]}]> neighbors)
         (if decide (size (sw ∖ {[v]}) = 1) then queue ++ [w] else queue)
         (visited ++ [v]) live'.
Proof.
  intros [Hlen Hlive Hnd Hvnd Hqnd Hadj Hq Hql Hconn Hcount] Hv.
  assert (v ∈ live) as Hvl by (apply Hql; left).
  destruct (Hadj v w Hvl) as (Hwl & Hwv & Hvw).
  { rewrite Hv. by apply elem_of_singleton. }
  pose proof (proj1 (Hlive w) Hwl) as [HwV _].
  destruct (lookup_lt_is_Some_2 neighbors w) as [sw Hsw]; [lia|].
  rewrite (neighbors_of_lookup _ _ _ Hsw) in Hvw.
  destruct (proj1 (elem_of_Permutation live v) Hvl) as [live' Hperm].
  exists sw, live'. split; [done|]. split; [done|]. split; [done|].
  assert (NoDup (v :: live')) as Hnd' by (by rewrite <- Hperm).
  apply NoDup_cons in Hnd' as [Hvnin Hnd'].
  assert (forall u, u ∈ live' <-> u ∈ live /\ u <> v) as Hlive'.
  { intros u. rewrite Hperm, elem_of_cons. split.
    - intros Hu. split; [by right|]. by intros ->.
    - intros [[->|Hu] Hne]; done. }
  apply NoDup_cons in Hqnd as [Hvq Hqnd].
  set (sw' := sw ∖ {[v]}).
  assert (size sw = S (size sw')) as Hsize.
  { unfold sw'. pose proof (size_union_alt ({[v]} : gset nat) sw) as H.
    assert (({[v]} : gset nat) ∪ sw = sw) as Heq by set_solver.
    rewrite Heq, size_singleton in H. lia. }
  assert (forall u, neighbors_of (<[w := sw']> neighbors) u
                    = if decide (w = u) then sw' else neighbors_of neighbors u)
    as Hnb' by (intros; apply neighbors_of_insert; lia).
  assert (forall u, degree (<[w := sw']> neighbors) u
                    = if decide (w = u) then size sw' else degree neighbors u)
    as Hdeg'.
  { intros u. rewrite !degree_size, Hnb'. by case_decide. }
  assert (degree neighbors w = S (size sw')) as Hdegw.
  { by rewrite degree_size, (neighbors_of_lookup _ _ _ Hsw). }
  pose proof (proj1 (Hlive v) Hvl) as [HvV Hvvis].
  constructor.
  - by rewrite length_insert.
  - intros u. rewrite Hlive', Hlive, not_elem_of_app, list_elem_of_singleton.
    tauto.
  - done.
  - apply NoDup_app. split; [done|]. split; [|apply NoDup_singleton].
    intros x Hx ->%list_elem_of_singleton. done.
  - case_decide as Hone; [|done]. apply NoDup_app. split; [done|].
    split; [|apply NoDup_singleton].
    intros x Hx ->%list_elem_of_singleton.
    assert (degree neighbors w <= 1) as Hle by (apply Hq; [done|by right]).
    lia.
  - intros u x Hu Hx. apply Hlive' in Hu as [Hu Huv]. rewrite Hnb' in Hx.
    assert (x ∈ neighbors_of neighbors u /\ x <> v) as [Hx' Hxv].
    { case_decide as Hwu.
      - subst u. rewrite (neighbors_of_lookup _ _ _ Hsw). unfold sw' in Hx.
        set_solver.
      - split; [done|]. intros ->. destruct (Hadj _ _ Hu Hx) as (_ & _ & Hback).
        rewrite Hv in Hback. apply elem_of_singleton in Hback. by subst. }
    destruct (Hadj _ _ Hu Hx') as (Hxl & Hxu & Hux).
    split; [by apply Hlive'|]. split; [done|].
    rewrite Hnb'. destruct (decide (w = x)) as [<-|Hwx]; [|done].
    rewrite (neighbors_of_lookup _ _ _ Hsw) in Hux. unfold sw'. set_solver.
  - intros u Hu. apply Hlive' in Hu as [Hu Huv]. rewrite Hdeg'.
    specialize (Hq u Hu). rewrite elem_of_cons in Hq.
    destruct (decide (w = u)) as [->|Hwu].
    + case_decide as Hone.
      * rewrite elem_of_app, list_elem_of_singleton. split; [lia|]. by right.
      * split.
        -- intros Huq. assert (degree neighbors u <= 1) by (apply Hq; by right).
           lia.
        -- intros Hle. assert (u = v \/ u ∈ queue) as [?|?] by (apply Hq; lia);
             done.
    + assert (u ∈ (if decide (size sw' = 1) then queue ++ [w] else queue)
              <-> u ∈ queue) as ->.
      { case_decide; [|done]. rewrite elem_of_app, list_elem_of_singleton.
        split; [intros [?|?]; [done|by subst] | by left]. }
      rewrite <- Hq. split; [by right | intros [?|?]; done].
  - intros u Hu. apply Hlive'.
    assert (u ∈ queue \/ u = w) as [Huq| ->].
    { case_decide; [|by left].
      apply elem_of_app in Hu as [?|?%list_elem_of_singleton]; eauto. }
    + split; [apply Hql; by right|]. by intros ->.
    + done.
  - intros a b Ha Hb. apply Hlive' in Ha as [Ha Hav].
    apply Hlive' in Hb as [Hb Hbv].
    destruct (reroute_around_leaf neighbors (<[w := sw']> neighbors) v w live
                Hwv) with (a := a) (b := b) as [H _]; try done.
    + intros u x Hu Hx. destruct (Hadj _ _ Hu Hx) as (? & _ & ?). done.
    + intros u x Huv Hxv Hx. rewrite Hnb'. case_decide as Hwu; [|done].
      subst u. rewrite (neighbors_of_lookup _ _ _ Hsw) in Hx. unfold sw'.
      set_solver.
    + by apply Hconn.
    + by apply H.
  - intros _. assert (live <> []) as Hne by (intros ->; by apply elem_of_nil in Hvl).
    specialize (Hcount Hne).
    assert (w ∈ live') as Hwl' by (by apply Hlive').
    destruct (proj1 (elem_of_Permutation live' w) Hwl') as [rest Hperm'].
    assert (NoDup (w :: rest)) as Hnd'' by (by rewrite <- Hperm').
    apply NoDup_cons in Hnd'' as [Hwrest _].
    rewrite Hperm in Hcount. rewrite Hperm' in Hcount |- *.
    simpl in Hcount |- *. rewrite Hdeg', decide_True by done.
    rewrite (sum_list_with_ext (degree (<[w := sw']> neighbors))
               (degree neighbors) rest).
    2:{ intros u Hu. rewrite Hdeg'. case_decide; [by subst|done]. }
    assert (degree neighbors v = 1) as Hdv.
    { rewrite degree_size, Hv. apply size_singleton. }
    lia.
Qed.

Lemma strip_loop_visits V live :
  forall neighbors queue visited fuel,
    length live <= fuel ->
    strip_inv V neighbors queue visited live ->
    exists visited',
      strip_loop fuel neighbors queue (last visited) visited
      = Ok (last visited', visited')
      /\ visited' ≡ₚ visited ++ live.
Proof.
  remember (length live) as n eqn:Hn. revert live Hn.
  induction n as [|n IH]; intros live Hn neighbors queue visited fuel Hfuel Hinv.
  - destruct live; [|done]. destruct queue as [|v queue].
    + exists visited. simpl. destruct fuel; by rewrite app_nil_r.
    + pose proof (inv_queue_live _ _ _ _ _ Hinv v ltac:(left)) as Hv.
      by apply elem_of_nil in Hv.
  - destruct queue as [|v queue].
    { exfalso. assert (live <> []) as Hne by (by intros ->).
      destruct (exists_small_degree (degree neighbors) live Hne) as (u & Hu & Hdeg).
      { by apply (inv_count _ _ _ _ _ Hinv). }
      apply (inv_queue _ _ _ _ _ Hinv u Hu) in Hdeg. by apply elem_of_nil in Hdeg. }
    destruct fuel as [|fuel]; [lia|].
    pose proof (inv_queue_live _ _ _ _ _ Hinv v ltac:(left)) as Hv.
    pose proof (proj1 (inv_live _ _ _ _ _ Hinv v) Hv) as [HvV _].
    destruct (lookup_lt_is_Some_2 neighbors v) as [s Hs].
    { by rewrite (inv_length _ _ _ _ _ Hinv). }
    assert (size s <= 1) as Hsize.
    { rewrite <- (neighbors_of_lookup _ _ _ Hs), <- degree_size.
      apply (inv_queue _ _ _ _ _ Hinv v Hv). left. }
    cbn [strip_loop]. rewrite (getitem_lookup _ _ _ Hs). cbn [mbind res_bind].
    destruct (decide (size s = 0)) as [H0|H0].
    + rewrite (sorted_empty s H0). cbn [strip_vertex mbind res_bind].
      apply size_empty_inv, leibniz_equiv in H0. subst s.
      destruct (strip_step_isolated _ _ _ _ _ _ Hinv) as (-> & -> & Hinv').
      { by apply neighbors_of_lookup. }
      exists (visited ++ [v]). split; [|done].
      destruct fuel; simpl; by rewrite last_snoc.
    + destruct (sorted_singleton s) as (w & -> & Hsorted); [lia|].
      rewrite Hsorted.
      destruct (strip_step_leaf _ _ _ w _ _ _ Hinv) as (sw & live' & Hsw & Hvsw & Hperm & Hinv').
      { by apply neighbors_of_lookup. }
      cbn [strip_vertex]. rewrite (getitem_lookup _ _ _ Hsw).
      cbn [mbind res_bind]. unfold set_remove. rewrite decide_True by done.
      cbn [mbind res_bind].
      pose proof (Permutation_length Hperm) as Hlen. simpl in Hlen.
      destruct (IH live' ltac:(lia) _ _ _ fuel ltac:(lia) Hinv')
        as (visited' & Hloop & Hperm').
      exists visited'. rewrite last_snoc in Hloop. split; [exact Hloop|].
      rewrite Hperm', Hperm, <- app_assoc. done.
Qed.

Lemma strip_leaves_tree edges :
  is_tree edges ->
  exists c visited,
    strip_leaves edges = Ok (Some c, visited)
    /\ visited ≡ₚ seq 0 (length edges + 1)
    /\ last visited = Some c
    /\ find_center_of_tree edges = Ok c.
Proof.
  intros Htree.
  destruct (strip_inv_initial edges Htree) as (nb & Hnb & Hinv).
  destruct (strip_loop_visits (length edges + 1) (seq 0 (length edges + 1))
              nb (initial_queue nb) [] (strip_fuel (length edges + 1) edges))
    as (visited & Hloop & Hperm); [|exact Hinv|].
  { rewrite length_seq. unfold strip_fuel. lia. }
  change (last []) with (@None nat) in Hloop. rewrite app_nil_l in Hperm.
  assert (exists c, last visited = Some c) as [c Hc].
  { destruct (last visited) eqn:Hl; [eauto|]. apply last_None in Hl. subst.
    apply Permutation_length in Hperm. rewrite length_seq in Hperm.
    simpl in Hperm. lia. }
  exists c, visited.
  assert (strip_leaves edges = Ok (Some c, visited)) as Hstrip.
  { unfold strip_leaves. rewrite Hnb. cbn [mbind res_bind].
    by rewrite Hloop, Hc. }
  split; [done|]. split; [done|]. split; [done|].
  unfold find_center_of_tree. by rewrite Hstrip.
Qed.

Lemma path_state_lo lo hi neighbors :
  path_state lo hi neighbors -> lo < hi ->
  neighbors_of neighbors lo = {[S lo]}.
Proof.
  intros [_ H] Hlt. apply set_eq. intros w.
  rewrite (H lo) by lia. rewrite elem_of_singleton. lia.
Qed.

Lemma path_state_hi lo hi neighbors :
  path_state lo hi neighbors -> lo < hi ->
  neighbors_of neighbors hi = {[hi - 1]}.
Proof.
  intros [_ H] Hlt. apply set_eq. intros w.
  rewrite (H hi) by lia. rewrite elem_of_singleton. lia.
Qed.

Lemma path_state_lookup lo hi neighbors i :
  path_state lo hi neighbors -> i <= hi ->
  neighbors !! i = Some (neighbors_of neighbors i).
Proof.
  intros [Hlen _] Hi. unfold neighbors_of.
  destruct (lookup_lt_is_Some_2 neighbors i) as [s ->]; [lia|done].
Qed.

Lemma path_state_pop_lo lo hi neighbors :
  path_state lo hi neighbors -> lo < hi ->
  let sw' := neighbors_of neighbors (S lo) ∖ {[lo]} in
  lo ∈ neighbors_of neighbors (S lo)
  /\ sw' = (if decide (S (S lo) <= hi) then {[S (S lo)]} else ∅)
  /\ path_state (S lo) hi (<[S lo := sw']> neighbors).
Proof.
  intros Hst Hlt sw'. pose proof Hst as [Hlen H].
  assert (forall w, w ∈ sw' <-> w = S (S lo) /\ S (S lo) <= hi) as Hsw'.
  { intros w. unfold sw'. rewrite elem_of_difference, (H (S lo)) by lia.
    rewrite elem_of_singleton. lia. }
  split; [apply (H (S lo)); lia|]. split.
  - apply set_eq. intros w. rewrite Hsw'. case_decide.
    + rewrite elem_of_singleton. lia.
    + rewrite elem_of_empty. lia.
  - split; [by rewrite length_insert|]. intros i Hi w.
    rewrite neighbors_of_insert by lia. case_decide as Hlo.
    + subst i. rewrite Hsw'. lia.
    + rewrite (H i) by lia. lia.
Qed.

Lemma path_state_pop_hi lo hi neighbors :
  path_state lo hi neighbors -> lo < hi ->
  let sw' := neighbors_of neighbors (hi - 1) ∖ {[hi]} in
  hi ∈ neighbors_of neighbors (hi - 1)
  /\ sw' = (if decide (S lo <= hi - 1) then {[hi - 2]} else ∅)
  /\ path_state lo (hi - 1) (<[hi - 1 := sw']> neighbors).
Proof.
  intros Hst Hlt sw'. pose proof Hst as [Hlen H].
  assert (forall w, w ∈ sw' <-> w = hi - 2 /\ S lo <= hi - 1) as Hsw'.
  { intros w. unfold sw'. rewrite elem_of_difference, (H (hi - 1)) by lia.
    rewrite elem_of_singleton. lia. }
  split; [apply (H (hi - 1)); lia|]. split.
  - apply set_eq. intros w. rewrite Hsw'. case_decide.
    + rewrite elem_of_singleton. lia.
    + rewrite elem_of_empty. lia.
  - split; [rewrite length_insert; lia|]. intros i Hi w.
    rewrite neighbors_of_insert by lia. case_decide as Hlo.
    + subst i. rewrite Hsw'. lia.
    + rewrite (H i) by lia. lia.
Qed.

Lemma sorted_single x : sorted {[x]} = [x].
Proof.
  destruct (sorted_singleton {[x]}) as (w & Hw & Hs); [apply size_singleton|].
  rewrite Hs. f_equal. symmetry.
  assert (x ∈ ({[w]} : gset nat)) as H by (rewrite <- Hw; by apply elem_of_singleton).
  by apply elem_of_singleton in H.
Qed.

Lemma strip_loop_last_isolated fuel (neighbors : list (gset nat)) v v0 visited :
  neighbors !! v = Some ∅ ->
  strip_loop (S fuel) neighbors [v] v0 visited = Ok (Some v, visited ++ [v]).
Proof.
  intros Hv. cbn [strip_loop]. rewrite (getitem_lookup _ _ _ Hv).
  cbn [mbind res_bind]. rewrite (sorted_empty ∅) by apply size_empty.
  cbn [strip_vertex mbind res_bind]. by destruct fuel.
Qed.

Lemma half_of a q : a = 2 * q \/ a = 2 * q + 1 -> a / 2 = q.
Proof.
  intros [H|H]; symmetry.
  - apply (Nat.div_unique a 2 q 0); lia.
  - apply (Nat.div_unique a 2 q 1); lia.
Qed.

Lemma path_loop n :
  forall lo hi neighbors visited v fuel (lo_first : bool),
    hi = lo + S n -> n + 2 <= fuel ->
    path_state lo hi neighbors ->
    exists visited',
      strip_loop fuel neighbors (if lo_first then [lo; hi] else [hi; lo])
        v visited
      = Ok (Some (if lo_first then (lo + hi + 1) / 2 else (lo + hi) / 2),
            visited').
Proof.
  induction n as [|n IH]; intros lo hi nb visited v fuel lo_first Hhi Hfuel Hst;
    (destruct fuel as [|fuel]; [lia|]); destruct lo_first.
  - (* two vertices, [lo] first *)
    cbn [strip_loop].
    rewrite (getitem_lookup _ _ _ (path_state_lookup lo hi nb lo Hst ltac:(lia))).
    rewrite (path_state_lo lo hi nb Hst) by lia. cbn [mbind res_bind].
    rewrite sorted_single. cbn [strip_vertex].
    rewrite (getitem_lookup _ _ _ (path_state_lookup lo hi nb (S lo) Hst ltac:(lia))).
    cbn [mbind res_bind].
    destruct (path_state_pop_lo lo hi nb Hst) as (Hin & Hsw' & Hst'); [lia|].
    unfold set_remove. rewrite decide_True by done. cbn [mbind res_bind].
    rewrite Hsw', (decide_False (P := S (S lo) <= hi)) by lia.
    rewrite decide_False by (rewrite size_empty; lia).
    destruct fuel as [|fuel]; [lia|].
    replace hi with (S lo) by lia.
    rewrite strip_loop_last_isolated.
    + eexists. do 3 f_equal. symmetry. apply half_of. lia.
    + apply list_lookup_insert_eq. destruct Hst. lia.
  - (* two vertices, [hi] first *)
    cbn [strip_loop].
    rewrite (getitem_lookup _ _ _ (path_state_lookup lo hi nb hi Hst ltac:(lia))).
    rewrite (path_state_hi lo hi nb Hst) by lia. cbn [mbind res_bind].
    rewrite sorted_single. cbn [strip_vertex].
    rewrite (getitem_lookup _ _ _ (path_state_lookup lo hi nb (hi - 1) Hst ltac:(lia))).
    cbn [mbind res_bind].
    destruct (path_state_pop_hi lo hi nb Hst) as (Hin & Hsw' & Hst'); [lia|].
    unfold set_remove. rewrite decide_True by done. cbn [mbind res_bind].
    rewrite Hsw', (decide_False (P := S lo <= hi - 1)) by lia.
    rewrite decide_False by (rewrite size_empty; lia).
    destruct fuel as [|fuel]; [lia|].
    replace (hi - 1) with lo by lia.
    rewrite strip_loop_last_isolated.
    + eexists. do 3 f_equal. symmetry. apply half_of. lia.
    + apply list_lookup_insert_eq. destruct Hst. lia.
  - (* longer stretch, [lo] first *)
    cbn [strip_loop].
    rewrite (getitem_lookup _ _ _ (path_state_lookup lo hi nb lo Hst ltac:(lia))).
    rewrite (path_state_lo lo hi nb Hst) by lia. cbn [mbind res_bind].
    rewrite sorted_single. cbn [strip_vertex].
    rewrite (getitem_lookup _ _ _ (path_state_lookup lo hi nb (S lo) Hst ltac:(lia))).
    cbn [mbind res_bind].
    destruct (path_state_pop_lo lo hi nb Hst) as (Hin & Hsw' & Hst'); [lia|].
    unfold set_remove. rewrite decide_True by done. cbn [mbind res_bind].
    rewrite Hsw' in Hst' |- *.
    rewrite (decide_True (P := S (S lo) <= hi)) in Hst' |- * by lia.
    rewrite decide_True by apply size_singleton. cbn [app].
    destruct (IH (S lo) hi _ (visited ++ [lo]) (Some lo) fuel false
                ltac:(lia) ltac:(lia) Hst') as (visited' & ->).
    eexists. do 4 f_equal. lia.
  - (* longer stretch, [hi] first *)
    cbn [strip_loop].
    rewrite (getitem_lookup _ _ _ (path_state_lookup lo hi nb hi Hst ltac:(lia))).
    rewrite (path_state_hi lo hi nb Hst) by lia. cbn [mbind res_bind].
    rewrite sorted_single. cbn [strip_vertex].
    rewrite (getitem_lookup _ _ _ (path_state_lookup lo hi nb (hi - 1) Hst ltac:(lia))).
    cbn [mbind res_bind].
    destruct (path_state_pop_hi lo hi nb Hst) as (Hin & Hsw' & Hst'); [lia|].
    unfold set_remove. rewrite decide_True by done. cbn [mbind res_bind].
    rewrite Hsw' in Hst' |- *.
    rewrite (decide_True (P := S lo <= hi - 1)) in Hst' |- * by lia.
    rewrite decide_True by apply size_singleton. cbn [app].
    destruct (IH lo (hi - 1) _ (visited ++ [hi]) (Some hi) fuel true
                ltac:(lia) ltac:(lia) Hst') as (visited' & ->).
    eexists. do 4 f_equal. lia.
Qed.

Lemma path_edges_length V : length (path_edges V) = V - 1.
Proof. unfold path_edges. by rewrite length_map, length_seq. Qed.

Lemma path_edges_between V u w :
  edge_between (path_edges V) u w
  <-> (w = S u /\ u < V - 1) \/ (u = S w /\ w < V - 1).
Proof.
  unfold edge_between, path_edges. rewrite !list_elem_of_fmap. split.
  - intros [(i & Hi & Hin)|(i & Hi & Hin)]; apply elem_of_seq in Hin;
      simplify_eq; lia.
  - intros [[-> H]|[-> H]]; [left; exists u | right; exists w];
      (split; [done|apply elem_of_seq; lia]).
Qed.

Lemma size_ge_2 (s : gset nat) x y : x ∈ s -> y ∈ s -> x <> y -> 2 <= size s.
Proof.
  intros Hx Hy Hne.
  assert (size ({[x; y]} : gset nat) = 2) as <-.
  { rewrite size_union by set_solver. by rewrite !size_singleton. }
  apply subseteq_size. set_solver.
Qed.

Lemma filter_none {A : Type} (P : A -> Prop) `{forall x, Decision (P x)}
    (l : list A) :
  Forall (fun x => ~ P x) l -> filter P l = [].
Proof.
  induction 1 as [|x l Hx _ IH]; [done|]. by rewrite filter_cons_False.
Qed.

Lemma path_initial_queue V neighbors :
  2 <= V -> length neighbors = V -> path_state 0 (V - 1) neighbors ->
  initial_queue neighbors = [0; V - 1].
Proof.
  intros HV Hlen Hst. unfold initial_queue. rewrite Hlen.
  replace V with (1 + ((V - 2) + 1)) at 1 by lia.
  rewrite seq_app, seq_app. simpl.
  rewrite filter_cons_True.
  2:{ rewrite degree_size, (path_state_lo 0 (V - 1)) by (done || lia).
      by rewrite size_singleton. }
  f_equal. rewrite filter_app, filter_none.
  2:{ apply Forall_forall. intros i Hi%elem_of_seq.
      rewrite degree_size. destruct Hst as [_ H].
      assert (2 <= size (neighbors_of neighbors i)); [|lia].
      apply (size_ge_2 _ (i - 1) (S i)); [apply H; lia..|lia]. }
  simpl. rewrite filter_cons_True.
  2:{ rewrite degree_size.
      replace (S (V - 2)) with (V - 1) by lia.
      rewrite (path_state_hi 0 (V - 1)) by (done || lia).
      by rewrite size_singleton. }
  f_equal. lia.
Qed.

Lemma find_center_of_path V :
  1 <= V -> find_center_of_tree (path_edges V) = Ok (V / 2).
Proof.
  intros HV. destruct (decide (V = 1)) as [->|HV1]; [by vm_compute|].
  unfold find_center_of_tree, strip_leaves. rewrite path_edges_length.
  replace (V - 1 + 1) with V by lia.
  destruct (build_neighbors_spec V (path_edges V)) as (nb & -> & Hlen & _ & Hmem).
  { apply Forall_forall. intros [a b] Hin.
    assert (edge_between (path_edges V) a b) as He by (by left).
    apply path_edges_between in He. simpl. lia. }
  cbn [mbind res_bind].
  assert (path_state 0 (V - 1) nb) as Hst.
  { split; [lia|]. intros i Hi w. rewrite Hmem, path_edges_between. lia. }
  rewrite (path_initial_queue V) by (done || lia).
  destruct (path_loop (V - 2) 0 (V - 1) nb [] None (strip_fuel V (path_edges V))
              true) as (visited & Hloop); [lia| |done|].
  { unfold strip_fuel. lia. }
  rewrite Hloop. cbn [mbind res_bind]. do 2 f_equal. lia.
Qed.

Lemma is_tree_path3 : is_tree path3.
Proof.
  split; [repeat constructor; simpl; lia|].
  assert (edge_between path3 0 1) as H01 by (left; repeat constructor).
  assert (edge_between path3 1 2) as H12 by (left; right; left).
  pose proof (edge_between_sym _ _ _ H01) as H10.
  pose proof (edge_between_sym _ _ _ H12) as H21.
  intros u w Hu Hw. simpl in Hu, Hw.
  assert (u = 0 \/ u = 1 \/ u = 2) as [->|[->| ->]] by lia;
    assert (w = 0 \/ w = 1 \/ w = 2) as [->|[->| ->]] by lia;
    eauto using rtc_refl, rtc_l, rtc_once.
Qed.

(** C5. On every tree, [find_center_of_tree] pops each of the [V] vertices
    exactly once before its loop ends, and returns the last one popped.  On
    the path [0 - 1 - ... - (V-1)] it returns the vertex [V / 2], which is
    [floor((V-1)/2)] or [ceil((V-1)/2)]; on the edges [[0,1],[1,2]] it returns
    vertex 1. *)
Theorem find_center_of_tree_strips_all :
  (forall edges,
     is_tree edges ->
     exists c visited,
       strip_leaves edges = Ok (Some c, visited)
       /\ visited ≡ₚ seq 0 (length edges + 1)
       /\ last visited = Some c
       /\ find_center_of_tree edges = Ok c)
  /\ (forall V, 1 <= V ->
        exists c, find_center_of_tree (path_edges V) = Ok c
                  /\ (c = (V - 1) / 2 \/ c = (V - 1 + 1) / 2))
  /\ find_center_of_tree [(0, 1); (1, 2)] = Ok 1.
Proof.
  split; [exact strip_leaves_tree|]. split.
  - intros V HV. exists (V / 2). split; [by apply find_center_of_path|].
    right. f_equal. lia.
  - by vm_compute.
Qed.

Lemma find_center_of_tree_strips_all_witness :
  exists visited,
    strip_leaves path3 = Ok (Some 1, visited) /\ visited ≡ₚ [0; 1; 2].
Proof.
  destruct find_center_of_tree_strips_all as [H _].
  destruct (H path3 is_tree_path3) as (c & visited & Hstrip & Hperm & _ & Hc).
  exists visited. vm_compute in Hc. injection Hc as <-.
  split; [exact Hstrip | exact Hperm].
Defined.

(** ** C10: [print_tree] *)

Lemma rtree_induction (P : rtree -> Prop) :
  (forall v kids, Forall P kids -> P (Node v kids)) -> forall t, P t.
Proof.
  intros H. fix IH 1. intros [v kids]. apply H.
  induction kids as [|k kids IHkids]; constructor; [apply IH | exact IHkids].
Qed.

Lemma reverse_concat {A : Type} (ls : list (list A)) :
  reverse (concat ls) = concat (map reverse (reverse ls)).
Proof.
  induction ls as [|l ls IH]; [done|]. simpl.
  rewrite reverse_app, IH, reverse_cons, map_app, concat_app. simpl.
  by rewrite app_nil_r.
Qed.

Lemma reverse_postorder_desc t :
  forall depth, reverse (postorder_desc depth t) = preorder depth t.
Proof.
  induction t as [v kids IH] using rtree_induction. intros depth. simpl.
  rewrite reverse_app, reverse_singleton. simpl. f_equal.
  rewrite reverse_concat, reverse_involutive, map_map. f_equal.
  apply map_ext_Forall. eapply Forall_impl; [exact IH|]. simpl. eauto.
Qed.

Lemma turns_vertices t : turns t + 1 = 2 * length (vertices t).
Proof.
  induction t as [v kids IH] using rtree_induction. simpl.
  assert (sum_list_with (fun k => S (turns k)) kids
          = 2 * length (concat (map vertices kids))) as ->; [|lia].
  induction IH as [|k kids Hk _ IHkids]; [done|]. simpl.
  rewrite length_app. lia.
Qed.

Lemma first_unseen_max (seen s : gset nat) c :
  c ∈ s -> c ∉ seen -> (forall x, x ∈ s -> c < x -> x ∈ seen) ->
  first_unseen seen (reverse (sorted s)) = Some c.
Proof.
  intros Hc Hnew Hmax. unfold first_unseen.
  assert (StronglySorted le (sorted s)) as Hsorted.
  { apply StronglySorted_merge_sort; apply _. }
  assert (forall x, x ∈ sorted s <-> x ∈ s) as Hmem.
  { intros x. by rewrite sorted_perm, elem_of_elements. }
  assert (c ∈ sorted s) as Hc' by (by apply Hmem).
  assert (forall x, x ∈ sorted s -> c < x -> x ∈ seen) as Hmax'
    by (intros x Hx; by apply Hmax, Hmem).
  clear Hmem Hc Hmax. revert Hsorted Hc' Hmax'.
  induction (sorted s) as [|a l IH] using rev_ind; intros Hsorted Hc Hmax.
  - by apply elem_of_nil in Hc.
  - rewrite reverse_snoc. destruct (decide (a ∈ seen)) as [Ha|Ha].
    + rewrite filter_cons_False by (by intros ?).
      apply elem_of_app in Hc as [Hc|Hc%list_elem_of_singleton]; [|by subst].
      apply IH; [by eapply StronglySorted_app_1_l | done |].
      intros x Hx. apply Hmax. apply elem_of_app. by left.
    + rewrite filter_cons_True by done. simpl. f_equal.
      apply elem_of_app in Hc as [Hc|Hc%list_elem_of_singleton]; [|done].
      pose proof (StronglySorted_app_1_elem_of le l [a] c a Hsorted Hc
                    ltac:(left)) as Hle.
      destruct (decide (c = a)) as [->|Hne]; [done|].
      exfalso. apply Ha, Hmax; [|lia]. apply elem_of_app. right. left.
Qed.

Lemma first_unseen_none (seen s : gset nat) :
  (forall x, x ∈ s -> x ∈ seen) ->
  first_unseen seen (reverse (sorted s)) = None.
Proof.
  intros H. unfold first_unseen. rewrite filter_none; [done|].
  apply Forall_forall. intros x Hx Hnin. apply Hnin, H.
  rewrite elem_of_reverse, sorted_perm in Hx.
  by apply elem_of_elements in Hx.
Qed.

Lemma add_edges_length edges : forall neighbors nb,
  add_edges neighbors edges = Ok nb -> length nb = length neighbors.
Proof.
  induction edges as [|[a b] edges IH]; intros neighbors nb H; simpl in H.
  - by simplify_eq.
  - apply bind_Ok in H as (nb1 & H1 & H).
    apply IH in H. rewrite H. unfold add_edge in H1.
    apply bind_Ok in H1 as (s1 & _ & H1).
    apply bind_Ok in H1 as (s2 & _ & H1). simplify_eq.
    by rewrite !length_insert.
Qed.

Lemma rooted_inv neighbors parent v kids :
  rooted neighbors parent (Node v kids) ->
  neighbors !! v
  = Some (list_to_set (map root_of kids)
          ∪ match parent with Some p => {[p]} | None => ∅ end)
  /\ StronglySorted lt (map root_of kids)
  /\ Forall (rooted neighbors (Some v)) kids.
Proof. by inversion 1. Qed.

Lemma root_in_vertices t : root_of t ∈ vertices t.
Proof. destruct t. left. Qed.

Lemma names_getitem (feature_names : list string) v :
  v < length feature_names ->
  getitem feature_names v = Ok (nth v feature_names EmptyString).
Proof.
  intros Hv. destruct (lookup_lt_is_Some_2 feature_names v Hv) as [n Hn].
  by rewrite (getitem_lookup _ _ _ Hn), nth_lookup, Hn.
Qed.

Lemma print_loop_subtree feature_names neighbors t :
  forall parent rest seen lines fuel,
    rooted neighbors parent t ->
    NoDup (vertices t) ->
    root_of t ∈ seen ->
    (forall p, parent = Some p -> p ∈ seen) ->
    (forall u, u ∈ vertices t -> u <> root_of t -> u ∉ seen) ->
    (forall u, u ∈ vertices t -> u < length feature_names) ->
    print_loop (turns t + fuel) feature_names neighbors (root_of t :: rest)
      seen lines
    = print_loop fuel feature_names neighbors rest
        (seen ∪ list_to_set (vertices t))
        (lines ++ labelled feature_names (postorder_desc (length rest) t)).
Proof.
  induction t as [v kids IH] using rtree_induction.
  intros parent rest seen0 lines0 fuel0 Hrooted Hnodup Hv Hparent Hfresh Hrange.
  apply rooted_inv in Hrooted as (Hs & Hsorted & Hkids).
  simpl in Hnodup, Hv, Hfresh, Hrange. apply NoDup_cons in Hnodup as [Hvnin Hnodup].
  set (s := list_to_set (map root_of kids)
            ∪ match parent with Some p => {[p]} | None => ∅ end) in *.
  set (d := length rest).
  assert (forall todo done_ seen lines fuel,
    kids = todo ++ done_ ->
    seen0 ⊆ seen ->
    (forall k, k ∈ done_ -> root_of k ∈ seen) ->
    (forall u, u ∈ concat (map vertices todo) -> u ∉ seen) ->
    print_loop (S (sum_list_with (fun k => S (turns k)) todo) + fuel)
      feature_names neighbors (v :: rest) seen lines
    = print_loop fuel feature_names neighbors rest
        (seen ∪ list_to_set (concat (map vertices todo)))
        (lines ++ labelled feature_names
           (concat (reverse (map (postorder_desc (S d)) todo)) ++ [(d, v)])))
    as Hinner.
  { induction todo as [|k todo IHtodo] using rev_ind;
      intros done_ seen lines fuel Hsplit Hseen Hdone Htodo.
    - simpl in Hsplit. subst done_. cbn [sum_list_with plus print_loop].
      rewrite (getitem_lookup _ _ _ Hs). cbn [mbind res_bind].
      rewrite first_unseen_none.
      2:{ intros x [Hx|Hx]%elem_of_union.
          - apply elem_of_list_to_set, list_elem_of_fmap in Hx as (k & -> & Hk).
            by apply Hdone.
          - apply Hseen. destruct parent as [p|].
            + apply elem_of_singleton in Hx as ->. by apply Hparent.
            + by apply elem_of_empty in Hx. }
      rewrite names_getitem by (apply Hrange; left). cbn [mbind res_bind].
      f_equal. simpl. set_solver.
    - assert (k ∈ kids) as Hk.
      { rewrite Hsplit. apply elem_of_app. left. apply elem_of_app. right. left. }
      rewrite Forall_forall in IH. rewrite Forall_forall in Hkids.
      rewrite map_app, concat_app in Htodo. simpl in Htodo.
      rewrite app_nil_r in Htodo.
      assert (NoDup (concat (map vertices todo) ++ vertices k)) as Hnd.
      { rewrite Hsplit in Hnodup.
        rewrite !map_app, !concat_app in Hnodup. simpl in Hnodup.
        rewrite app_nil_r in Hnodup. by apply NoDup_app in Hnodup as [? _]. }
      apply NoDup_app in Hnd as (Hnd1 & Hdisj & Hnd2).
      rewrite sum_list_with_app. cbn [sum_list_with].
      match goal with
      | |- print_loop ?f _ _ _ _ _ = _ =>
          replace f
            with (S (turns k
                     + (S (sum_list_with (fun k0 => S (turns k0)) todo) + fuel)))
            by lia
      end.
      cbn [print_loop]. rewrite (getitem_lookup _ _ _ Hs). cbn [mbind res_bind].
      rewrite (first_unseen_max seen s (root_of k)).
      2:{ apply elem_of_union. left.
          apply elem_of_list_to_set, list_elem_of_fmap. eauto. }
      2:{ apply Htodo, elem_of_app. right. apply root_in_vertices. }
      2:{ intros x [Hx|Hx]%elem_of_union Hlt.
          - apply elem_of_list_to_set in Hx. rewrite Hsplit in Hx, Hsorted.
            rewrite !map_app in Hx, Hsorted. simpl in Hx, Hsorted.
            rewrite <- app_assoc in Hx, Hsorted. simpl in Hx, Hsorted.
            apply elem_of_app in Hx as [Hx|Hx].
            + pose proof (StronglySorted_app_1_elem_of lt _ _ x (root_of k)
                            Hsorted Hx ltac:(left)). lia.
            + apply elem_of_cons in Hx as [->|Hx]; [lia|].
              apply list_elem_of_fmap in Hx as (k' & -> & Hk'). by apply Hdone.
          - apply Hseen. destruct parent as [p|].
            + apply elem_of_singleton in Hx as ->. by apply Hparent.
            + by apply elem_of_empty in Hx. }
      rewrite (IH k Hk (Some v) (v :: rest)).
      2:{ by apply Hkids. }
      2:{ done. }
      2:{ apply elem_of_union. right. by apply elem_of_singleton. }
      2:{ intros p [= <-]. apply elem_of_union. left. by apply Hseen. }
      2:{ intros u Hu Hne [Hin|Hin%elem_of_singleton]%elem_of_union; [|done].
          apply (Htodo u); [|done]. apply elem_of_app. by right. }
      2:{ intros u Hu. apply Hrange. right. rewrite Hsplit.
          rewrite !map_app, !concat_app. simpl.
          apply elem_of_app. left. apply elem_of_app. right.
          apply elem_of_app. by left. }
      rewrite (IHtodo (k :: done_)).
      2:{ by rewrite Hsplit, <- app_assoc. }
      2:{ set_solver. }
      2:{ intros k' [->|Hk']%elem_of_cons.
          - apply elem_of_union. left. apply elem_of_union. right.
            by apply elem_of_singleton.
          - apply elem_of_union. left. apply elem_of_union. left. by apply Hdone. }
      2:{ intros u Hu [[Hin|Hin%elem_of_singleton]%elem_of_union
                      |Hin%elem_of_list_to_set]%elem_of_union.
          - apply (Htodo u); [|done]. apply elem_of_app. by left.
          - apply (Hdisj u Hu). subst u. apply root_in_vertices.
          - by apply (Hdisj u Hu). }
      f_equal.
      + rewrite map_app, concat_app. simpl. rewrite app_nil_r.
        rewrite list_to_set_app_L.
        pose proof (root_in_vertices k). set_solver.
      + rewrite map_app, reverse_app. simpl. unfold labelled.
        rewrite !map_app, <- !app_assoc. done. }
  cbn [turns root_of vertices postorder_desc].
  rewrite (Hinner kids [] seen0 lines0 fuel0); try done.
  - f_equal. set_solver.
  - by rewrite app_nil_r.
  - intros k Hk. by apply elem_of_nil in Hk.
  - intros u Hu. apply Hfresh; [by right|]. intros ->. done.
Qed.

Lemma elem_of_concat {A : Type} (x : A) (ls : list (list A)) :
  x ∈ concat ls <-> exists l, x ∈ l /\ l ∈ ls.
Proof.
  induction ls as [|l ls IH]; simpl.
  - split; [by intros ?%elem_of_nil | by intros (? & _ & ?%elem_of_nil)].
  - rewrite elem_of_app, IH. split.
    + intros [?|(l' & ? & ?)]; [exists l | exists l']; split; try done;
        [left | by right].
    + intros (l' & Hx & [->|?]%elem_of_cons); [by left | right; eauto].
Qed.

Lemma rooted_range neighbors t :
  forall parent, rooted neighbors parent t ->
  forall u, u ∈ vertices t -> u < length neighbors.
Proof.
  induction t as [v kids IH] using rtree_induction.
  intros parent (Hs & _ & Hkids)%rooted_inv u Hu. simpl in Hu.
  apply elem_of_cons in Hu as [->|Hu]; [by apply lookup_lt_Some in Hs|].
  apply elem_of_concat in Hu as (l & Hu & Hl).
  apply list_elem_of_fmap in Hl as (k & -> & Hk).
  rewrite Forall_forall in IH. rewrite Forall_forall in Hkids.
  by apply (IH k Hk (Some v)); [apply Hkids|].
Qed.

Lemma nodup_below_length (l : list nat) n :
  NoDup l -> (forall u, u ∈ l -> u < n) -> length l <= n.
Proof.
  intros Hnd Hlt. transitivity (length (seq 0 n)); [|by rewrite length_seq].
  apply submseteq_length.
  apply NoDup_submseteq; [done|]. intros u Hu. apply elem_of_seq.
  specialize (Hlt u Hu). lia.
Qed.

Lemma print_loop_done fuel feature_names neighbors seen lines :
  print_loop fuel feature_names neighbors [] seen lines = Ok lines.
Proof. by destruct fuel. Qed.

(** C10, as the code has it. [print_tree] returns the depth-indented
    depth-first listing of the tree below [feature_names.index(root)], where
    [root] defaults to the name of the computed centre: every vertex comes
    before its subtrees, and the children of a vertex come in increasing
    order of their vertex ids, whatever their names. *)
Theorem print_tree_lists_preorder edges feature_names root root_name
    neighbors t :
  resolve_root edges feature_names root = Ok root_name ->
  build_neighbors (length feature_names) edges = Ok neighbors ->
  index feature_names root_name = Ok (root_of t) ->
  rooted neighbors None t ->
  NoDup (vertices t) ->
  print_tree_lines edges feature_names root
  = Ok (labelled feature_names (preorder 0 t))
  /\ print_tree edges feature_names root
     = Ok (render (labelled feature_names (preorder 0 t)))
  /\ (root = None ->
      exists c, find_center_of_tree edges = Ok c
                /\ feature_names !! c = Some root_name).
Proof.
  intros Hroot Hnb Hindex Hrooted Hnodup.
  assert (length neighbors = length feature_names) as Hlen.
  { unfold build_neighbors in Hnb. apply add_edges_length in Hnb.
    by rewrite length_replicate in Hnb. }
  assert (forall u, u ∈ vertices t -> u < length feature_names) as Hrange.
  { intros u Hu. rewrite <- Hlen. by eapply rooted_range. }
  assert (print_tree_lines edges feature_names root
          = Ok (labelled feature_names (preorder 0 t))) as Hlines.
  { unfold print_tree_lines. rewrite Hroot. cbn [mbind res_bind].
    rewrite Hnb. cbn [mbind res_bind]. rewrite Hindex. cbn [mbind res_bind].
    pose proof (turns_vertices t) as Hturns.
    pose proof (nodup_below_length _ _ Hnodup Hrange) as Hsize.
    replace (print_fuel feature_names)
      with (turns t + (print_fuel feature_names - turns t))
      by (unfold print_fuel; lia).
    rewrite (print_loop_subtree feature_names neighbors t None []); try done.
    - rewrite print_loop_done. cbn [mbind res_bind app length].
      unfold labelled. by rewrite <- fmap_reverse, reverse_postorder_desc.
    - by apply elem_of_singleton.
    - intros u _ Hne Hin%elem_of_singleton. done. }
  split; [done|]. split.
  - unfold print_tree. by rewrite Hlines.
  - intros ->. unfold resolve_root in Hroot.
    apply bind_Ok in Hroot as (? & _ & Hroot).
    apply bind_Ok in Hroot as (rn & Hrn & Hroot).
    apply bind_Ok in Hrn as (c & Hc & Hrn).
    apply bind_Ok in Hroot as (? & _ & Hroot). simplify_eq.
    exists c. split; [done|]. by apply getitem_Ok.
Qed.

Lemma rooted_star3 : rooted star3_neighbors None star3_tree.
Proof.
  constructor.
  - reflexivity.
  - repeat constructor.
  - repeat constructor.
Qed.

Lemma print_tree_lists_preorder_witness :
  print_tree star3 names_abc None
  = Ok (render [(0, "a"); (1, "b"); (1, "c")]%string).
Proof.
  apply (print_tree_lists_preorder star3 names_abc None "a"%string
           star3_neighbors star3_tree).
  - vm_compute. reflexivity.
  - vm_compute. reflexivity.
  - reflexivity.
  - exact rooted_star3.
  - simpl. by apply (bool_decide_unpack _).
Defined.

(** The listing of the code against the listing the spec words, on the star
    with centre 0 and leaves 1 and 2.  With the names "a", "b", "c" the code
    lists "b" before "c", where the reverse-lexicographic order of the names
    lists "c" first; with the names of the leaves exchanged the code still
    lists vertex 1 before vertex 2. *)
Lemma print_tree_not_by_names :
  build_neighbors 3 star3 = Ok star3_neighbors
  /\ print_tree star3 names_abc None
     = Ok (render [(0, "a"); (1, "b"); (1, "c")]%string)
  /\ spec_print_tree star3_neighbors names_abc 0
     = render [(0, "a"); (1, "c"); (1, "b")]%string
  /\ print_tree star3 names_abc None
     <> Ok (spec_print_tree star3_neighbors names_abc 0)
  /\ print_tree star3 names_acb None
     = Ok (render [(0, "a"); (1, "c"); (1, "b")]%string).
Proof.
  split; [by vm_compute|]. split; [by vm_compute|]. split; [by vm_compute|].
  split; [|by vm_compute]. vm_compute. intros [=].
Qed.

(** ** The fuel of the loops is never exhausted *)

Lemma add_edges_sum edges : forall neighbors nb,
  add_edges neighbors edges = Ok nb ->
  sum_list_with size nb <= sum_list_with size neighbors + 2 * length edges.
Proof.
  induction edges as [|[a b] edges IH]; intros neighbors nb H; simpl in H.
  - simplify_eq. lia.
  - apply bind_Ok in H as (nb1 & H1 & H). apply IH in H.
    unfold add_edge in H1.
    apply bind_Ok in H1 as (s1 & Hs1%getitem_Ok & H1).
    apply bind_Ok in H1 as (s2 & Hs2%getitem_Ok & H1). simplify_eq.
    pose proof (sum_sizes_insert _ _ _ (s1 ∪ {[b]}) Hs1) as E1.
    pose proof (sum_sizes_insert _ _ _ (s2 ∪ {[a]}) Hs2) as E2.
    pose proof (size_add_le s1 b). pose proof (size_add_le s2 a).
    simpl. lia.
Qed.

Lemma strip_vertex_measure v vs : forall neighbors queue,
  match strip_vertex v vs neighbors queue with
  | Ok (nb, q) =>
      length q + sum_list_with size nb
      <= length queue + sum_list_with size neighbors
  | Raise _ => True
  | OutOfFuel => False
  end.
Proof.
  induction vs as [|v2 vs IH]; intros neighbors queue; simpl; [lia|].
  destruct (getitem neighbors v2) as [s| |] eqn:Hs; simpl; [|done|].
  2:{ unfold getitem in Hs. by destruct (neighbors !! v2). }
  apply getitem_Ok in Hs. unfold set_remove.
  destruct (decide (v ∈ s)) as [Hv|Hv]; simpl; [|done].
  specialize (IH (<[v2 := s ∖ {[v]}]> neighbors)
                (if decide (size (s ∖ {[v]}) = 1) then queue ++ [v2] else queue)).
  destruct (strip_vertex v vs _ _) as [[nb q]| |]; [|done|done].
  pose proof (sum_sizes_insert _ _ _ (s ∖ {[v]}) Hs) as E.
  assert (size s = S (size (s ∖ {[v]}))) as Hsize.
  { pose proof (size_union_alt ({[v]} : gset nat) s) as H.
    assert (({[v]} : gset nat) ∪ s = s) as Heq by set_solver.
    rewrite Heq, size_singleton in H. lia. }
  assert (length (if decide (size (s ∖ {[v]}) = 1) then queue ++ [v2] else queue)
          <= S (length queue)) as Hq.
  { case_decide; [rewrite length_app; simpl; lia | lia]. }
  lia.
Qed.

Lemma strip_loop_fuel fuel : forall neighbors queue v visited,
  length queue + sum_list_with size neighbors < fuel ->
  strip_loop fuel neighbors queue v visited <> OutOfFuel.
Proof.
  induction fuel as [|fuel IH]; intros neighbors queue v visited Hfuel; [lia|].
  destruct queue as [|v' queue]; [done|]. cbn [strip_loop].
  destruct (getitem neighbors v') as [s| |] eqn:Hs; simpl; [|done|].
  2:{ unfold getitem in Hs. by destruct (neighbors !! v'). }
  pose proof (strip_vertex_measure v' (sorted s) neighbors queue) as Hm.
  destruct (strip_vertex v' (sorted s) neighbors queue) as [[nb q]| |];
    simpl; [|done|done].
  apply IH. simpl in Hfuel. lia.
Qed.

Lemma find_center_of_tree_fuel edges : find_center_of_tree edges <> OutOfFuel.
Proof.
  unfold find_center_of_tree, strip_leaves.
  destruct (build_neighbors (length edges + 1) edges) as [nb| |] eqn:Hnb;
    cbn [mbind res_bind]; [|done|].
  2:{ exfalso. revert Hnb. unfold build_neighbors.
      generalize (replicate (length edges + 1) (∅ : gset nat)).
      induction edges as [|[a b] es IH]; intros l H; simpl in H; [done|].
      unfold add_edge in H.
      destruct (getitem l a) as [s1| |] eqn:H1; simpl in H; [|done|].
      2:{ unfold getitem in H1. by destruct (l !! a). }
      destruct (getitem (<[a:=s1 ∪ {[b]}]> l) b) as [s2| |] eqn:H2; simpl in H;
        [|done|].
      2:{ unfold getitem in H2. by destruct (_ !! b). }
      by eapply IH. }
  pose proof (strip_loop_fuel (strip_fuel (length edges + 1) edges) nb
                (initial_queue nb) None []) as Hloop.
  destruct (strip_loop _ nb (initial_queue nb) None []) as [[[c|] visited]| |];
    cbn [mbind res_bind]; try done.
  exfalso. apply Hloop; [|reflexivity].
  pose proof (add_edges_sum _ _ _ Hnb) as Hsum.
  pose proof (add_edges_length _ _ _ Hnb) as Hlen.
  rewrite length_replicate in Hlen.
  assert (sum_list_with size (replicate (length edges + 1) (∅ : gset nat)) = 0)
    as H0.
  { generalize (length edges + 1). intros n.
    induction n as [|n IHn]; [done|]. simpl. exact IHn. }
  assert (length (initial_queue nb) <= length edges + 1) as Hq.
  { unfold initial_queue. rewrite Hlen.
    etrans; [apply length_filter|]. by rewrite length_seq. }
  unfold strip_fuel. lia.
Qed.

Lemma add_edges_range edges : forall neighbors nb,
  add_edges neighbors edges = Ok nb ->
  Forall (fun s : gset nat => forall x, x ∈ s -> x < length neighbors) neighbors ->
  Forall (fun s : gset nat => forall x, x ∈ s -> x < length neighbors) nb.
Proof.
  induction edges as [|[a b] edges IH]; intros neighbors nb H Hr; simpl in H.
  - by simplify_eq.
  - apply bind_Ok in H as (nb1 & H1 & H).
    assert (length nb1 = length neighbors) as Hlen1.
    { apply (add_edges_length [(a, b)]). simpl. by rewrite H1. }
    rewrite <- Hlen1. apply (IH nb1 nb H). rewrite Hlen1.
    unfold add_edge in H1.
    apply bind_Ok in H1 as (s1 & Hs1%getitem_Ok & H1).
    apply bind_Ok in H1 as (s2 & Hs2%getitem_Ok & H1). simplify_eq.
    pose proof (lookup_lt_Some _ _ _ Hs1) as Ha.
    pose proof (lookup_lt_Some _ _ _ Hs2) as Hb.
    rewrite length_insert in Hb.
    assert (Forall (fun s : gset nat => forall x, x ∈ s -> x < length neighbors)
              (<[a := s1 ∪ {[b]}]> neighbors)) as Hr1.
    { apply Forall_insert; [done|]. intros x [Hx|Hx]%elem_of_union.
      - rewrite Forall_lookup in Hr. by apply (Hr _ _ Hs1).
      - apply elem_of_singleton in Hx. by subst. }
    apply Forall_insert; [done|]. intros x [Hx|Hx]%elem_of_union.
    + rewrite Forall_lookup in Hr1. by apply (Hr1 _ _ Hs2).
    + apply elem_of_singleton in Hx. by subst.
Qed.

Lemma filter_ext_elem_of {A : Type} (P Q : A -> Prop)
    `{forall x, Decision (P x)} `{forall x, Decision (Q x)} (l : list A) :
  (forall x, x ∈ l -> P x <-> Q x) -> filter P l = filter Q l.
Proof.
  induction l as [|a l IH]; intros Hext; [done|].
  assert (filter P l = filter Q l) as E by (apply IH; intros; apply Hext; by right).
  destruct (decide (P a)) as [Ha|Ha].
  - rewrite !filter_cons_True; [by rewrite E | by apply Hext; [left|] | done].
  - rewrite !filter_cons_False; [done | | done].
    intros HQ. apply Ha, Hext; [left|done].
Qed.

Lemma unseen_insert (seen : gset nat) n (l : list nat) :
  NoDup l -> n ∈ l -> n ∉ seen ->
  S (length (filter (fun u => u ∉ seen ∪ {[n]}) l))
  = length (filter (fun u => u ∉ seen) l).
Proof.
  intros Hnd Hn Hnew. induction Hnd as [|a l Ha Hnd IH].
  - by apply elem_of_nil in Hn.
  - apply elem_of_cons in Hn as [<-|Hn].
    + rewrite filter_cons_False by set_solver.
      rewrite (filter_cons_True (fun u => u ∉ seen)) by done. simpl. f_equal.
      f_equal. apply filter_ext_elem_of. intros x Hx.
      assert (x <> n) by (intros ->; done). set_solver.
    + assert (a <> n) as Hne by (intros ->; done).
      destruct (decide (a ∈ seen)) as [Has|Has].
      * rewrite !filter_cons_False by set_solver. by apply IH.
      * rewrite !filter_cons_True by set_solver. simpl. f_equal. by apply IH.
Qed.

Lemma first_unseen_Some seen candidates n :
  first_unseen seen candidates = Some n -> n ∈ candidates /\ n ∉ seen.
Proof.
  unfold first_unseen. intros H. apply head_Some in H as [l Hl].
  assert (n ∈ filter (fun u => u ∉ seen) candidates) as Hin
    by (rewrite Hl; left).
  by apply list_elem_of_filter in Hin as [? ?].
Qed.

Lemma print_loop_fuel feature_names (neighbors : list (gset nat)) fuel :
  Forall (fun s : gset nat => forall x, x ∈ s -> x < length neighbors) neighbors ->
  forall stack seen lines,
    2 * length (filter (fun u => u ∉ seen) (seq 0 (length neighbors)))
    + length stack < fuel ->
    print_loop fuel feature_names neighbors stack seen lines <> OutOfFuel.
Proof.
  intros Hr. induction fuel as [|fuel IH]; intros stack seen lines Hfuel; [lia|].
  destruct stack as [|top rest]; [done|]. cbn [print_loop].
  destruct (getitem neighbors top) as [s| |] eqn:Hs; cbn [mbind res_bind];
    [|done|].
  2:{ unfold getitem in Hs. by destruct (neighbors !! top). }
  apply getitem_Ok in Hs.
  destruct (first_unseen seen (reverse (sorted s))) as [n|] eqn:Hn.
  - apply first_unseen_Some in Hn as [Hin Hnew].
    rewrite elem_of_reverse, sorted_perm, elem_of_elements in Hin.
    rewrite Forall_lookup in Hr. pose proof (Hr _ _ Hs n Hin) as Hlt.
    apply IH.
    pose proof (unseen_insert seen n (seq 0 (length neighbors))
                  (NoDup_seq _ _) ltac:(apply elem_of_seq; lia) Hnew) as E.
    simpl in Hfuel |- *. lia.
  - destruct (getitem feature_names top) as [name| |] eqn:Hname;
      cbn [mbind res_bind]; [|done|].
    2:{ unfold getitem in Hname. by destruct (feature_names !! top). }
    apply IH. simpl in Hfuel. lia.
Qed.

Lemma index_range feature_names root : forall r,
  index feature_names root = Ok r -> r < length feature_names.
Proof.
  induction feature_names as [|n names IH]; intros r H; simpl in H; [done|].
  case_decide; [simplify_eq; simpl; lia|].
  apply bind_Ok in H as (i & Hi & H). simplify_eq. apply IH in Hi. simpl. lia.
Qed.

Lemma res_bind_fuel {A B : Type} (m : res A) (f : A -> res B) :
  m <> OutOfFuel -> (forall a, m = Ok a -> f a <> OutOfFuel) ->
  m ≫= f <> OutOfFuel.
Proof. destruct m; simpl; [eauto | done | done]. Qed.

Lemma getitem_fuel {A : Type} (l : list A) i : getitem l i <> OutOfFuel.
Proof. unfold getitem. by destruct (l !! i). Qed.

Lemma build_neighbors_fuel V edges : build_neighbors V edges <> OutOfFuel.
Proof.
  unfold build_neighbors. generalize (replicate V (∅ : gset nat)).
  induction edges as [|[a b] es IH]; intros l; simpl; [done|].
  apply res_bind_fuel; [|intros; apply IH].
  unfold add_edge. apply res_bind_fuel; [apply getitem_fuel|]. intros s1 _.
  apply res_bind_fuel; [apply getitem_fuel|]. done.
Qed.

Lemma print_tree_fuel edges feature_names root :
  print_tree edges feature_names root <> OutOfFuel.
Proof.
  unfold print_tree, print_tree_lines.
  apply res_bind_fuel; [|done].
  apply res_bind_fuel.
  { unfold resolve_root. apply res_bind_fuel; [by destruct (bool_decide _)|].
    intros _ _. apply res_bind_fuel.
    - destruct root; [done|]. apply res_bind_fuel.
      + apply find_center_of_tree_fuel.
      + intros. apply getitem_fuel.
    - intros rn _. apply res_bind_fuel; [by destruct (bool_decide _)|]. done. }
  intros rn _. apply res_bind_fuel; [apply build_neighbors_fuel|].
  intros nb Hnb. apply res_bind_fuel.
  { clear. induction feature_names as [|n names IH]; simpl; [done|].
    case_decide; [done|]. by apply res_bind_fuel. }
  intros r Hr. apply res_bind_fuel; [|done].
  pose proof Hnb as Hlen. unfold build_neighbors in Hlen.
  apply add_edges_length in Hlen. rewrite length_replicate in Hlen.
  apply print_loop_fuel.
  - unfold build_neighbors in Hnb. rewrite Hlen.
    rewrite <- (length_replicate (length feature_names) (∅ : gset nat)).
    apply (add_edges_range _ _ _ Hnb).
    apply Forall_replicate. intros x Hx. by apply elem_of_empty in Hx.
  - apply index_range in Hr. rewrite Hlen.
    assert (S (length (filter (fun u => u ∉ ({[r]} : gset nat))
                         (seq 0 (length feature_names))))
            <= length feature_names) as Hunseen.
    { pose proof (unseen_insert ∅ r (seq 0 (length feature_names))
                    (NoDup_seq _ _) ltac:(apply elem_of_seq; lia)
                    ltac:(apply not_elem_of_empty)) as E.
      assert (∅ ∪ {[r]} = ({[r]} : gset nat)) as Heq by set_solver.
      rewrite Heq in E. rewrite E.
      etrans; [apply length_filter|]. by rewrite length_seq. }
    unfold print_fuel. simpl. lia.
Qed.

(** ** [find_center_of_tree] on arbitrary edge lists *)

Lemma strip_safe_initial edges :
  Forall (fun e => e.1 < length edges + 1 /\ e.2 < length edges + 1) edges ->
  exists neighbors,
    build_neighbors (length edges + 1) edges = Ok neighbors
    /\ initial_queue neighbors <> []
    /\ strip_safe (length edges + 1) neighbors (initial_queue neighbors) [].
Proof.
  intros Hr. set (V := length edges + 1) in *.
  destruct (build_neighbors_spec V edges Hr) as (nb & Hnb & Hlen & Hsum & Hmem).
  exists nb. split; [done|]. split.
  - destruct (exists_small_degree (degree nb) (seq 0 V)) as (u & Hu & Hdeg).
    + unfold V. rewrite Nat.add_1_r. done.
    + rewrite length_seq, <- Hlen, sum_degree_seq. lia.
    + intros Hq. assert (u ∈ initial_queue nb) as Hin.
      { unfold initial_queue. rewrite Hlen. by apply list_elem_of_filter. }
      rewrite Hq in Hin. by apply elem_of_nil in Hin.
  - split.
    + done.
    + simpl. unfold initial_queue. apply NoDup_filter, NoDup_seq.
    + intros u Hu. by apply elem_of_nil in Hu.
    + intros u [Hdeg Hu%elem_of_seq]%list_elem_of_filter. split; [lia|done].
    + intros u w Hu _ Hw. apply Hmem in Hw. split.
      * rewrite Forall_forall in Hr.
        destruct Hw as [Hw|Hw]; specialize (Hr _ Hw); simpl in Hr; lia.
      * split; [apply not_elem_of_nil|]. by apply Hmem, edge_between_sym.
Qed.

Lemma strip_safe_step V neighbors v queue visited :
  strip_safe V neighbors (v :: queue) visited ->
  exists s nb q,
    neighbors !! v = Some s
    /\ strip_vertex v (sorted s) neighbors queue = Ok (nb, q)
    /\ strip_safe V nb q (visited ++ [v]).
Proof.
  intros [Hlen Hnd Hvis Hq Hadj].
  destruct (Hq v ltac:(left)) as [HvV Hdeg].
  destruct (lookup_lt_is_Some_2 neighbors v) as [s Hs]; [lia|].
  pose proof (neighbors_of_lookup _ _ _ Hs) as Hnv.
  assert (size s <= 1) as Hsize by (by rewrite <- Hnv, <- degree_size).
  assert ((v ∉ visited) /\ (v ∉ queue) /\ NoDup visited /\ NoDup queue
          /\ forall x, x ∈ visited -> x ∉ queue) as (Hvv & Hvq & Hndv & Hndq & Hdisj).
  { apply NoDup_app in Hnd as (? & Hd & Hndq).
    apply NoDup_cons in Hndq as [? ?].
    repeat split; try done.
    - intros Hin. apply (Hd _ Hin). left.
    - intros x Hx Hxq. apply (Hd _ Hx). by right. }
  assert (NoDup (visited ++ [v])) as Hndv'.
  { apply NoDup_app. split; [done|]. split; [|apply NoDup_singleton].
    by intros x Hx ->%list_elem_of_singleton. }
  exists s. destruct (decide (size s = 0)) as [H0|H0].
  - exists neighbors, queue. split; [done|].
    rewrite (sorted_empty s H0). split; [done|]. split.
    + done.
    + rewrite <- app_assoc. done.
    + intros u [? | ->%list_elem_of_singleton]%elem_of_app; eauto.
    + intros u Hu. apply Hq. by right.
    + intros u w Hu [Huvis Huv]%not_elem_of_app Hw.
      destruct (Hadj u w Hu Huvis Hw) as (HwV & Hwvis & Huw).
      split; [done|]. split; [|done].
      apply not_elem_of_app. split; [done|].
      intros ->%list_elem_of_singleton.
      apply size_empty_inv, leibniz_equiv in H0.
      rewrite Hnv, H0 in Huw. by apply elem_of_empty in Huw.
  - destruct (sorted_singleton s) as (w & -> & Hsorted); [lia|].
    destruct (Hadj v w HvV Hvv) as (HwV & Hwvis & Hvw).
    { rewrite Hnv. by apply elem_of_singleton. }
    destruct (lookup_lt_is_Some_2 neighbors w) as [sw Hsw]; [lia|].
    rewrite (neighbors_of_lookup _ _ _ Hsw) in Hvw.
    set (sw' := sw ∖ {[v]}).
    exists (<[w := sw']> neighbors),
           (if decide (size sw' = 1) then queue ++ [w] else queue).
    split; [done|]. rewrite Hsorted. split.
    { cbn [strip_vertex]. rewrite (getitem_lookup _ _ _ Hsw).
      cbn [mbind res_bind]. unfold set_remove. rewrite decide_True by done.
      done. }
    assert (size sw = S (size sw')) as Hsz.
    { unfold sw'. pose proof (size_union_alt ({[v]} : gset nat) sw) as H.
      assert (({[v]} : gset nat) ∪ sw = sw) as Heq by set_solver.
      rewrite Heq, size_singleton in H. lia. }
    assert (forall u, neighbors_of (<[w := sw']> neighbors) u
                      = if decide (w = u) then sw' else neighbors_of neighbors u)
      as Hnb' by (intros; apply neighbors_of_insert; lia).
    assert (forall u, degree (<[w := sw']> neighbors) u
                      = if decide (w = u) then size sw' else degree neighbors u)
      as Hdeg'.
    { intros u. rewrite !degree_size, Hnb'. by case_decide. }
    assert (degree neighbors w = S (size sw')) as Hdegw.
    { by rewrite degree_size, (neighbors_of_lookup _ _ _ Hsw). }
    split.
    + by rewrite length_insert.
    + case_decide as Hone; [|by rewrite <- app_assoc].
      rewrite <- app_assoc. simpl.
      assert (NoDup (visited ++ (v :: queue) ++ [w])) as H; [|done].
      rewrite app_assoc. apply NoDup_app. split; [done|].
      split; [|apply NoDup_singleton].
      intros x Hx ->%list_elem_of_singleton.
      apply elem_of_app in Hx as [Hx|Hx]; [done|].
      destruct (Hq _ Hx) as [_ Hle]. lia.
    + intros u [? | ->%list_elem_of_singleton]%elem_of_app; eauto.
    + intros u Hu. rewrite Hdeg'.
      assert (u ∈ queue \/ (u = w /\ size sw' = 1)) as [Huq|[-> Hone]].
      { case_decide; [|by left].
        apply elem_of_app in Hu as [?|?%list_elem_of_singleton]; eauto. }
      * destruct (Hq u ltac:(by right)) as [? Hle]. split; [done|].
        destruct (decide (w = u)) as [<-|]; [lia|done].
      * split; [done|]. rewrite decide_True by done. lia.
    + intros u x Hu [Huvis Huv]%not_elem_of_app Hx.
      rewrite list_elem_of_singleton in Huv. rewrite Hnb' in Hx.
      assert (x ∈ neighbors_of neighbors u /\ x <> v) as [Hx' Hxv].
      { case_decide as Hwu.
        - subst u. rewrite (neighbors_of_lookup _ _ _ Hsw). unfold sw' in Hx.
          set_solver.
        - split; [done|]. intros ->.
          destruct (Hadj _ _ Hu Huvis Hx) as (_ & _ & Hback).
          rewrite Hnv in Hback. apply elem_of_singleton in Hback. by subst. }
      destruct (Hadj _ _ Hu Huvis Hx') as (HxV & Hxvis & Hux).
      split; [done|]. split.
      { apply not_elem_of_app. by rewrite list_elem_of_singleton. }
      rewrite Hnb'. destruct (decide (w = x)) as [<-|Hwx]; [|done].
      rewrite (neighbors_of_lookup _ _ _ Hsw) in Hux. unfold sw'. set_solver.
Qed.

Lemma strip_safe_loop V fuel : forall neighbors queue visited,
  strip_safe V neighbors queue visited ->
  match strip_loop fuel neighbors queue (last visited) visited with
  | Ok (c, visited') =>
      c = last visited' /\ NoDup visited'
      /\ (forall u, u ∈ visited' -> u < V)
      /\ length visited + length queue <= length visited'
  | Raise _ => False
  | OutOfFuel => True
  end.
Proof.
  induction fuel as [|fuel IH]; intros neighbors queue visited Hsafe.
  - destruct queue; simpl; [|done].
    destruct Hsafe as [_ Hnd Hvis _ _]. rewrite app_nil_r in Hnd.
    repeat split; try done. lia.
  - destruct queue as [|v queue].
    { simpl. destruct Hsafe as [_ Hnd Hvis _ _]. rewrite app_nil_r in Hnd.
      repeat split; try done. lia. }
    destruct (strip_safe_step _ _ _ _ _ Hsafe) as (s & nb & q & Hs & Hstep & Hsafe').
    cbn [strip_loop]. rewrite (getitem_lookup _ _ _ Hs). cbn [mbind res_bind].
    rewrite Hstep. cbn [mbind res_bind].
    specialize (IH nb q (visited ++ [v]) Hsafe'). rewrite last_snoc in IH.
    destruct (strip_loop fuel nb q (Some v) (visited ++ [v])) as [[c vis']| |];
      [|done|done].
    destruct IH as (? & ? & ? & Hlen). repeat split; try done.
    rewrite length_app in Hlen. simpl in Hlen |- *.
    destruct Hsafe' as [_ Hnd' _ _ _].
    assert (length queue <= length q); [|lia].
    clear -Hstep.
    destruct (decide (size s = 0)) as [H0|H0].
    + rewrite (sorted_empty s H0) in Hstep. simpl in Hstep. by simplify_eq.
    + revert Hstep. generalize (sorted s). intros vs. revert neighbors queue.
      induction vs as [|v2 vs IHvs]; intros neighbors queue Hstep; simpl in Hstep.
      * by simplify_eq.
      * apply bind_Ok in Hstep as (s1 & _ & Hstep).
        apply bind_Ok in Hstep as (s2 & _ & Hstep).
        apply IHvs in Hstep. case_decide; [|done].
        rewrite length_app in Hstep. simpl in Hstep. lia.
Qed.

Lemma strip_leaves_in_range edges :
  Forall (fun e => e.1 < length edges + 1 /\ e.2 < length edges + 1) edges ->
  exists c visited,
    find_center_of_tree edges = Ok c
    /\ c < length edges + 1
    /\ strip_leaves edges = Ok (Some c, visited)
    /\ last visited = Some c
    /\ NoDup visited.
Proof.
  intros Hr.
  destruct (strip_safe_initial edges Hr) as (nb & Hnb & Hne & Hsafe).
  pose proof (strip_safe_loop _ (strip_fuel (length edges + 1) edges) _ _ _ Hsafe)
    as Hloop.
  pose proof (find_center_of_tree_fuel edges) as Hfuel.
  unfold find_center_of_tree, strip_leaves in *. rewrite Hnb in *.
  cbn [mbind res_bind] in *. change (last []) with (@None nat) in Hloop.
  destruct (strip_loop _ nb (initial_queue nb) None []) as [[c visited]| |];
    [|done|done].
  destruct Hloop as (-> & Hnd & Hvis & Hlen).
  destruct (last visited) as [c|] eqn:Hlast.
  - exists c, visited. cbn [mbind res_bind]. repeat split; try done.
    apply Hvis. apply last_Some in Hlast as [l ->].
    apply elem_of_app. right. left.
  - apply last_None in Hlast. subst. simpl in Hlen.
    destruct (initial_queue nb); [done|]. simpl in Hlen. lia.
Qed.

(** X1. On every edge list whose endpoints are vertices of [0 .. V-1], with
    [V = len(edges) + 1], and whether or not the edges form a tree,
    [find_center_of_tree] returns a vertex below [V]: no look-up fails, no
    [remove] misses its element, the loop ends, and [v] is bound at the
    [return] because some vertex has at most one neighbour.  No vertex is
    popped twice, and the vertex returned is the last one popped. *)
Theorem find_center_of_tree_total edges :
  Forall (fun e => e.1 < length edges + 1 /\ e.2 < length edges + 1) edges ->
  exists c visited,
    find_center_of_tree edges = Ok c
    /\ c < length edges + 1
    /\ strip_leaves edges = Ok (Some c, visited)
    /\ last visited = Some c
    /\ NoDup visited.
Proof. apply strip_leaves_in_range. Qed.

Lemma find_center_of_tree_total_witness :
  find_center_of_tree triangle = Ok 3
  /\ exists c visited,
    find_center_of_tree triangle = Ok c
    /\ c < length triangle + 1
    /\ strip_leaves triangle = Ok (Some c, visited)
    /\ last visited = Some c
    /\ NoDup visited.
Proof.
  split; [by vm_compute|].
  apply (find_center_of_tree_total triangle).
  repeat constructor; simpl; lia.
Defined.
Lemma add_edges_out_of_range edges : forall neighbors,
  Exists (out_of_range (length neighbors)) edges ->
  add_edges neighbors edges = Raise IndexError.
Proof.
  induction edges as [|[a b] edges IH]; intros neighbors Hex.
  { by apply Exists_nil in Hex. }
  cbn [add_edges].
  destruct (decide (a < length neighbors /\ b < length neighbors)) as [[Ha Hb]|Hout].
  - destruct (add_edge_spec neighbors a b Ha Hb) as (nb & -> & Hlen & _).
    cbn [mbind res_bind]. apply IH. rewrite Hlen.
    apply Exists_cons in Hex as [Hhd|Htl]; [|done].
    unfold out_of_range in Hhd. simpl in Hhd. lia.
  - unfold add_edge. destruct (neighbors !! a) as [s1|] eqn:H1.
    + rewrite (getitem_lookup _ _ _ H1). cbn [mbind res_bind].
      apply lookup_lt_Some in H1.
      assert (<[a := s1 ∪ {[b]}]> neighbors !! b = None) as H2.
      { apply lookup_ge_None. rewrite length_insert. lia. }
      unfold getitem. by rewrite H2.
    + unfold getitem. by rewrite H1.
Qed.

Lemma find_center_of_tree_raise edges :
  Exists (out_of_range (length edges + 1)) edges ->
  find_center_of_tree edges = Raise IndexError.
Proof.
  intros Hex. unfold find_center_of_tree, strip_leaves, build_neighbors.
  rewrite add_edges_out_of_range; [done|]. by rewrite length_replicate.
Qed.

(** X2. An edge with an endpoint that is not a vertex of [0 .. V-1],
    [V = len(edges) + 1], makes [find_center_of_tree] raise [IndexError] while
    it builds the neighbour sets; with the result on edge lists in range, the
    function returns a vertex exactly when every endpoint is below [V]. *)
Theorem find_center_of_tree_out_of_range edges :
  Exists (out_of_range (length edges + 1)) edges ->
  find_center_of_tree edges = Raise IndexError
  /\ strip_leaves edges = Raise IndexError.
Proof.
  intros Hex. split; [by apply find_center_of_tree_raise|].
  unfold strip_leaves, build_neighbors.
  rewrite add_edges_out_of_range; [done|]. by rewrite length_replicate.
Qed.

Lemma find_center_of_tree_out_of_range_witness :
  find_center_of_tree [(0, 5)] = Raise IndexError
  /\ strip_leaves [(0, 5)] = Raise IndexError.
Proof.
  apply (find_center_of_tree_out_of_range [(0, 5)]).
  apply Exists_cons_hd. right. simpl. lia.
Defined.

Lemma in_range_or_not V (edges : list (nat * nat)) :
  Forall (fun e => e.1 < V /\ e.2 < V) edges \/ Exists (out_of_range V) edges.
Proof.
  induction edges as [|e edges [IH|IH]].
  - left. constructor.
  - destruct (decide (e.1 < V /\ e.2 < V)) as [H|H].
    + left. by constructor.
    + right. apply Exists_cons_hd. unfold out_of_range. lia.
  - right. by apply Exists_cons_tl.
Qed.

Lemma out_of_range_between V edges edges' :
  (forall a b, edge_between edges a b -> edge_between edges' a b) ->
  Exists (out_of_range V) edges -> Exists (out_of_range V) edges'.
Proof.
  intros Hsub Hex. apply Exists_exists in Hex as ([a b] & Hin & Hout).
  destruct (Hsub a b) as [H|H]; [by left| |];
    apply Exists_exists; eexists; (split; [exact H|]);
    unfold out_of_range in *; simpl in *; lia.
Qed.

(** X3. The vertex [find_center_of_tree] returns depends on the edge list only
    through its length and the undirected graph it describes: two lists of the
    same length that join the same pairs of vertices, in whatever order of the
    rows and of the two endpoints of a row, give the same result (the same
    vertex, or [IndexError] for both). *)
Theorem find_center_of_tree_unordered edges edges' :
  length edges = length edges' ->
  (forall a b, edge_between edges a b <-> edge_between edges' a b) ->
  find_center_of_tree edges = find_center_of_tree edges'.
Proof.
  intros Hlen Hsame.
  destruct (in_range_or_not (length edges + 1) edges) as [Hr|Hex].
  - destruct (in_range_or_not (length edges' + 1) edges') as [Hr'|Hex'].
    + destruct (build_neighbors_spec _ _ Hr) as (nb & Hnb & Hl & _ & Hmem).
      destruct (build_neighbors_spec _ _ Hr') as (nb' & Hnb' & Hl' & _ & Hmem').
      assert (nb = nb') as <-.
      { apply list_eq. intros u.
        destruct (decide (u < length edges + 1)) as [Hu|Hu].
        - destruct (lookup_lt_is_Some_2 nb u) as [s Hs]; [lia|].
          destruct (lookup_lt_is_Some_2 nb' u) as [s' Hs']; [lia|].
          rewrite Hs, Hs'. f_equal. apply set_eq. intros w.
          rewrite <- (neighbors_of_lookup _ _ _ Hs),
                  <- (neighbors_of_lookup _ _ _ Hs').
          by rewrite Hmem, Hmem', Hsame.
        - rewrite !(proj2 (lookup_ge_None _ _)) by lia. done. }
      unfold find_center_of_tree, strip_leaves, strip_fuel.
      rewrite <- Hlen in Hnb' |- *. by rewrite Hnb, Hnb'.
    + rewrite (find_center_of_tree_raise edges'), (find_center_of_tree_raise edges);
        [done| |done].
      rewrite Hlen. eapply out_of_range_between; [|exact Hex'].
      intros a b. apply Hsame.
  - rewrite (find_center_of_tree_raise edges), (find_center_of_tree_raise edges');
      [done| |done].
    rewrite <- Hlen. eapply out_of_range_between; [|exact Hex].
    intros a b. apply Hsame.
Qed.

Lemma find_center_of_tree_unordered_witness :
  find_center_of_tree path3 = find_center_of_tree path3_reversed.
Proof.
  apply (find_center_of_tree_unordered path3 path3_reversed); [reflexivity|].
  intros a b. unfold edge_between, path3, path3_reversed.
  rewrite !elem_of_cons, !elem_of_nil.
  split; intros [[?|[?|[]]]|[?|[?|[]]]]; simplify_eq; eauto.
Defined.

(** ** [print_tree] on arbitrary edge lists *)

Lemma index_first feature_names name :
  name ∈ feature_names ->
  exists r, index feature_names name = Ok r
            /\ feature_names !! r = Some name
            /\ forall j, j < r -> feature_names !! j <> Some name.
Proof.
  induction feature_names as [|n names IH]; intros Hin.
  { by apply elem_of_nil in Hin. }
  simpl. destruct (decide (n = name)) as [->|Hne].
  - exists 0. split; [done|]. split; [done|]. intros j Hj. lia.
  - apply elem_of_cons in Hin as [->|Hin]; [done|].
    destruct (IH Hin) as (r & -> & Hr & Hfirst). exists (S r).
    split; [done|]. split; [done|]. intros [|j] Hj; simpl.
    + by intros [=].
    + apply Hfirst. lia.
Qed.

Lemma index_nodup feature_names c name :
  NoDup feature_names -> feature_names !! c = Some name ->
  index feature_names name = Ok c.
Proof.
  intros Hnd Hc.
  destruct (index_first feature_names name) as (r & Hr & Hname & _).
  { by eapply list_elem_of_lookup_2. }
  rewrite Hr. f_equal. by eapply NoDup_lookup.
Qed.

Lemma nsteps_subrel {A : Type} (R R' : relation A) n x y :
  (forall a b, R a b -> R' a b) -> nsteps R n x y -> nsteps R' n x y.
Proof. intros Hsub. induction 1; econstructor; eauto. Qed.

Lemma labelled_snoc feature_names l d v :
  labelled feature_names (l ++ [(d, v)])
  = labelled feature_names l ++ [(d, nth v feature_names EmptyString)].
Proof. unfold labelled. by rewrite map_app. Qed.

Lemma print_loop_dfs V r feature_names neighbors fuel :
  length neighbors = V -> length feature_names = V ->
  (forall u w, w ∈ neighbors_of neighbors u -> w < V) ->
  forall stack seen l,
    dfs_inv V r neighbors stack seen l ->
    match print_loop fuel feature_names neighbors stack seen
            (labelled feature_names l) with
    | Ok lines =>
        exists seen' l', lines = labelled feature_names l'
                         /\ dfs_inv V r neighbors [] seen' l'
    | Raise _ => False
    | OutOfFuel => True
    end.
Proof.
  intros Hlen Hnames Hin.
  induction fuel as [|fuel IH]; intros stack seen l Hinv.
  { destruct stack; simpl; [|done]. by exists seen, l. }
  destruct stack as [|top rest]; [by exists seen, l|].
  destruct Hinv as [Hnd Hseen Hrange Hclosed Hdepth Hstack Hroot].
  assert (top < V) as Htop by (apply Hrange, Hseen; right; left).
  destruct (lookup_lt_is_Some_2 neighbors top) as [s Hs]; [lia|].
  pose proof (neighbors_of_lookup _ _ _ Hs) as Hnt.
  cbn [print_loop]. rewrite (getitem_lookup _ _ _ Hs). cbn [mbind res_bind].
  destruct (first_unseen seen (reverse (sorted s))) as [n|] eqn:Hfirst.
  - apply first_unseen_Some in Hfirst as [Hn Hnew].
    rewrite elem_of_reverse, sorted_perm, elem_of_elements, <- Hnt in Hn.
    apply IH. split.
    + apply NoDup_app in Hnd as (Hl & Hdisj & Hst).
      apply NoDup_app. split; [done|]. split.
      * intros x Hx [->|Hxs]%elem_of_cons; [|by eapply Hdisj].
        apply Hnew, Hseen. by left.
      * apply NoDup_cons. split; [|done].
        intros Hns. apply Hnew, Hseen. by right.
    + intros u. rewrite elem_of_union, elem_of_singleton, Hseen.
      rewrite (elem_of_cons (top :: rest) u n). tauto.
    + intros u [Hu| ->%elem_of_singleton]%elem_of_union; [by apply Hrange|].
      by eapply Hin.
    + intros u w Hu Hw. apply elem_of_union. left. by eapply Hclosed.
    + done.
    + intros pre t rs Heq. destruct pre as [|x pre]; simpl in Heq.
      * injection Heq as <- <-. simpl.
        eapply nsteps_r; [|exact Hn]. by apply (Hstack [] top rest).
      * injection Heq as _ Heq. by apply (Hstack pre t rs).
    + destruct Hroot as [Hlast Hr]. split; [|done].
      rewrite <- Hlast. done.
  - rewrite (names_getitem feature_names top) by lia. cbn [mbind res_bind].
    rewrite <- labelled_snoc. apply IH.
    assert (forall x, x ∈ s -> x ∈ seen) as Hall.
    { intros x Hx. destruct (decide (x ∈ seen)) as [|Hnew]; [done|]. exfalso.
      unfold first_unseen in Hfirst.
      assert (x ∈ filter (fun u => u ∉ seen) (reverse (sorted s))) as Hf.
      { apply list_elem_of_filter. split; [done|].
        by rewrite elem_of_reverse, sorted_perm, elem_of_elements. }
      destruct (filter _ _); [by apply elem_of_nil in Hf | done]. }
    split.
    + rewrite map_app. simpl. rewrite <- app_assoc. done.
    + intros u. rewrite Hseen, map_app, elem_of_app. simpl.
      rewrite list_elem_of_singleton, elem_of_cons. tauto.
    + done.
    + intros u w. rewrite map_app, elem_of_app. simpl.
      rewrite list_elem_of_singleton. intros [Hu| ->] Hw.
      * by eapply Hclosed.
      * apply Hall. by rewrite <- Hnt.
    + intros d u [Hdu|Hdu%list_elem_of_singleton]%elem_of_app.
      * by apply Hdepth.
      * injection Hdu as -> ->. by apply (Hstack [] top rest).
    + intros pre t rs Heq. apply (Hstack (top :: pre) t rs). by rewrite Heq.
    + destruct Hroot as [Hlast Hr]. destruct rest as [|x rest].
      * simpl in Hlast. injection Hlast as ->. by rewrite last_snoc.
      * split; [done|]. rewrite map_app, elem_of_app. simpl.
        rewrite list_elem_of_singleton. intros [?| ->]; [done|].
        apply NoDup_app in Hnd as (_ & _ & Hst).
        apply NoDup_cons in Hst as [Hst _]. apply Hst.
        change (last (top :: x :: rest)) with (last (x :: rest)) in Hlast.
        apply last_Some in Hlast as [l' Hl']. rewrite Hl'.
        apply elem_of_app. right. left.
Qed.

Lemma print_tree_in_range edges feature_names root :
  Forall (fun e => e.1 < length edges + 1 /\ e.2 < length edges + 1) edges ->
  length feature_names = 1 + length edges ->
  (forall name, root = Some name -> name ∈ feature_names) ->
  exists name r l,
    resolve_root edges feature_names root = Ok name
    /\ index feature_names name = Ok r
    /\ print_tree_lines edges feature_names root
       = Ok (labelled feature_names l)
    /\ print_tree edges feature_names root
       = Ok (render (labelled feature_names l))
    /\ head l = Some (0, r)
    /\ NoDup (map snd l)
    /\ (forall u, u ∈ map snd l <-> rtc (edge_between edges) r u)
    /\ (forall d u, (d, u) ∈ l -> nsteps (edge_between edges) d r u)
    /\ (forall u, u ∈ map snd l -> u < length feature_names).
Proof.
  intros Hr Hlen Hroot. set (V := length feature_names).
  assert (exists name, resolve_root edges feature_names root = Ok name
                       /\ name ∈ feature_names) as (name & Hres & Hname).
  { destruct root as [name|].
    - exists name. split; [|eauto]. unfold resolve_root.
      rewrite bool_decide_eq_true_2 by done. cbn [assert mbind res_bind].
      rewrite bool_decide_eq_true_2 by eauto. done.
    - destruct (strip_leaves_in_range edges Hr) as (c & _ & Hcenter & Hc & _).
      destruct (lookup_lt_is_Some_2 feature_names c) as [name Hn]; [lia|].
      assert (name ∈ feature_names) by (by eapply list_elem_of_lookup_2).
      exists name. split; [|done]. unfold resolve_root.
      rewrite bool_decide_eq_true_2 by done. cbn [assert mbind res_bind].
      rewrite Hcenter. cbn [mbind res_bind].
      rewrite (getitem_lookup _ _ _ Hn). cbn [mbind res_bind].
      by rewrite bool_decide_eq_true_2. }
  destruct (index_first feature_names name Hname) as (r & Hidx & Hrname & _).
  assert (r < V) as HrV by (by eapply lookup_lt_Some).
  destruct (build_neighbors_spec V edges) as (nb & Hnb & Hnblen & _ & Hmem).
  { eapply Forall_impl; [exact Hr|]. unfold V. simpl. lia. }
  assert (forall u w, w ∈ neighbors_of nb u -> w < V) as Hin.
  { intros u w Hw. apply Hmem in Hw. rewrite Forall_forall in Hr.
    destruct Hw as [Hw|Hw]; specialize (Hr _ Hw); simpl in Hr; unfold V; lia. }
  assert (dfs_inv V r nb [r] {[r]} []) as Hinit.
  { split.
    - simpl. apply NoDup_singleton.
    - intros u. rewrite elem_of_singleton, list_elem_of_singleton. simpl.
      rewrite elem_of_nil. tauto.
    - intros u ->%elem_of_singleton. done.
    - intros u w Hu. by apply elem_of_nil in Hu.
    - intros d u Hu. by apply elem_of_nil in Hu.
    - intros pre top rest Heq. destruct pre as [|x pre].
      + injection Heq as <- <-. constructor.
      + injection Heq as _ Heq. by destruct pre.
    - split; [done|]. apply not_elem_of_nil. }
  pose proof (print_loop_dfs V r feature_names nb (print_fuel feature_names)
                Hnblen eq_refl Hin _ _ _ Hinit) as Hloop.
  pose proof (print_tree_fuel edges feature_names root) as Hfuel.
  unfold print_tree, print_tree_lines in *.
  rewrite Hres in *. cbn [mbind res_bind] in *. fold V in Hfuel |- *.
  rewrite Hnb in *. cbn [mbind res_bind] in *.
  rewrite Hidx in *. cbn [mbind res_bind] in *.
  change (labelled feature_names []) with (@nil (nat * string)) in Hloop.
  destruct (print_loop _ feature_names nb [r] {[r]} []) as [lines| |];
    [|done|done].
  destruct Hloop as (seen' & l' & -> & [Hnd Hseen Hrange Hclosed Hdepth _ Hlast]).
  rewrite app_nil_r in Hnd.
  exists name, r, (reverse l'). cbn [mbind res_bind].
  assert (reverse (labelled feature_names l')
          = labelled feature_names (reverse l')) as ->
    by (unfold labelled; by rewrite fmap_reverse).
  assert (map snd (reverse l') = reverse (map snd l')) as Hmr
    by exact (fmap_reverse snd l').
  assert (forall u, u ∈ map snd (reverse l') <-> u ∈ map snd l') as Hrev.
  { intros u. by rewrite Hmr, elem_of_reverse. }
  split; [done|]. split; [done|]. split; [done|]. split; [done|].
  split; [by rewrite head_reverse|].
  split; [by rewrite Hmr, reverse_Permutation|].
  split; [|split].
  - intros u. rewrite Hrev. split.
    + intros Hu. destruct (proj1 (list_elem_of_fmap _ _ _) Hu) as ([d u'] & -> & Hdu).
      eapply rtc_subrel; [|eapply rtc_nsteps_2, Hdepth, Hdu].
      intros a b Hab. by apply Hmem.
    + intros Hrtc.
      assert (r ∈ map snd l') as Hrl.
      { apply last_Some in Hlast as [l0 ->]. rewrite map_app.
        apply elem_of_app. right. left. }
      assert (forall x y, rtc (edge_between edges) x y ->
                          x ∈ map snd l' -> y ∈ map snd l') as Hstep.
      { clear -Hclosed Hseen Hmem. induction 1 as [a|a b c Hab _ IH]; [done|].
        intros Ha. apply IH.
        assert (b ∈ seen') as Hb by (eapply Hclosed; [exact Ha | by apply Hmem]).
        apply Hseen in Hb as [Hb|Hb]; [done | by apply elem_of_nil in Hb]. }
      by eapply Hstep.
  - intros d u Hdu. rewrite elem_of_reverse in Hdu.
    eapply nsteps_subrel; [|by apply Hdepth]. intros a b Hab. by apply Hmem.
  - intros u Hu%Hrev. apply Hrange, Hseen. by left.
Qed.

(** X4. [print_tree], started from a given root name or from the name of the
    centre, lists exactly the vertices that the edges connect to the root
    vertex, each on one line: the root comes first with indent 0, no vertex
    comes twice, and the indent of a line is the number of edges of a walk from
    the root to its vertex.  On a tree every vertex is listed; with distinct
    feature names and no root given, the root vertex is the centre. *)
Theorem print_tree_lists_reachable edges feature_names root :
  Forall (fun e => e.1 < length edges + 1 /\ e.2 < length edges + 1) edges ->
  length feature_names = 1 + length edges ->
  (forall name, root = Some name -> name ∈ feature_names) ->
  exists name r l,
    resolve_root edges feature_names root = Ok name
    /\ index feature_names name = Ok r
    /\ print_tree_lines edges feature_names root
       = Ok (labelled feature_names l)
    /\ print_tree edges feature_names root
       = Ok (render (labelled feature_names l))
    /\ head l = Some (0, r)
    /\ NoDup (map snd l)
    /\ (forall u, u ∈ map snd l <-> rtc (edge_between edges) r u)
    /\ (forall d u, (d, u) ∈ l -> nsteps (edge_between edges) d r u)
    /\ (is_tree edges -> map snd l ≡ₚ seq 0 (length feature_names))
    /\ (root = None -> NoDup feature_names ->
        find_center_of_tree edges = Ok r).
Proof.
  intros Hr Hlen Hroot.
  destruct (print_tree_in_range edges feature_names root Hr Hlen Hroot)
    as (name & r & l & Hres & Hidx & Hlines & Htext & Hhead & Hnd & Hreach
        & Hdepth & Hrange).
  exists name, r, l. do 8 (split; [done|]). split.
  - intros [_ Hconn]. apply NoDup_Permutation; [done | apply NoDup_seq|].
    intros u. rewrite elem_of_seq. split.
    + intros Hu%Hrange. lia.
    + intros Hu. apply Hreach, Hconn; [|lia].
      apply index_range in Hidx. lia.
  - intros -> Hnames. unfold resolve_root in Hres.
    apply bind_Ok in Hres as (? & _ & Hres).
    apply bind_Ok in Hres as (rn & Hrn & Hres).
    apply bind_Ok in Hrn as (c & Hc & Hrn%getitem_Ok).
    apply bind_Ok in Hres as (? & _ & Hres). simplify_eq.
    rewrite (index_nodup _ _ _ Hnames Hrn) in Hidx. by simplify_eq.
Qed.

Lemma print_tree_lists_reachable_witness :
  exists name r l,
    resolve_root triangle ["a"; "b"; "c"; "d"]%string (Some "b"%string) = Ok name
    /\ index ["a"; "b"; "c"; "d"]%string name = Ok r
    /\ print_tree_lines triangle ["a"; "b"; "c"; "d"]%string (Some "b"%string)
       = Ok (labelled ["a"; "b"; "c"; "d"]%string l)
    /\ print_tree triangle ["a"; "b"; "c"; "d"]%string (Some "b"%string)
       = Ok (render (labelled ["a"; "b"; "c"; "d"]%string l))
    /\ head l = Some (0, r)
    /\ NoDup (map snd l)
    /\ (forall u, u ∈ map snd l <-> rtc (edge_between triangle) r u)
    /\ (forall d u, (d, u) ∈ l -> nsteps (edge_between triangle) d r u)
    /\ (is_tree triangle -> map snd l ≡ₚ seq 0 4)
    /\ (Some "b"%string = None -> NoDup ["a"; "b"; "c"; "d"]%string ->
        find_center_of_tree triangle = Ok r).
Proof.
  apply (print_tree_lists_reachable triangle ["a"; "b"; "c"; "d"]%string
           (Some "b"%string)).
  - repeat constructor; simpl; lia.
  - reflexivity.
  - intros name [= <-]. right. left.
Defined.

(** X5. The outcome of [print_tree] on every list of edges with endpoints
    that are not negative: it returns a text exactly when there is one feature
    name per vertex, every endpoint of an edge is below the number of
    vertices and the root, if one is given, is among the names; it raises
    [AssertionError] only for a wrong number of names or an unknown root, and
    [IndexError] only for an endpoint that is not below the number of
    vertices; the loop always ends. *)
Theorem print_tree_outcome edges feature_names root :
  match print_tree edges feature_names root with
  | Ok _ =>
      length feature_names = 1 + length edges
      /\ Forall (fun e => e.1 < length edges + 1 /\ e.2 < length edges + 1) edges
      /\ forall name, root = Some name -> name ∈ feature_names
  | Raise AssertionError =>
      length feature_names <> 1 + length edges
      \/ exists name, root = Some name /\ name ∉ feature_names
  | Raise IndexError =>
      length feature_names = 1 + length edges
      /\ Exists (out_of_range (length edges + 1)) edges
  | Raise _ | OutOfFuel => False
  end.
Proof.
  destruct (decide (length feature_names = 1 + length edges)) as [Hlen|Hlen].
  2:{ unfold print_tree, print_tree_lines, resolve_root.
      rewrite bool_decide_eq_false_2 by done. simpl. by left. }
  assert ((forall name, root = Some name -> name ∈ feature_names)
          \/ exists name, root = Some name /\ name ∉ feature_names)
    as [Hroot|(name & -> & Hn)].
  { destruct root as [name|]; [|by left].
    destruct (decide (name ∈ feature_names)); [left|right; eauto].
    by intros ? [= <-]. }
  2:{ unfold print_tree, print_tree_lines, resolve_root.
      rewrite bool_decide_eq_true_2 by done. cbn [assert mbind res_bind].
      rewrite bool_decide_eq_false_2 by done. simpl. right. eauto. }
  destruct (in_range_or_not (length edges + 1) edges) as [Hr|Hex].
  - destruct (print_tree_in_range edges feature_names root Hr Hlen Hroot)
      as (name & r & l & _ & _ & _ & -> & _). done.
  - assert (print_tree edges feature_names root = Raise IndexError) as ->; [|done].
    unfold print_tree, print_tree_lines, resolve_root.
    rewrite bool_decide_eq_true_2 by done. cbn [assert mbind res_bind].
    destruct root as [name|]; cbn [mbind res_bind].
    + rewrite bool_decide_eq_true_2 by eauto. cbn [assert mbind res_bind].
      unfold build_neighbors. rewrite add_edges_out_of_range; [done|].
      rewrite length_replicate, Hlen. by rewrite Nat.add_comm.
    + by rewrite (find_center_of_tree_raise edges Hex).
Qed.

(** ** The pair statistics marginalise to the vertex statistics *)













Lemma cell_full n m x i j : i < n -> j < m -> cell (full n m x) i j = x.
Proof.
  intros Hi Hj. unfold cell, full.
  rewrite (nth_lookup (replicate n _)), lookup_replicate_2 by done. simpl.
  by rewrite nth_lookup, lookup_replicate_2.
Qed.






(** ** The posterior means are consistent marginals *)

Lemma Qsum_shift prior (row : list Q) :
  (Qsum (map (fun x => prior + x) row) == of_int (length row) * prior + Qsum row)%Q.
Proof.
  induction row as [|a row IH]; simpl length; simpl map; simpl Qsum.
  - unfold of_int. simpl. ring.
  - rewrite IH, of_int_S. ring.
Qed.

Lemma cell_lookup (t : list (list Q)) i j row x :
  t !! i = Some row -> row !! j = Some x -> cell t i j = x.
Proof. intros Hi Hj. unfold cell. by rewrite !nth_lookup, Hi; simpl; rewrite Hj. Qed.

Lemma cell_posterior_mean prior (t : list (list Q)) i j row :
  t !! i = Some row -> j < length row ->
  (cell (map (EdgeGuide.posterior_mean prior) t) i j
   == (prior + cell t i j) / (of_int (length row) * prior + Qsum row))%Q.
Proof.
  intros Hi Hj. destruct (lookup_lt_is_Some_2 row j Hj) as [x Hx].
  rewrite (cell_lookup t i j row x Hi Hx).
  rewrite (cell_lookup _ i j (EdgeGuide.posterior_mean prior row)
             ((prior + x) / Qsum (map (fun y => prior + y) row))%Q).
  - by rewrite Qsum_shift.
  - by rewrite list_lookup_fmap, Hi.
  - by apply posterior_mean_lookup.
Qed.





(** ** A latent state out of range *)

Lemma scatter_add_row_bad (idx : list nat) : forall (row : list Q),
  Exists (fun i => length row <= i) idx ->
  scatter_add_row row idx = Raise RuntimeError.
Proof.
  induction idx as [|i idx IH]; intros row Hex.
  { by apply Exists_nil in Hex. }
  simpl. destruct (row !! i) as [x|] eqn:Hi; [|done].
  apply IH. rewrite length_insert.
  apply Exists_cons in Hex as [Hbad|Hex]; [|done].
  apply lookup_lt_Some in Hi. lia.
Qed.

Lemma scatter_add_raises (index : list (list nat)) : forall (t : list (list Q)),
  match scatter_add_ t index with
  | Ok _ | Raise RuntimeError => True
  | _ => False
  end.
Proof.
  induction index as [|idx index IH]; intros [|row t]; simpl; try done.
  assert (match scatter_add_row row idx with
          | Ok _ | Raise RuntimeError => True
          | _ => False
          end) as Hrow.
  { clear. revert row. induction idx as [|i idx IH]; intros row; simpl; [done|].
    destruct (row !! i); [apply IH|done]. }
  destruct (scatter_add_row row idx) as [row'|[]|]; simpl; try done.
  specialize (IH t). destruct (scatter_add_ t index) as [t'|[]|]; simpl; done.
Qed.

Lemma scatter_add_bad M (index : list (list nat)) : forall (t : list (list Q)),
  Forall (fun row => length row = M) t ->
  Exists (Exists (fun st => M <= st)) index ->
  scatter_add_ t index = Raise RuntimeError.
Proof.
  induction index as [|idx index IH]; intros t Ht Hex.
  { by apply Exists_nil in Hex. }
  destruct t as [|row t]; [done|]. apply Forall_cons in Ht as [Hrow Ht].
  simpl. apply Exists_cons in Hex as [Hbad|Hex].
  - rewrite scatter_add_row_bad; [done|]. by rewrite Hrow.
  - pose proof (scatter_add_raises [idx] [row]) as H1. simpl in H1.
    destruct (scatter_add_row row idx) as [row'|[]|]; simpl in *; try done.
    by rewrite IH.
Qed.

(** X9. A latent state that is not below the capacity [M] makes [update] raise
    [RuntimeError] at the first [scatter_add_]; by then the call has already
    replaced [count_stats] by [(count_stats + batch_size) * decay], so a call
    that fails in this way is not without effect. *)
Theorem update_state_out_of_range s num_rows z :
  let B := size_last z in
  let n := default B num_rows in
  shaped s -> B <= n -> n <> 0 -> (0 < EdgeGuide._count_stats s)%Q ->
  Exists (Exists (fun st => EdgeGuide.capacity s <= st)) z ->
  snd (EdgeGuide.update s num_rows z) = Raise RuntimeError
  /\ EdgeGuide._count_stats (fst (EdgeGuide.update s num_rows z))
     = ((EdgeGuide._count_stats s + of_int B) * decay_value s B n)%Q.
Proof.
  intros B n (_ & _ & _ & _ & HvsM & _) HB Hn Hc Hbad.
  pose proof (decay_ok s num_rows z HB Hc Hn) as Hd. fold B n in Hd.
  split; [|by apply update_count_stats in Hd as [? _]].
  unfold EdgeGuide.update. rewrite Hd. cbv zeta. simpl.
  by rewrite (scatter_add_bad (EdgeGuide.capacity s)).
Qed.

Lemma update_state_out_of_range_witness :
  snd (EdgeGuide.update guide3 (Some 1) z3_bad) = Raise RuntimeError
  /\ EdgeGuide._count_stats (fst (EdgeGuide.update guide3 (Some 1) z3_bad))
     = ((EdgeGuide._count_stats guide3 + of_int 1) * decay_value guide3 1 1)%Q.
Proof.
  apply (update_state_out_of_range guide3 (Some 1) z3_bad).
  - exact shaped_guide3.
  - simpl. lia.
  - simpl. lia.
  - reflexivity.
  - apply Exists_cons_tl, Exists_cons_tl, Exists_cons_hd, Exists_cons_hd.
    simpl. lia.
Defined.

(** ** An empty minibatch *)

Lemma cell_out_of_range (t : list (list Q)) i j :
  t !! i = None -> cell t i j = 0%Q.
Proof. intros H. unfold cell. rewrite (nth_lookup t), H. simpl. by destruct j. Qed.

Lemma scattered_empty_cell t' t (index : list (list nat)) i j :
  Forall2 scattered t' (zip t index) ->
  length index = length t ->
  Forall (fun idx => idx = []) index ->
  (cell t' i j == cell t i j)%Q.
Proof.
  intros H Hlen Hempty.
  pose proof (Forall2_length _ _ _ H) as Hl. rewrite length_zip in Hl.
  destruct (t !! i) as [row|] eqn:Hrow.
  - destruct (lookup_lt_is_Some_2 index i) as [idx Hidx].
    { apply lookup_lt_Some in Hrow. lia. }
    rewrite (scattered_cell _ _ _ i j _ _ H Hrow Hidx).
    rewrite Forall_lookup in Hempty. rewrite (Hempty _ _ Hidx).
    unfold occurrences, of_int. simpl. ring.
  - rewrite !cell_out_of_range; [reflexivity|done|].
    apply lookup_ge_None. apply lookup_ge_None in Hrow. lia.
Qed.

(** X10. A minibatch of no rows, given with the size [num_rows > 0] of the
    dataset, leaves the statistics as they are: the decay factor is 1, and
    [count_stats] and every entry of the two tables keep their values.  The
    call returns normally when the logging block can read every edge row and
    raises the [IndexError] of that block when it cannot. *)
Theorem update_empty_batch s n :
  let V := length (EdgeGuide.edges s) + 1 in
  let s' := fst (EdgeGuide.update s (Some n) (replicate V [])) in
  shaped s -> n <> 0 ->
  (0 < EdgeGuide.annealing_rate s)%Q -> (0 < EdgeGuide._count_stats s)%Q ->
  snd (EdgeGuide.update s (Some n) (replicate V []))
  = (if decide (readable_edges s) then Ok tt else Raise IndexError)
  /\ (EdgeGuide._count_stats s' == EdgeGuide._count_stats s)%Q
  /\ (forall i j, cell (EdgeGuide._vertex_stats s') i j
                  == cell (EdgeGuide._vertex_stats s) i j)%Q
  /\ (forall i j, cell (EdgeGuide._complete_stats s') i j
                  == cell (EdgeGuide._complete_stats s) i j)%Q.
Proof.
  intros V s' Hs Hn Hr Hc. unfold s'. clear s'.
  set (z := replicate V ([] : list nat)).
  assert (size_last z = 0) as HB.
  { unfold z, V. by rewrite Nat.add_1_r. }
  assert (latent_matrix V (EdgeGuide.capacity s) (size_last z) z) as Hz.
  { rewrite HB. split; [apply length_replicate|]. apply Forall_replicate. done. }
  pose proof (decay_ok s (Some n) z) as Hd. rewrite HB in Hd. simpl in Hd.
  specialize (Hd ltac:(lia) Hc Hn).
  assert (decay_value s 0 n == 1)%Q as Hone.
  { unfold decay_value, annealing, exponential_smoothing, pymin, of_int.
    simpl inject_Z. pose proof (of_int_pos n Hn) as Hn0. unfold of_int in Hn0.
    destruct (Qlt_le_dec _ _) as [_|Hle].
    - field. lra.
    - exfalso. revert Hle. apply Qlt_not_le.
      assert (1 / (1 + 0 / inject_Z (Z.of_nat n)) == 1)%Q as -> by (field; lra).
      assert ((1 + EdgeGuide.annealing_rate s)
              / (1 + 0 / EdgeGuide._count_stats s)
              == 1 + EdgeGuide.annealing_rate s)%Q as -> by (field; lra).
      lra. }
  rewrite <- HB in Hd at 1.
  destruct (update_run s (Some n) z _ Hs Hz Hd)
    as (vs1 & zz & cs1 & Hup & Hvs & Hzz & Hcs & Hshaped).
  destruct Hs as (_ & _ & _ & HvsV & _ & HcsK & _).
  rewrite Hup in Hshaped |- *. cbn [fst snd] in Hshaped |- *.
  split; [rewrite (log_metrics_outcome _ Hshaped); by apply decide_ext|].
  simpl. split; [|split].
  - rewrite Hone, HB. unfold of_int. simpl. ring.
  - intros i j. rewrite cell_scale, Hone.
    rewrite (scattered_empty_cell _ _ _ i j Hvs).
    + ring.
    + unfold z. rewrite length_replicate. by rewrite HvsV.
    + by apply Forall_replicate.
  - intros i j. rewrite cell_scale, Hone.
    rewrite (scattered_empty_cell _ _ _ i j Hcs).
    + ring.
    + apply Forall2_length in Hzz. rewrite complete_pairs_length in Hzz.
      by rewrite Hzz, HcsK.
    + apply Forall_lookup. intros k codes Hk.
      destruct (Forall2_lookup_l _ _ _ _ _ Hzz Hk) as ([v1 v2] & Hp & -> & _).
      apply complete_pairs_lookup_inv in Hp as (H1 & H2 & _). simpl.
      unfold z. rewrite (nth_lookup _ v1), lookup_replicate_2 by lia. done.
Qed.

Lemma update_empty_batch_witness :
  let s' := fst (EdgeGuide.update guide3 (Some 4) (replicate 3 [])) in
  snd (EdgeGuide.update guide3 (Some 4) (replicate 3 [])) = Ok tt
  /\ (EdgeGuide._count_stats s' == EdgeGuide._count_stats guide3)%Q
  /\ (forall i j, cell (EdgeGuide._vertex_stats s') i j
                  == cell (EdgeGuide._vertex_stats guide3) i j)%Q
  /\ (forall i j, cell (EdgeGuide._complete_stats s') i j
                  == cell (EdgeGuide._complete_stats guide3) i j)%Q.
Proof.
  destruct (update_empty_batch guide3 4) as (Hsnd & Hrest).
  - exact shaped_guide3.
  - lia.
  - reflexivity.
  - reflexivity.
  - split; [exact Hsnd | exact Hrest].
Defined.

(** ** A fresh edge guide *)

Lemma get_posterior_indexed s :
  let V := length (EdgeGuide.edges s) + 1 in
  let K := V * (V - 1) / 2 in
  shaped s ->
  Forall (fun e => pair_index e.1 e.2 < K) (EdgeGuide.edges s) ->
  exists edge_stats,
    EdgeGuide.get_posterior s
    = Ok (map (EdgeGuide.posterior_mean (EdgeGuide._vertex_prior s))
              (EdgeGuide._vertex_stats s),
          map (EdgeGuide.posterior_mean (EdgeGuide._edge_prior s)) edge_stats)
    /\ Forall2 (fun row e =>
                  EdgeGuide._complete_stats s !! pair_index e.1 e.2 = Some row)
               edge_stats (EdgeGuide.edges s).
Proof.
  intros V K (_ & _ & _ & _ & _ & HcsK & _) Hedges. unfold EdgeGuide.get_posterior.
  destruct (traverse_getitem (EdgeGuide._complete_stats s)
              (map (fun e => pair_index e.1 e.2) (EdgeGuide.edges s)))
    as (edge_stats & -> & Hes).
  { apply Forall_fmap. eapply Forall_impl; [exact Hedges|].
    intros e He. simpl in *. by rewrite HcsK. }
  apply Forall2_fmap_r in Hes. exists edge_stats. split; [done|]. done.
Qed.

Lemma get_posterior_unreadable s :
  let V := length (EdgeGuide.edges s) + 1 in
  let K := V * (V - 1) / 2 in
  shaped s ->
  ~ Forall (fun e => pair_index e.1 e.2 < K) (EdgeGuide.edges s) ->
  EdgeGuide.get_posterior s = Raise IndexError.
Proof.
  intros V K (_ & _ & _ & _ & _ & HcsK & _) Hedges. unfold EdgeGuide.get_posterior.
  apply not_Forall_Exists in Hedges; [|apply _].
  rewrite (traverse_Raise (getitem (EdgeGuide._complete_stats s)) _ IndexError);
    [done| |].
  - apply Forall_forall. intros k _.
    destruct (getitem_cases (EdgeGuide._complete_stats s) k) as [[_ ?]|[_ ?]];
      [by left|by right].
  - apply Exists_fmap. eapply Exists_impl; [exact Hedges|].
    intros e Hbad. simpl in *.
    destruct (getitem_cases (EdgeGuide._complete_stats s) (pair_index e.1 e.2))
      as [[Hlt _]|[_ ?]]; [|done].
    rewrite HcsK in Hlt. done.
Qed.

(** X11. The edge guide [__init__] builds carries no preference:
    [compute_edge_logits] gives all [K] pairs of the complete graph the same
    score, whatever the edges; and [get_posterior] returns [1/M] in every
    entry of every vertex table and [1/M^2] in every entry of every edge
    table whenever the index [v1 + v2*(v2-1)//2] of every edge row is below
    [K], as it is for rows [v1 < v2 < V].  With a row whose index is not
    below [K], [get_posterior] raises [IndexError]. *)
Theorem fresh_guide_uniform lgamma capacity edges annealing_rate s0 :
  let V := length edges + 1 in
  let K := V * (V - 1) / 2 in
  Proper (Qeq ==> Qeq) lgamma ->
  EdgeGuide.__init__ capacity edges annealing_rate = Ok s0 ->
  (Forall (fun e => pair_index e.1 e.2 < K) edges ->
   exists vertex_probs edge_probs,
     EdgeGuide.get_posterior s0 = Ok (vertex_probs, edge_probs)
     /\ length vertex_probs = V /\ length edge_probs = length edges
     /\ (forall v m, v < V -> m < capacity ->
           (cell vertex_probs v m == 1 / of_int capacity)%Q)
     /\ (forall e j, e < length edges -> j < capacity * capacity ->
           (cell edge_probs e j == 1 / of_int (capacity * capacity))%Q))
  /\ (Forall (fun e => e.1 < e.2 /\ e.2 < V) edges ->
      Forall (fun e => pair_index e.1 e.2 < K) edges)
  /\ (~ Forall (fun e => pair_index e.1 e.2 < K) edges ->
      EdgeGuide.get_posterior s0 = Raise IndexError)
  /\ (exists logits,
        EdgeGuide.compute_edge_logits lgamma s0 = Ok logits
        /\ length logits = K
        /\ forall k k' x x', logits !! k = Some x -> logits !! k' = Some x' ->
                             (x == x')%Q).
Proof.
  intros V K Hlg Hinit.
  pose proof (guide_init_shaped _ _ _ _ Hinit) as Hshaped.
  pose proof (guide_init_inv _ _ _ _ Hinit) as (Hr & HM & Hs0).
  pose proof (of_int_pos capacity HM) as HM0.
  assert (of_int (capacity * capacity) == of_int capacity * of_int capacity)%Q
    as Hsq.
  { unfold of_int. by rewrite Nat2Z.inj_mul, inject_Z_mult. }
  assert (of_int (capacity ^ 2) == of_int capacity * of_int capacity)%Q as Hsq'.
  { by rewrite Nat.pow_2_r. }
  assert (of_int (capacity * (capacity * 1)) == of_int capacity * of_int capacity)%Q
    as Hsq''.
  { by rewrite Nat.mul_1_r. }
  assert (EdgeGuide.edges s0 = edges) as Hedges0 by (by rewrite Hs0).
  split; [|split; [|split]].
  2:{ intros Hasc. eapply Forall_impl; [exact Hasc|].
      intros [v1 v2] [H1 H2]. simpl in *.
      pose proof (complete_pairs_lookup V v1 v2 H1 H2) as Hp.
      apply lookup_lt_Some in Hp. by rewrite complete_pairs_length in Hp. }
  2:{ intros Hbad. apply get_posterior_unreadable; [done|]. by rewrite Hedges0. }
  - intros Hedges.
    destruct (get_posterior_indexed s0 Hshaped) as (edge_stats & Hpost & Hes).
    { by rewrite Hedges0. }
    rewrite Hedges0 in Hes. eexists _, _. split; [exact Hpost|].
    rewrite Hs0 in Hes |- *. simpl in Hes |- *.
    rewrite !length_map. unfold full at 1. rewrite length_replicate.
    split; [done|]. split; [by apply Forall2_length in Hes|]. split.
    + intros v m Hv Hm.
      rewrite (cell_posterior_mean _ _ v m
                 (replicate capacity (1 / of_int capacity)%Q)).
      * rewrite cell_full, length_replicate, Qsum_replicate by done.
        field. split; [lra|].
        assert (0 < of_int capacity * (1 # 2) + of_int capacity * (1 / of_int capacity))%Q;
          [|lra].
        assert (of_int capacity * (1 / of_int capacity) == 1)%Q as ->
          by (field; lra). lra.
      * unfold full. by rewrite lookup_replicate_2.
      * by rewrite length_replicate.
    + intros e j He Hj.
      destruct (lookup_lt_is_Some_2 edges e He) as [[v1 v2] Hpair].
      destruct (Forall2_lookup_r _ _ _ _ _ Hes Hpair) as (crow & Hcrow & Hk).
      simpl in Hk. unfold full in Hk. apply lookup_replicate in Hk as [-> _].
      rewrite (cell_posterior_mean _ _ e j _ Hcrow)
        by (by rewrite length_replicate).
      rewrite (cell_lookup edge_stats e j _ (1 / of_int (capacity ^ 2))%Q Hcrow)
        by (by rewrite lookup_replicate_2).
      rewrite length_replicate, Qsum_replicate, ?Hsq, ?Hsq', ?Hsq''.
      field. split; [lra|].
      assert (of_int capacity * of_int capacity * ((1 # 2) / of_int capacity)
              + of_int capacity * of_int capacity
                * (1 / (of_int capacity * of_int capacity))
              == of_int capacity * (1 # 2) + 1)%Q as Heq by (field; lra).
      intros Hz. rewrite Hz in Heq. lra.
  - destruct (edge_logits_spec lgamma Hlg s0 Hshaped) as (logits & Hl & Hlen & Hspec).
    rewrite Hedges0 in Hlen, Hspec. fold V in Hlen, Hspec. fold K in Hlen.
    exists logits. split; [done|]. split; [done|].
    assert (forall k x, logits !! k = Some x ->
              (x == EdgeGuide.dirmul_reference lgamma ((1 # 2) / of_int capacity)
                      (replicate (capacity * capacity) (1 / of_int (capacity ^ 2)))
                    - EdgeGuide.dirmul_reference lgamma (1 # 2)
                        (replicate capacity (1 / of_int capacity))
                    - EdgeGuide.dirmul_reference lgamma (1 # 2)
                        (replicate capacity (1 / of_int capacity)))%Q) as Hall.
    { intros k x Hk. pose proof (lookup_lt_Some _ _ _ Hk) as Hlt.
      rewrite Hlen in Hlt. unfold K in Hlt. rewrite <- complete_pairs_length in Hlt.
      destruct (lookup_lt_is_Some_2 _ _ Hlt) as [[v1 v2] Hp].
      apply complete_pairs_lookup_inv in Hp as (H1 & H2 & ->).
      destruct (Hspec v1 v2 H1 H2) as (x' & prow & row1 & row2 & Hx & Hprow
                                        & Hrow1 & Hrow2 & Heq).
      rewrite Hk in Hx. injection Hx as <-.
      rewrite Hs0 in Hprow, Hrow1, Hrow2, Heq. simpl in Hprow, Hrow1, Hrow2, Heq.
      unfold full in Hprow, Hrow1, Hrow2.
      apply lookup_replicate in Hprow as [-> _].
      apply lookup_replicate in Hrow1 as [-> _].
      apply lookup_replicate in Hrow2 as [-> _]. exact Heq. }
    intros k k' x x' Hk Hk'. by rewrite (Hall _ _ Hk), (Hall _ _ Hk').
Qed.

Lemma fresh_guide_uniform_witness :
  (exists vertex_probs edge_probs,
     EdgeGuide.get_posterior guide3 = Ok (vertex_probs, edge_probs)
     /\ length vertex_probs = 3 /\ length edge_probs = length path3
     /\ (forall v m, v < 3 -> m < 2 ->
           (cell vertex_probs v m == 1 / of_int 2)%Q)
     /\ (forall e j, e < length path3 -> j < 2 * 2 ->
           (cell edge_probs e j == 1 / of_int (2 * 2))%Q))
  /\ (exists logits,
        EdgeGuide.compute_edge_logits (fun x => x * x)%Q guide3 = Ok logits
        /\ length logits = 3
        /\ forall k k' x x', logits !! k = Some x -> logits !! k' = Some x' ->
                             (x == x')%Q).
Proof.
  destruct (fresh_guide_uniform (fun x => x * x)%Q 2 path3 (1 # 100)%Q guide3)
    as (Hposterior & _ & _ & Hlogits).
  - intros x y Hxy. by rewrite Hxy.
  - vm_compute. reflexivity.
  - split; [|exact Hlogits]. apply Hposterior.
    repeat (constructor; [cbv; lia|]). constructor.
Defined.

(** ** [TreeCat.__init__] and the [edges] setter *)

Lemma edge_rows_tensor_of pairs :
  TreeCat.edge_rows (tensor_of pairs) = Ok pairs.
Proof.
  unfold TreeCat.edge_rows, tensor_of. simpl.
  induction pairs as [|[a b] pairs IH]; [done|]. simpl. by rewrite IH.
Qed.

Lemma index_edges_spec edges : forall e0 neighbors edge_index,
  Forall (fun e => e.1 < length neighbors /\ e.2 < length neighbors) edges ->
  exists nb idx,
    TreeCat.index_edges e0 edges neighbors edge_index = Ok (nb, idx)
    /\ add_edges neighbors edges = Ok nb
    /\ forall a b,
         match idx !! (a, b) with
         | Some e =>
             (edge_index !! (a, b) = Some e /\ ~ edge_between edges a b)
             \/ exists i, e = e0 + i /\ joins edges i a b
                          /\ forall i', i < i' -> ~ joins edges i' a b
         | None => edge_index !! (a, b) = None /\ ~ edge_between edges a b
         end.
Proof.
  induction edges as [|[v1 v2] edges IH]; intros e0 neighbors edge_index Hr.
  - exists neighbors, edge_index. split; [done|]. split; [done|].
    intros a b. unfold edge_between.
    destruct (edge_index !! (a, b)); [left|]; set_solver.
  - apply Forall_cons in Hr as [[H1 H2] Hr]. simpl in H1, H2.
    destruct (add_edge_spec neighbors v1 v2 H1 H2) as (nb1 & Hnb1 & Hlen1 & _).
    cbn [TreeCat.index_edges add_edges]. rewrite Hnb1. cbn [mbind res_bind].
    destruct (IH (S e0) nb1 (<[(v2, v1) := e0]> (<[(v1, v2) := e0]> edge_index)))
      as (nb & idx & Hidx & Hnb & Hspec).
    { by rewrite Hlen1. }
    exists nb, idx. split; [done|]. split; [done|]. intros a b.
    specialize (Hspec a b).
    assert (forall i, joins ((v1, v2) :: edges) (S i) a b <-> joins edges i a b)
      as Hshift by (intros i; unfold joins; simpl; tauto).
    assert (edge_between edges a b <-> exists i, joins edges i a b) as Hbetween.
    { unfold edge_between, joins. rewrite !list_elem_of_lookup. split.
      - intros [[i Hi]|[i Hi]]; exists i; eauto.
      - intros [i [Hi|Hi]]; eauto. }
    assert (edge_between ((v1, v2) :: edges) a b
            <-> ((v1, v2) = (a, b) \/ (v1, v2) = (b, a)) \/ edge_between edges a b)
      as Hcons.
    { unfold edge_between. rewrite !elem_of_cons. split.
      - intros [[?|?]|[?|?]]; eauto.
      - intros [[?|?]|[?|?]]; eauto. }
    destruct (idx !! (a, b)) as [e|] eqn:He.
    + destruct Hspec as [[Hold Hno]|(i & -> & Hi & Hlast)].
      * destruct (decide ((v1, v2) = (a, b) \/ (v1, v2) = (b, a))) as [Hhd|Hhd].
        -- right. exists 0. split.
           { destruct Hhd as [ [= -> ->] | [= -> ->] ].
             - destruct (decide ((b, a) = (a, b))) as [ [= ->] | Hne].
               + rewrite lookup_insert_eq in Hold. simplify_eq. lia.
               + rewrite lookup_insert_ne, lookup_insert_eq in Hold by done.
                 simplify_eq. lia.
             - rewrite lookup_insert_eq in Hold. simplify_eq. lia. }
           split.
           { unfold joins. simpl. destruct Hhd as [-> | ->]; eauto. }
           intros [|i'] Hi'; [lia|]. rewrite Hshift. intros Hj.
           apply Hno, Hbetween. eauto.
        -- left. split.
           { rewrite !lookup_insert_ne in Hold; [done| |].
             - intros [= -> ->]. apply Hhd. by left.
             - intros [= -> ->]. apply Hhd. by right. }
           rewrite Hcons. tauto.
      * right. exists (S i). split; [lia|]. split; [by apply Hshift|].
        intros [|i'] Hi'; [lia|]. rewrite Hshift. apply Hlast. lia.
    + destruct Hspec as [Hold Hno].
      destruct (decide ((a, b) = (v2, v1))) as [Heq|Hne1].
      { rewrite Heq, lookup_insert_eq in Hold. done. }
      rewrite lookup_insert_ne in Hold by done.
      destruct (decide ((a, b) = (v1, v2))) as [Heq|Hne2].
      { rewrite Heq, lookup_insert_eq in Hold. done. }
      rewrite lookup_insert_ne in Hold by done.
      split; [done|]. rewrite Hcons. intros [[?|?]|?]; [| |done].
      * by apply Hne2.
      * apply Hne1. by simplify_eq.
Qed.

Lemma edge_index_last edges neighbors :
  Forall (fun e => e.1 < length neighbors /\ e.2 < length neighbors) edges ->
  exists nb idx,
    TreeCat.index_edges 0 edges neighbors ∅ = Ok (nb, idx)
    /\ add_edges neighbors edges = Ok nb
    /\ (forall a b e, idx !! (a, b) = Some e
                      <-> joins edges e a b
                          /\ forall e', e < e' -> ~ joins edges e' a b)
    /\ (forall a b, is_Some (idx !! (a, b)) <-> edge_between edges a b).
Proof.
  intros Hr.
  destruct (index_edges_spec edges 0 neighbors ∅ Hr) as (nb & idx & Hidx & Hnb & Hspec).
  exists nb, idx. split; [done|]. split; [done|].
  assert (forall a b, edge_between edges a b <-> exists i, joins edges i a b)
    as Hbetween.
  { intros a b. unfold edge_between, joins. rewrite !list_elem_of_lookup. split.
    - intros [[i Hi]|[i Hi]]; exists i; eauto.
    - intros [i [Hi|Hi]]; eauto. }
  assert (forall a b e, idx !! (a, b) = Some e ->
            joins edges e a b /\ forall e', e < e' -> ~ joins edges e' a b)
    as Hsound.
  { intros a b e He. specialize (Hspec a b). rewrite He in Hspec.
    destruct Hspec as [[Hold _]|(i & -> & Hi & Hlast)]; [done|]. done. }
  assert (forall a b, edge_between edges a b -> is_Some (idx !! (a, b)))
    as Hcomplete.
  { intros a b Hab. specialize (Hspec a b).
    destruct (idx !! (a, b)); [done|]. by destruct Hspec as [_ Hno]. }
  split.
  - intros a b e. split; [apply Hsound|]. intros [Hj Hlast].
    destruct (Hcomplete a b) as [e' He']; [apply Hbetween; eauto|].
    destruct (Hsound _ _ _ He') as [Hj' Hlast'].
    destruct (Nat.lt_trichotomy e e') as [Hlt|[->|Hlt]]; [|done|].
    + by destruct (Hlast _ Hlt).
    + by destruct (Hlast' _ Hlt).
  - intros a b. split; [|apply Hcomplete].
    intros [e He]. apply Hbetween. exists e. by apply Hsound in He as [? _].
Qed.

Lemma treecat_init_run {Feature : Type} (features : list Feature) capacity
    pairs annealing_rate :
  (1 < capacity)%Z -> length features = length pairs + 1 ->
  (0 < annealing_rate)%Q ->
  Forall (fun e => e.1 < length features /\ e.2 < length features) pairs ->
  exists s0 c nb idx,
    TreeCat.__init__ features capacity (Some (tensor_of pairs)) annealing_rate
    = Ok (TreeCat.mk Feature features (Z.to_nat capacity) s0
            (replicate (Z.to_nat capacity) (1 # 2)%Q)
            (replicate (Z.to_nat capacity * Z.to_nat capacity)
                       ((1 # 2) / of_int (Z.to_nat capacity))%Q)
            None pairs c nb idx)
    /\ EdgeGuide.__init__ (Z.to_nat capacity) pairs annealing_rate = Ok s0
    /\ find_center_of_tree pairs = Ok c
    /\ c < length features
    /\ TreeCat.index_edges 0 pairs (replicate (length features) ∅) ∅
       = Ok (nb, idx)
    /\ build_neighbors (length features) pairs = Ok nb
    /\ (forall a b e, idx !! (a, b) = Some e
                      <-> joins pairs e a b
                          /\ forall e', e < e' -> ~ joins pairs e' a b)
    /\ (forall a b, is_Some (idx !! (a, b)) <-> edge_between pairs a b).
Proof.
  intros Hcap Hlen Hrate Hr.
  assert (Forall (fun e => e.1 < length pairs + 1 /\ e.2 < length pairs + 1) pairs)
    as Hr' by (by rewrite <- Hlen).
  destruct (strip_leaves_in_range pairs Hr') as (c & _ & Hc & HcV & _).
  destruct (edge_index_last pairs (replicate (length features) ∅))
    as (nb & idx & Hidx & Hnb & Hlast & Hsome).
  { by rewrite length_replicate. }
  assert (Z.to_nat capacity <> 0) as HM by lia.
  pose proof (of_int_pos _ HM) as HM0.
  assert (Z.to_nat capacity ^ 2 <> 0) as HM2 by (by apply Nat.pow_nonzero).
  pose proof (of_int_pos _ HM2) as HM20.
  eexists _, c, nb, idx.
  split; [|split; [|split; [done|split; [lia|split; [done|done]]]]].
  - unfold TreeCat.__init__. cbn [mbind res_bind].
    rewrite (bool_decide_eq_true_2 (capacity > 1)%Z) by lia.
    cbn [assert mbind res_bind].
    rewrite (bool_decide_eq_true_2 (shape (tensor_of pairs) = _)).
    2:{ unfold tensor_of. simpl. f_equal. lia. }
    cbn [assert mbind res_bind]. rewrite edge_rows_tensor_of.
    cbn [mbind res_bind]. unfold EdgeGuide.__init__.
    rewrite bool_decide_eq_true_2 by done. cbn [assert mbind res_bind].
    rewrite !truediv_pos by done. cbn [mbind res_bind mret res_ret].
    rewrite Hc. cbn [mbind res_bind]. rewrite Hidx. cbn [mbind res_bind].
    reflexivity.
  - unfold EdgeGuide.__init__.
    rewrite bool_decide_eq_true_2 by done. cbn [assert mbind res_bind].
    rewrite !truediv_pos by done. reflexivity.
Qed.

Lemma treecat_init_inv {Feature : Type} (features : list Feature)
    capacity pairs annealing_rate self :
  TreeCat.__init__ features capacity (Some (tensor_of pairs)) annealing_rate
  = Ok self ->
  (1 < capacity)%Z
  /\ length features = length pairs + 1
  /\ (0 < annealing_rate)%Q
  /\ Forall (fun e => e.1 < length features /\ e.2 < length features) pairs.
Proof.
  intros H. unfold TreeCat.__init__ in H. cbn [mbind res_bind] in H.
  apply bind_Ok in H as (? & Hcap%assert_Ok%bool_decide_eq_true & H).
  apply bind_Ok in H as (? & Hshape%assert_Ok%bool_decide_eq_true & H).
  rewrite edge_rows_tensor_of in H. cbn [mbind res_bind] in H.
  apply bind_Ok in H as (s0 & Hs0 & H).
  apply bind_Ok in H as (? & _ & H).
  apply bind_Ok in H as (c & Hc & _).
  apply guide_init_inv in Hs0 as (Hrate & _).
  unfold tensor_of in Hshape. simpl in Hshape. injection Hshape as Hshape.
  assert (length features = length pairs + 1) as Hlen by lia.
  split; [lia|]. split; [done|]. split; [done|].
  destruct (in_range_or_not (length pairs + 1) pairs) as [Hr|Hex].
  + by rewrite Hlen.
  + by rewrite (find_center_of_tree_raise pairs Hex) in Hc.
Qed.

Lemma treecat_init_default {Feature : Type} (features : list Feature)
    capacity annealing_rate self :
  TreeCat.__init__ features capacity None annealing_rate = Ok self ->
  features <> []
  /\ TreeCat.__init__ features capacity
       (Some (tensor_of (path_edges (length features)))) annealing_rate
     = Ok self.
Proof.
  intros H. unfold TreeCat.__init__ in H |- *. cbn [mbind res_bind] in H |- *.
  unfold TreeCat.default_edges in H.
  destruct (decide (Z.of_nat (length features) - 1 < 0)%Z) as [Hneg|Hpos];
    [done|].
  split; [intros ->; simpl in Hpos; lia|].
  cbn [mbind res_bind] in H. rewrite <- H. unfold tensor_of, path_edges.
  rewrite !length_map, length_seq, map_map.
  replace (Z.to_nat (Z.of_nat (length features) - 1))
    with (length features - 1) by lia.
  replace (Z.of_nat (length features - 1))
    with (Z.of_nat (length features) - 1)%Z by lia.
  reflexivity.
Qed.

Lemma treecat_init_pairs {Feature : Type} (features : list Feature)
    capacity (edges : option (list (nat * nat))) annealing_rate self :
  TreeCat.__init__ features capacity (tensor_of <$> edges) annealing_rate
  = Ok self ->
  exists pairs,
    TreeCat.__init__ features capacity (Some (tensor_of pairs)) annealing_rate
    = Ok self
    /\ pairs = default (path_edges (length features)) edges.
Proof.
  destruct edges as [pairs|]; simpl; [eauto|].
  intros [_ H]%treecat_init_default. eauto.
Qed.

(** X12. [TreeCat.__init__] accepts a tensor of edges whose entries are not
    negative exactly when the capacity is above 1, there is one row fewer
    than features, the annealing rate is positive and every endpoint is below
    the number of features.  It does not check that the rows form a tree: a
    repeated pair or a cycle is accepted. *)
Theorem treecat_init_accepts {Feature : Type} (features : list Feature)
    capacity pairs annealing_rate :
  (exists self,
     TreeCat.__init__ features capacity (Some (tensor_of pairs)) annealing_rate
     = Ok self)
  <-> (1 < capacity)%Z
      /\ length features = length pairs + 1
      /\ (0 < annealing_rate)%Q
      /\ Forall (fun e => e.1 < length features /\ e.2 < length features) pairs.
Proof.
  split.
  - intros [self H]. by eapply treecat_init_inv.
  - intros (Hcap & Hlen & Hrate & Hr).
    destruct (treecat_init_run features capacity pairs annealing_rate
                Hcap Hlen Hrate Hr) as (s0 & c & nb & idx & H & _).
    eauto.
Qed.

Lemma treecat_init_accepts_witness :
  exists self,
    TreeCat.__init__ [tt; tt; tt; tt] 2 (Some (tensor_of doubled_edge))
      (1 # 100)%Q
    = Ok self.
Proof.
  apply (proj2 (treecat_init_accepts [tt; tt; tt; tt] 2 doubled_edge (1 # 100)%Q)).
  split; [lia|]. split; [reflexivity|]. split; [reflexivity|].
  repeat constructor; simpl; lia.
Defined.

(** X13. The directed-tree structures the [edges] setter builds from the rows
    agree with each other: [_edge_index[a, b]] is the last row that joins [a]
    and [b] in either order, and the same for [[b, a]]; a pair is a key
    exactly when [b] is in [_neighbors[a]], which is exactly when some row
    joins the two; the edge guide holds the same edges, and [_root] is their
    centre. *)
Theorem treecat_init_edge_index {Feature : Type} (features : list Feature)
    capacity edges annealing_rate self :
  TreeCat.__init__ features capacity (tensor_of <$> edges) annealing_rate
  = Ok self ->
  let pairs := TreeCat._edges Feature self in
  pairs = default (path_edges (length features)) edges
  /\ EdgeGuide.edges (TreeCat._edge_guide Feature self) = pairs
  /\ find_center_of_tree pairs = Ok (TreeCat._root Feature self)
  /\ length (TreeCat._neighbors Feature self) = length features
  /\ (forall a b e,
        TreeCat._edge_index Feature self !! (a, b) = Some e
        <-> joins pairs e a b /\ forall e', e < e' -> ~ joins pairs e' a b)
  /\ (forall a b,
        TreeCat._edge_index Feature self !! (a, b)
        = TreeCat._edge_index Feature self !! (b, a))
  /\ (forall a b,
        b ∈ neighbors_of (TreeCat._neighbors Feature self) a
        <-> is_Some (TreeCat._edge_index Feature self !! (a, b)))
  /\ (forall a b,
        b ∈ neighbors_of (TreeCat._neighbors Feature self) a
        <-> edge_between pairs a b).
Proof.
  intros Hinit0.
  destruct (treecat_init_pairs _ _ _ _ _ Hinit0) as (pairs & Hinit & Hpairs).
  destruct (treecat_init_inv _ _ _ _ _ Hinit) as (Hcap & Hlen & Hrate & Hr).
  destruct (treecat_init_run features capacity pairs annealing_rate
              Hcap Hlen Hrate Hr)
    as (s0 & c & nb & idx & H & Hs0 & Hc & _ & _ & Hnb & Hlast & Hsome).
  rewrite H in Hinit. injection Hinit as <-. simpl.
  destruct (build_neighbors_spec (length features) pairs Hr)
    as (nb' & Hnb' & Hnblen & _ & Hmem).
  rewrite Hnb in Hnb'. injection Hnb' as <-.
  apply guide_init_inv in Hs0 as (_ & _ & ->). simpl.
  split; [done|]. split; [done|]. split; [done|]. split; [done|].
  split; [exact Hlast|].
  assert (forall a b, edge_between pairs a b <-> edge_between pairs b a) as Hsym.
  { intros a b. unfold edge_between. tauto. }
  split; [|split].
  - intros a b. destruct (idx !! (a, b)) as [e|] eqn:Hab.
    + symmetry. apply Hlast. apply Hlast in Hab as [Hj Hl]. unfold joins in *.
      split; [tauto|]. intros e' He' Hj'. apply (Hl e' He'). tauto.
    + destruct (idx !! (b, a)) as [e|] eqn:Hba; [|done].
      assert (is_Some (idx !! (a, b))) as [e' He'].
      { apply Hsome, Hsym, Hsome. eauto. }
      by rewrite Hab in He'.
  - intros a b. by rewrite Hmem, Hsome.
  - exact Hmem.
Qed.

Lemma treecat_init_edge_index_witness :
  let pairs := TreeCat._edges unit tree3 in
  pairs = default (path_edges 3) None
  /\ EdgeGuide.edges (TreeCat._edge_guide unit tree3) = pairs
  /\ find_center_of_tree pairs = Ok (TreeCat._root unit tree3)
  /\ length (TreeCat._neighbors unit tree3) = 3
  /\ (forall a b e,
        TreeCat._edge_index unit tree3 !! (a, b) = Some e
        <-> joins pairs e a b /\ forall e', e < e' -> ~ joins pairs e' a b)
  /\ (forall a b,
        TreeCat._edge_index unit tree3 !! (a, b)
        = TreeCat._edge_index unit tree3 !! (b, a))
  /\ (forall a b,
        b ∈ neighbors_of (TreeCat._neighbors unit tree3) a
        <-> is_Some (TreeCat._edge_index unit tree3 !! (a, b)))
  /\ (forall a b,
        b ∈ neighbors_of (TreeCat._neighbors unit tree3) a
        <-> edge_between pairs a b).
Proof.
  apply (treecat_init_edge_index [tt; tt; tt] 2 None (1 # 100)%Q tree3).
  exact tree3_init.
Defined.

(** X14. With no edges given, [TreeCat.__init__] links the features in a
    chain, feature [i] to feature [i + 1], and roots the directed tree at the
    middle feature [V / 2]; the neighbours of a feature are the one before and
    the one after it. *)
Theorem treecat_default_chain {Feature : Type} (features : list Feature)
    capacity annealing_rate :
  features <> [] -> (1 < capacity)%Z -> (0 < annealing_rate)%Q ->
  exists self,
    TreeCat.__init__ features capacity None annealing_rate = Ok self
    /\ TreeCat._edges Feature self = path_edges (length features)
    /\ TreeCat._root Feature self = length features / 2
    /\ forall a b,
         b ∈ neighbors_of (TreeCat._neighbors Feature self) a
         <-> a < length features /\ b < length features
             /\ (b = S a \/ a = S b).
Proof.
  intros Hne Hcap Hrate. set (V := length features).
  assert (1 <= V) as HV by (unfold V; destruct features; [done|simpl; lia]).
  assert (TreeCat.default_edges (Z.of_nat V - 1) = Ok (tensor_of (path_edges V)))
    as Hdefault.
  { unfold TreeCat.default_edges. rewrite decide_False by lia.
    unfold tensor_of, path_edges. rewrite !length_map, length_seq.
    replace (Z.to_nat (Z.of_nat V - 1)) with (V - 1) by lia.
    rewrite map_map. do 2 f_equal. f_equal. lia. }
  assert (Forall (fun e => e.1 < V /\ e.2 < V) (path_edges V)) as Hr.
  { apply Forall_forall. intros [a b] Hin.
    assert (edge_between (path_edges V) a b) as He by (by left).
    apply path_edges_between in He. simpl. lia. }
  destruct (treecat_init_run features capacity (path_edges V) annealing_rate)
    as (s0 & c & nb & idx & H & _ & Hc & _ & _ & Hnb & _); try done.
  { rewrite path_edges_length. fold V. lia. }
  rewrite (find_center_of_path V HV) in Hc. injection Hc as <-.
  eexists. split.
  - unfold TreeCat.__init__ in H |- *. cbn [mbind res_bind] in H |- *.
    fold V. rewrite Hdefault. exact H.
  - simpl. split; [done|]. split; [done|].
    destruct (build_neighbors_spec V (path_edges V) Hr) as (nb' & Hnb' & _ & _ & Hmem).
    fold V in Hnb. rewrite Hnb in Hnb'. injection Hnb' as <-.
    intros a b. rewrite Hmem. split.
    + intros Hab. apply path_edges_between in Hab. lia.
    + intros (Ha & Hb & Hab). apply path_edges_between. lia.
Qed.

Lemma treecat_default_chain_witness :
  exists self,
    TreeCat.__init__ [tt; tt; tt] 2 None (1 # 100)%Q = Ok self
    /\ TreeCat._edges unit self = path_edges 3
    /\ TreeCat._root unit self = 3 / 2
    /\ forall a b,
         b ∈ neighbors_of (TreeCat._neighbors unit self) a
         <-> a < 3 /\ b < 3 /\ (b = S a \/ a = S b).
Proof.
  apply (treecat_default_chain [tt; tt; tt] 2 (1 # 100)%Q); [done|lia|reflexivity].
Defined.

(** ** Pickling *)

Lemma guide_set_edges_same guide :
  guide_set_edges (EdgeGuide.edges guide) guide = guide.
Proof. by destruct guide. Qed.

(** X15. Pickling round trip: for a model built by [__init__], whatever edge
    guide it holds for its edges by now and whatever latent states it has
    saved, [__setstate__] applied to the dictionary of [__getstate__] gives
    the model back with the same features, capacity, edges, root, neighbour
    sets, edge index and edge guide, and with [_saved_z] reset to [None].  The
    guide that [__init__] builds again with the default annealing rate is
    dropped in favour of the pickled one. *)
Theorem pickle_round_trip {Feature : Type} (features : list Feature)
    capacity edges annealing_rate self0 guide z :
  TreeCat.__init__ features capacity (tensor_of <$> edges) annealing_rate
  = Ok self0 ->
  EdgeGuide.edges guide = TreeCat._edges Feature self0 ->
  __setstate__ (__getstate__ (set_saved_z z (set_edge_guide guide self0)))
  = Ok (set_saved_z None (set_edge_guide guide self0)).
Proof.
  intros Hinit0 Hguide.
  destruct (treecat_init_pairs _ _ _ _ _ Hinit0) as (pairs & Hinit & _).
  destruct (treecat_init_inv _ _ _ _ _ Hinit) as (Hcap & Hlen & Hrate & Hr).
  destruct (treecat_init_run features capacity pairs annealing_rate
              Hcap Hlen Hrate Hr)
    as (s0 & c & nb & idx & H & _ & Hc & _ & Hidx & _).
  rewrite H in Hinit. injection Hinit as <-. simpl in Hguide.
  unfold __setstate__, __getstate__. simpl.
  destruct (treecat_init_run features (Z.of_nat (Z.to_nat capacity)) pairs
              (1 # 100)%Q) as (s1 & c' & nb' & idx' & H' & _ & Hc' & _ & Hidx' & _);
    [lia|done|reflexivity|done|].
  rewrite Hc in Hc'. injection Hc' as <-.
  rewrite Hidx in Hidx'. injection Hidx' as <- <-.
  rewrite H'. cbn [mbind res_bind]. unfold set_edge_guide, set_saved_z. simpl.
  rewrite <- Hguide, guide_set_edges_same, Nat2Z.id. reflexivity.
Qed.

Lemma pickle_round_trip_witness :
  __setstate__
    (__getstate__
       (set_saved_z (Some [Some [0]; Some [0]; Some [1]])
          (set_edge_guide (fst (EdgeGuide.update guide3 (Some 1) z3)) tree3)))
  = Ok (set_saved_z None
          (set_edge_guide (fst (EdgeGuide.update guide3 (Some 1) z3)) tree3)).
Proof.
  apply (pickle_round_trip [tt; tt; tt] 2 None (1 # 100)%Q tree3).
  - exact tree3_init.
  - reflexivity.
Defined.

(** * Properties of [DoMessenger] *)



Section DoMessengerProperties.

Variables Distribution Tensor Number Rest : Type.
Variable event_dim : Distribution -> nat.
Variable float : Number -> res Q.
Variable tensor : Q -> Tensor.
Variable Delta : Tensor -> nat -> res Distribution.

Implicit Types (self other : DoMessenger.t Distribution Tensor Number)
  (msg new_msg : Message.t Distribution Tensor Rest)
  (i : DoMessenger.intervention Distribution Tensor Number).

Lemma pyro_sample_skip self msg :
  Message._intervener_id msg = Some (DoMessenger._intervener_id self)
  \/ DoMessenger.data self !! Message.name msg = None ->
  DoMessenger._pyro_sample event_dim float tensor Delta self msg = (msg, [], Ok tt).
Proof.
  intros H. unfold DoMessenger._pyro_sample.
  destruct H as [H|H].
  - rewrite (bool_decide_eq_false_2 (_ <> _)); [done|]. by intros Hne.
  - rewrite H. rewrite (bool_decide_eq_false_2 (is_Some None)).
    + by rewrite andb_false_r.
    + by intros [? ?].
Qed.

Lemma pyro_sample_fire self msg i :
  Message._intervener_id msg <> Some (DoMessenger._intervener_id self) ->
  DoMessenger.data self !! Message.name msg = Some i ->
  DoMessenger._pyro_sample event_dim float tensor Delta self msg
  = (match DoMessenger.intervened_fn event_dim float tensor Delta i (Message.fn msg)
     with
     | Ok d =>
         Message.mk (String.append (Message.name msg) "__CF") d
           None false false
           (Some (DoMessenger._intervener_id self)) (Message.rest msg)
     | _ =>
         Message.mk (String.append (Message.name msg) "__CF") (Message.fn msg)
           (Message.value msg) (Message.is_observed msg) (Message.done msg)
           (Some (DoMessenger._intervener_id self)) (Message.rest msg)
     end,
     (if bool_decide (Message._intervener_id msg <> None)
      then [DoMessenger.Warn (DoMessenger.warning_text (Message.name msg))]
      else [])
     ++ [DoMessenger.ApplyStack
           (Message.set_intervener_id
              (Some (DoMessenger._intervener_id self)) msg)],
     _ ← DoMessenger.intervened_fn event_dim float tensor Delta i (Message.fn msg);
     Ok tt).
Proof.
  intros Hid Hdata. unfold DoMessenger._pyro_sample.
  rewrite (bool_decide_eq_true_2 (_ <> _)) by done.
  rewrite Hdata. rewrite (bool_decide_eq_true_2 (is_Some _)) by eauto.
  cbn [andb]. cbv zeta. cbn [Message.name Message.set_intervener_id].
  rewrite Hdata. unfold DoMessenger.intervened_fn.
  destruct i as [|d|x|v]; simpl; try reflexivity;
    [destruct (float x); simpl; try reflexivity|];
    destruct (Delta _ _); reflexivity.
Qed.

Lemma pyro_sample_cases self msg :
  (DoMessenger._pyro_sample event_dim float tensor Delta self msg = (msg, [], Ok tt)
   /\ (Message._intervener_id msg = Some (DoMessenger._intervener_id self)
       \/ DoMessenger.data self !! Message.name msg = None))
  \/ exists i,
       Message._intervener_id msg <> Some (DoMessenger._intervener_id self)
       /\ DoMessenger.data self !! Message.name msg = Some i.
Proof.
  destruct (decide (Message._intervener_id msg
                    = Some (DoMessenger._intervener_id self))) as [Hid|Hid].
  { left. split; [apply pyro_sample_skip|]; by left. }
  destruct (DoMessenger.data self !! Message.name msg) as [i|] eqn:Hdata.
  - right. eauto.
  - left. split; [apply pyro_sample_skip|]; by right.
Qed.


(** X17. A messenger never intervenes twice on the same message, nor on the
    copy it has sent to the handler stack: applied again to the message it has
    left behind, or to that copy, [_pyro_sample] changes nothing, warns of
    nothing, sends nothing and returns, also after a call that raised. *)
Theorem do_no_reentry self msg msg' effects r :
  DoMessenger._pyro_sample event_dim float tensor Delta self msg
  = (msg', effects, r) ->
  DoMessenger._pyro_sample event_dim float tensor Delta self msg' = (msg', [], Ok tt)
  /\ forall new_msg,
       DoMessenger.ApplyStack new_msg ∈ effects ->
       DoMessenger._pyro_sample event_dim float tensor Delta self new_msg
       = (new_msg, [], Ok tt).
Proof.
  intros H.
  destruct (pyro_sample_cases self msg) as [[Hskip Hwhy]|(i & Hid & Hdata)].
  - rewrite Hskip in H. injection H as <- <- <-. split; [done|].
    intros new_msg Hin. by apply elem_of_nil in Hin.
  - rewrite (pyro_sample_fire self msg i Hid Hdata) in H. injection H as <- <- <-.
    split.
    { apply pyro_sample_skip. left.
      by destruct (DoMessenger.intervened_fn event_dim float tensor Delta i
                     (Message.fn msg)). }
    intros new_msg Hin. apply elem_of_app in Hin as [Hin|Hin].
    + case_bool_decide; [|by apply elem_of_nil in Hin].
      by apply list_elem_of_singleton in Hin.
    + apply list_elem_of_singleton in Hin. injection Hin as ->.
      apply pyro_sample_skip. by left.
Qed.


End DoMessengerProperties.

(** The intervention with the complex number [1j] on the observed site [z]:
    the copy is sent, the site is renamed, and [float] raises. *)
Lemma do_complex_number :
  DoMessenger._pyro_sample (fun _ => 0) float_of id delta_name do_complex site_z
  = (Message.mk "z__CF" "Normal" (Some 3%Q) true false (Some "3"%string) tt,
     [DoMessenger.ApplyStack
        (Message.set_intervener_id (Some "3"%string) site_z)],
     Raise TypeError).
Proof. vm_compute. reflexivity. Qed.

Lemma do_no_reentry_witness :
  let msg' : Message.t string Q unit :=
    Message.mk "z__CF" "Delta" None false false (Some "1"%string) tt in
  let copy := Message.set_intervener_id (Some "1"%string) site_z in
  DoMessenger._pyro_sample (fun _ => 0) float_of id delta_name do_one msg'
  = (msg', [], Ok tt)
  /\ forall new_msg,
       DoMessenger.ApplyStack new_msg ∈ [DoMessenger.ApplyStack copy] ->
       DoMessenger._pyro_sample (fun _ => 0) float_of id delta_name do_one new_msg
       = (new_msg, [], Ok tt).
Proof.
  apply (do_no_reentry string Q number unit (fun _ => 0) float_of id delta_name do_one site_z
           _ _ (Ok tt)).
  vm_compute. reflexivity.
Defined.


(** ** [TreeCat.model]: one sample per vertex, along the tree *)

Lemma hangs_inv neighbors parent v kids :
  hangs neighbors parent (Node v kids) ->
  neighbors !! v
  = Some (list_to_set (map root_of kids)
          ∪ match parent with Some p => {[p]} | None => ∅ end)
  /\ Forall (hangs neighbors (Some v)) kids.
Proof. by inversion 1. Qed.

Lemma rooted_hangs neighbors t :
  forall parent, rooted neighbors parent t -> hangs neighbors parent t.
Proof.
  induction t as [v kids IH] using rtree_induction.
  intros parent (Hs & _ & Hkids)%rooted_inv. constructor; [done|].
  rewrite Forall_forall in IH. rewrite Forall_forall in Hkids.
  apply Forall_forall. intros k Hk. by apply IH, Hkids.
Qed.

Lemma height_kid v kids k : k ∈ kids -> height k < height (Node v kids).
Proof.
  intros Hk. simpl. apply Nat.lt_succ_r.
  induction kids as [|a kids IH]; [by apply elem_of_nil in Hk|].
  apply elem_of_cons in Hk as [->|Hk]; simpl; [lia|].
  specialize (IH Hk). lia.
Qed.

Lemma height_vertices t : height t <= length (vertices t).
Proof.
  induction t as [v kids IH] using rtree_induction. simpl.
  apply le_n_S. induction IH as [|k kids Hk _ IHkids]; simpl; [lia|].
  rewrite length_app. lia.
Qed.

Lemma conditional_ext {Feature : Type} (self : TreeCat.t Feature)
    vertex_probs edge_probs z1 z2 v parent :
  (forall p, parent = Some p -> z1 !! p = z2 !! p) ->
  TreeCat.conditional self vertex_probs edge_probs z1 v parent
  = TreeCat.conditional self vertex_probs edge_probs z2 v parent.
Proof.
  intros H. unfold TreeCat.conditional. destruct parent as [p|]; [|done].
  unfold getitem. by rewrite (H p eq_refl).
Qed.

Lemma sampled_ext {Feature : Type} sample_z (self : TreeCat.t Feature)
    vertex_probs edge_probs z1 z2 parent v :
  z1 !! v = z2 !! v -> (forall p, parent = Some p -> z1 !! p = z2 !! p) ->
  sampled sample_z self vertex_probs edge_probs z1 parent v ->
  sampled sample_z self vertex_probs edge_probs z2 parent v.
Proof.
  intros Hv Hp (p & Hc & Hz). exists p.
  rewrite <- (conditional_ext self vertex_probs edge_probs z1 z2 v parent Hp).
  split; [done|]. by rewrite <- Hv.
Qed.

Lemma emitted_ext {Column : Type} sample_x (data : list (option Column))
    impute z1 z2 x1 x2 v :
  z1 !! v = z2 !! v -> x1 !! v = x2 !! v ->
  emitted sample_x data impute z1 x1 v -> emitted sample_x data impute z2 x2 v.
Proof.
  intros Hz Hx (states & dv & H1 & H2 & H3). exists states, dv.
  by rewrite <- Hz, <- Hx.
Qed.

Lemma tree_edges_vertices t a b :
  (a, b) ∈ tree_edges t -> a ∈ vertices t /\ b ∈ vertices t.
Proof.
  induction t as [v kids IH] using rtree_induction. simpl.
  rewrite elem_of_app, elem_of_cons. intros [Hin|Hin].
  - apply list_elem_of_fmap in Hin as (k & [= -> ->] & Hk). split; [by left|].
    right. apply elem_of_concat. exists (vertices k).
    split; [apply root_in_vertices|]. apply list_elem_of_fmap. eauto.
  - apply elem_of_concat in Hin as (l & Hin & Hl).
    apply list_elem_of_fmap in Hl as (k & -> & Hk).
    rewrite Forall_forall in IH. destruct (IH k Hk Hin) as [Ha Hb].
    split; right; apply elem_of_concat; exists (vertices k);
      (split; [done|]); apply list_elem_of_fmap; eauto.
Qed.

Lemma concat_vertices_perm (ks ks' : list rtree) :
  ks ≡ₚ ks' -> concat (map vertices ks) ≡ₚ concat (map vertices ks').
Proof.
  induction 1 as [|k ks ks' _ IH|k1 k2 ks|ks1 ks2 ks3 _ IH1 _ IH2]; simpl.
  - done.
  - by rewrite IH.
  - rewrite !app_assoc. f_equiv. apply Permutation_app_comm.
  - by rewrite IH1.
Qed.

Section ModelRun.

Context {Feature Column : Type}.
Variable sample_z : nat -> probs -> list nat.
Variable sample_x : nat -> list nat -> option Column -> Column.
Variable self : TreeCat.t Feature.
Variable data : list (option Column).
Variable impute : bool.
Variables vertex_probs edge_probs : list (list Q).

Hypothesis data_length :
  length data = length (TreeCat._neighbors Feature self).
Hypothesis vertex_probs_length :
  length vertex_probs = length (TreeCat._neighbors Feature self).
Hypothesis edge_tables :
  forall a b,
    b ∈ neighbors_of (TreeCat._neighbors Feature self) a ->
    exists e joint,
      TreeCat._edge_index Feature self !! (a, b) = Some e
      /\ edge_probs !! e = Some joint
      /\ length joint
         = TreeCat.capacity Feature self * TreeCat.capacity Feature self.
Hypothesis states_below_capacity :
  forall v p,
    Forall (fun st => st < TreeCat.capacity Feature self) (sample_z v p).

Lemma propagate_children fuel v : forall (ks : list rtree) z x,
  Forall (fun k => forall parent z x,
            hangs (TreeCat._neighbors Feature self) parent k ->
            NoDup (vertices k) ->
            ready self z x parent k ->
            exists z' x',
              TreeCat._propagate sample_z sample_x fuel self data impute
                vertex_probs edge_probs (z, x) (root_of k) = Ok (z', x')
              /\ propagated sample_z sample_x self data impute vertex_probs
                   edge_probs z x z' x' parent k) ks ->
  Forall (hangs (TreeCat._neighbors Feature self) (Some v)) ks ->
  NoDup (concat (map vertices ks)) ->
  length z = length (TreeCat._neighbors Feature self) ->
  length x = length (TreeCat._neighbors Feature self) ->
  (forall u, u ∈ concat (map vertices ks) ->
             z !! u = Some None /\ x !! u = Some None) ->
  v ∉ concat (map vertices ks) ->
  (exists states,
     z !! v = Some (Some states)
     /\ Forall (fun st => st < TreeCat.capacity Feature self) states) ->
  exists z' x',
    TreeCat.for_each (TreeCat._propagate sample_z sample_x fuel self data impute
                vertex_probs edge_probs) (map root_of ks) (z, x)
    = Ok (z', x')
    /\ length z' = length (TreeCat._neighbors Feature self)
    /\ length x' = length (TreeCat._neighbors Feature self)
    /\ (forall u, u ∉ concat (map vertices ks) ->
                  z' !! u = z !! u /\ x' !! u = x !! u)
    /\ (forall u, u ∈ concat (map vertices ks) ->
          exists states,
            z' !! u = Some (Some states)
            /\ Forall (fun st => st < TreeCat.capacity Feature self) states)
    /\ (forall u, u ∈ concat (map vertices ks) ->
                  emitted sample_x data impute z' x' u)
    /\ (forall k, k ∈ ks ->
          sampled sample_z self vertex_probs edge_probs z' (Some v) (root_of k))
    /\ (forall k a b, k ∈ ks -> (a, b) ∈ tree_edges k ->
          sampled sample_z self vertex_probs edge_probs z' (Some a) b).
Proof.
  induction ks as [|k ks IH]; intros z x HP Hhangs Hnd Hz Hx Hun Hv Hpar.
  { exists z, x. simpl. repeat split; try done.
    - intros u Hu. by apply elem_of_nil in Hu.
    - intros u Hu. by apply elem_of_nil in Hu.
    - intros k Hk. by apply elem_of_nil in Hk.
    - intros k a b Hk. by apply elem_of_nil in Hk. }
  apply Forall_cons in HP as [HPk HP].
  apply Forall_cons in Hhangs as [Hk Hhangs].
  simpl in Hnd, Hun, Hv. apply NoDup_app in Hnd as (Hndk & Hdisj & Hndks).
  rewrite not_elem_of_app in Hv. destruct Hv as [Hvk Hvks].
  destruct (HPk (Some v) z x Hk Hndk) as (z1 & x1 & Hrun & Hprop).
  { split; [done|]. split; [done|]. split.
    - intros u Hu. apply Hun, elem_of_app. by left.
    - intros p [= <-]. done. }
  destruct Hprop as (Hz1 & Hx1 & Hout1 & Hin1 & Hem1 & Hroot1 & Hedges1).
  destruct (IH z1 x1 HP Hhangs Hndks Hz1 Hx1)
    as (z2 & x2 & Hloop & Hz2 & Hx2 & Hout2 & Hin2 & Hem2 & Hroot2 & Hedges2).
  { intros u Hu. destruct (Hout1 u) as [-> ->].
    - intros Huk. by apply (Hdisj u).
    - apply Hun, elem_of_app. by right. }
  { done. }
  { destruct (Hout1 v Hvk) as [-> _]. done. }
  exists z2, x2. cbn [map TreeCat.for_each]. rewrite Hrun. cbn [mbind res_bind].
  split; [exact Hloop|]. split; [done|]. split; [done|].
  assert (forall u, u ∈ vertices k -> z2 !! u = z1 !! u /\ x2 !! u = x1 !! u)
    as Hkeep.
  { intros u Hu. apply Hout2. intros Hin. by apply (Hdisj u). }
  assert (z2 !! v = z1 !! v) as Hv2 by (by apply Hout2).
  split; [|split; [|split; [|split]]].
  - intros u [Hu1 Hu2]%not_elem_of_app.
    destruct (Hout2 u Hu2) as [-> ->]. by apply Hout1.
  - intros u [Hu|Hu]%elem_of_app; [|by apply Hin2].
    destruct (Hkeep u Hu) as [-> _]. by apply Hin1.
  - intros u [Hu|Hu]%elem_of_app; [|by apply Hem2].
    destruct (Hkeep u Hu) as [Hzu Hxu].
    eapply emitted_ext; [symmetry; exact Hzu | symmetry; exact Hxu |].
    by apply Hem1.
  - intros k' [->|Hk']%elem_of_cons; [|by apply Hroot2].
    eapply sampled_ext; [| |exact Hroot1].
    + symmetry. apply Hkeep, root_in_vertices.
    + intros p [= <-]. by symmetry.
  - intros k' a b [->|Hk']%elem_of_cons Hab; [|by eapply Hedges2].
    destruct (tree_edges_vertices _ _ _ Hab) as [Ha Hb].
    eapply sampled_ext; [| |by apply Hedges1].
    + symmetry. by apply Hkeep.
    + intros p [= <-]. symmetry. by apply Hkeep.
Qed.

Lemma roots_in_vertices (ks : list rtree) k :
  k ∈ ks -> root_of k ∈ concat (map vertices ks).
Proof.
  intros Hk. apply elem_of_concat. exists (vertices k).
  split; [apply root_in_vertices|]. apply list_elem_of_fmap. eauto.
Qed.

Lemma roots_nodup (ks : list rtree) :
  NoDup (concat (map vertices ks)) -> NoDup (map root_of ks).
Proof.
  induction ks as [|k ks IH]; simpl; [constructor|].
  intros (Hk & Hdisj & Hks)%NoDup_app. apply NoDup_cons. split; [|by apply IH].
  intros Hin. apply list_elem_of_fmap in Hin as (k' & Heq & Hk').
  apply (Hdisj (root_of k)); [apply root_in_vertices|].
  rewrite Heq. by apply roots_in_vertices.
Qed.

Lemma propagate_subtree t : forall fuel parent z x,
  height t <= fuel ->
  hangs (TreeCat._neighbors Feature self) parent t ->
  NoDup (vertices t) ->
  ready self z x parent t ->
  exists z' x',
    TreeCat._propagate sample_z sample_x fuel self data impute
      vertex_probs edge_probs (z, x) (root_of t) = Ok (z', x')
    /\ propagated sample_z sample_x self data impute vertex_probs edge_probs
         z x z' x' parent t.
Proof.
  induction t as [v kids IH] using rtree_induction.
  intros fuel parent z x Hfuel Hhangs Hnd (Hz & Hx & Hun & Hpar).
  destruct fuel as [|fuel]; [simpl in Hfuel; lia|].
  apply hangs_inv in Hhangs as [Hs Hkids].
  simpl in Hnd. apply NoDup_cons in Hnd as [Hvnot Hndks].
  pose proof (roots_nodup kids Hndks) as Hroots.
  destruct (Hun v ltac:(left)) as [Hzv Hxv].
  pose proof (lookup_lt_Some _ _ _ Hs) as HvV.
  destruct (lookup_lt_is_Some_2 data v) as [dv Hdv]; [lia|].
  set (s := list_to_set (map root_of kids)
            ∪ match parent with Some p => {[p]} | None => ∅ end) in Hs.
  assert (forall u, u ∈ map root_of kids ->
                    u ∈ concat (map vertices kids)) as Hrootin.
  { intros u (k & -> & Hk)%list_elem_of_fmap. by apply roots_in_vertices. }
  assert (exists children,
            TreeCat.scan z (elements s) None [] = Ok (parent, children)
            /\ children ≡ₚ map root_of kids) as (children & Hscan & Hperm).
  { destruct parent as [p|].
    - destruct (Hpar p eq_refl) as (Hpnot & states & Hzp & _).
      exists (filter (fun u => u <> p) (elements s)). split.
      + rewrite (scan_parent z (elements s) p states None [] Hzp).
        * rewrite decide_True; [done|]. apply elem_of_elements. set_solver.
        * intros u Hu Hne. apply Hun. right. apply Hrootin.
          apply elem_of_elements in Hu. set_solver.
      + apply NoDup_Permutation; [apply NoDup_filter, NoDup_elements|done|].
        intros u. rewrite list_elem_of_filter, elem_of_elements.
        unfold s. rewrite elem_of_union, elem_of_list_to_set, elem_of_singleton.
        split; [tauto|]. intros Hu. split; [|by left].
        intros ->. apply Hpnot. right. by apply Hrootin.
    - exists (elements s). split.
      + rewrite scan_unassigned; [done|].
        intros u Hu. apply Hun. right. apply Hrootin.
        apply elem_of_elements in Hu. set_solver.
      + apply NoDup_Permutation; [apply NoDup_elements|done|].
        intros u. rewrite elem_of_elements. set_solver. }
  assert (exists pd,
            TreeCat.conditional self vertex_probs edge_probs z v parent = Ok pd)
    as [pd Hcond].
  { destruct parent as [p|].
    - destruct (Hpar p eq_refl) as (_ & states & Hzp & Hstates).
      destruct (edge_tables v p) as (e & joint & He & Hjoint & Hlen).
      { rewrite (neighbors_of_lookup _ _ _ Hs). set_solver. }
      destruct (conditional_parent self vertex_probs edge_probs z v p e joint
                  states He Hjoint Hlen Hzp Hstates) as (ps & Hc & _).
      eauto.
    - destruct (lookup_lt_is_Some_2 vertex_probs v) as [row Hrow]; [lia|].
      exists (Unbatched row). unfold TreeCat.conditional.
      by rewrite (getitem_lookup _ _ _ Hrow). }
  set (zv := sample_z v pd).
  set (z1 := <[v := Some zv]> z).
  set (x1 := if bool_decide (is_Some dv) || impute
             then <[v := Some (sample_x v zv dv)]> x else x).
  destruct (Permutation_map_inv _ _ Hperm)
    as (ks & Hchildren & Hks).
  destruct (propagate_children fuel v ks z1 x1)
    as (z2 & x2 & Hloop & Hz2 & Hx2 & Hout2 & Hin2 & Hem2 & Hroot2 & Hedges2).
  { rewrite <- Hks. apply Forall_forall. intros k Hk parent' z' x' Hh Hn Hr.
    rewrite Forall_forall in IH. apply (IH k Hk); try done.
    pose proof (height_kid v kids k Hk). lia. }
  { by rewrite <- Hks. }
  { by rewrite <- (concat_vertices_perm kids ks Hks). }
  { unfold z1. by rewrite length_insert. }
  { unfold x1. case_match; [by rewrite length_insert|done]. }
  { intros u Hu. rewrite <- (concat_vertices_perm kids ks Hks) in Hu.
    assert (v <> u) as Hne by (by intros ->).
    destruct (Hun u ltac:(by right)) as [Hzu Hxu]. split.
    - unfold z1. by rewrite list_lookup_insert_ne.
    - unfold x1. case_match; [by rewrite list_lookup_insert_ne|done]. }
  { by rewrite <- (concat_vertices_perm kids ks Hks). }
  { exists zv. split; [|apply states_below_capacity].
    unfold z1. apply list_lookup_insert_eq. apply lookup_lt_Some in Hzv. lia. }
  assert (forall u, u ∈ concat (map vertices ks)
                    <-> u ∈ concat (map vertices kids)) as Hsame.
  { intros u. by rewrite (concat_vertices_perm kids ks Hks). }
  assert (v ∉ concat (map vertices ks)) as Hvnot' by (by rewrite Hsame).
  destruct (Hout2 v Hvnot') as [Hzv2 Hxv2].
  assert (z1 !! v = Some (Some zv)) as Hz1v.
  { unfold z1. apply list_lookup_insert_eq. apply lookup_lt_Some in Hzv. lia. }
  assert (x1 !! v = Some (if bool_decide (is_Some dv) || impute
                          then Some (sample_x v zv dv) else None)) as Hx1v.
  { unfold x1. case_match; [|done].
    apply list_lookup_insert_eq. apply lookup_lt_Some in Hxv. lia. }
  exists z2, x2. split.
  - cbn [TreeCat._propagate root_of]. unfold TreeCat.site.
    rewrite (getitem_lookup _ _ _ Hs). cbn [mbind res_bind].
    rewrite Hscan. cbn [mbind res_bind]. rewrite Hcond. cbn [mbind res_bind].
    rewrite (getitem_lookup _ _ _ Hzv). cbn [mbind res_bind].
    rewrite (getitem_lookup _ _ _ Hdv). cbn [mbind res_bind].
    fold zv. rewrite Hchildren.
    assert ((if bool_decide (is_Some dv) || impute
             then _ ← getitem x v; Ok (<[v := Some (sample_x v zv dv)]> x)
             else Ok x) = Ok x1) as ->.
    { unfold x1. case_match; [|done].
      by rewrite (getitem_lookup _ _ _ Hxv). }
    cbn [mbind res_bind]. exact Hloop.
  - unfold propagated. simpl vertices. simpl root_of.
    split; [done|]. split; [done|].
    split; [|split; [|split; [|split]]].
    + intros u [Hne Hu]%not_elem_of_cons. rewrite <- Hsame in Hu.
      destruct (Hout2 u Hu) as [-> ->]. split.
      * unfold z1. by rewrite list_lookup_insert_ne.
      * unfold x1. case_match; [by rewrite list_lookup_insert_ne|done].
    + intros u [Heq|Hu]%elem_of_cons.
      * subst u. exists zv. split; [by rewrite Hzv2|apply states_below_capacity].
      * apply Hin2. by rewrite Hsame.
    + intros u [Heq|Hu]%elem_of_cons.
      * subst u. exists zv, dv. split; [by rewrite Hzv2|]. split; [done|].
        by rewrite Hxv2.
      * apply Hem2. by rewrite Hsame.
    + exists pd. split; [|by rewrite Hzv2].
      rewrite <- Hcond. apply conditional_ext. intros p ->.
      destruct (Hpar p eq_refl) as (Hpnot & _).
      apply not_elem_of_cons in Hpnot as [Hpv Hpks]. rewrite <- Hsame in Hpks.
      destruct (Hout2 p Hpks) as [-> _].
      unfold z1. by rewrite list_lookup_insert_ne.
    + intros a b. simpl. rewrite elem_of_app.
      intros [Hab|Hab].
      * apply list_elem_of_fmap in Hab as (k & [= -> ->] & Hk).
        apply Hroot2. by rewrite <- Hks.
      * apply elem_of_concat in Hab as (l & Hab & Hl).
        apply list_elem_of_fmap in Hl as (k & -> & Hk).
        apply (Hedges2 k); [by rewrite <- Hks|done].
Qed.

End ModelRun.
(** ** Leaf stripping builds the tree below the centre *)

Lemma forest_step neighbors0 neighbors sw v w live live' visited forest kids_v :
  forest_inv neighbors0 neighbors live visited forest ->
  live ≡ₚ v :: live' -> NoDup live -> w ∈ live' ->
  length neighbors = length neighbors0 ->
  neighbors !! w = Some sw -> v ∈ sw ->
  neighbors_of neighbors v = {[w]} ->
  forest v = Node v kids_v ->
  exists kids_w,
    forest w = Node w kids_w
    /\ forest_inv neighbors0 (<[w := sw ∖ {[v]}]> neighbors) live'
         (visited ++ [v])
         (fun u => if decide (u = w) then Node w (forest v :: kids_w)
                   else forest u).
Proof.
  intros [Htrees Hcover] Hperm Hnd Hw Hlen Hsw Hvsw Hv Hfv.
  assert (NoDup (v :: live')) as Hnd' by (by rewrite <- Hperm).
  apply NoDup_cons in Hnd' as [Hvnot Hnd'].
  assert (w <> v) as Hwv by (by intros ->).
  assert (forall u, u ∈ live' -> u ∈ live) as Hsub.
  { intros u Hu. rewrite Hperm. by right. }
  destruct (Htrees w (Hsub w Hw)) as (kids_w & Hfw & Hkw & Hnw).
  destruct (Htrees v) as (kids_v' & Hfv' & Hkv & Hnv).
  { rewrite Hperm. left. }
  rewrite Hfv in Hfv'. injection Hfv' as <-.
  exists kids_w. split; [done|]. split.
  - intros u Hu. destruct (decide (u = w)) as [->|Hne].
    + exists (forest v :: kids_w). split; [done|]. split.
      * constructor; [|done]. rewrite Hfv. constructor; [|done].
        by rewrite Hnv, Hv.
      * rewrite Hnw, neighbors_of_insert, decide_True by (done || by eapply lookup_lt_Some).
        f_equal. rewrite (neighbors_of_lookup _ _ _ Hsw). simpl. rewrite Hfv. simpl.
        apply set_eq. intros y.
        rewrite !elem_of_union, elem_of_difference, elem_of_singleton.
        destruct (decide (y = v)) as [->|]; set_solver.
    + destruct (Htrees u (Hsub u Hu)) as (kids & Hfu & Hku & Hnu).
      exists kids. split; [done|]. split; [done|].
      rewrite neighbors_of_insert, decide_False by (done || by eapply lookup_lt_Some).
      done.
  - destruct (proj1 (elem_of_Permutation live' w) Hw) as [rest Hrest].
    assert (NoDup (w :: rest)) as Hndr by (by rewrite <- Hrest).
    apply NoDup_cons in Hndr as [Hwrest _].
    assert (forall (g : nat -> rtree) l l', l ≡ₚ l' ->
              concat (map (fun u => vertices (g u)) l)
              ≡ₚ concat (map (fun u => vertices (g u)) l')) as Hproper.
    { intros g l l' Hl. induction Hl as [|a l l' _ IH|a b l|l1 l2 l3 _ IH1 _ IH2];
        simpl.
      - done.
      - by rewrite IH.
      - rewrite !app_assoc. f_equiv. apply Permutation_app_comm.
      - by rewrite IH1. }
    rewrite (Hproper _ _ _ Hrest). simpl. rewrite decide_True by done.
    assert (map (fun u => vertices (if decide (u = w)
                                    then Node w (forest v :: kids_w)
                                    else forest u)) rest
            = map (fun u => vertices (forest u)) rest) as ->.
    { apply map_ext_Forall, Forall_forall. intros u Hu.
      rewrite decide_False; [done|]. by intros ->. }
    rewrite (Hproper _ _ _ Hperm) in Hcover. simpl in Hcover.
    rewrite (Hproper _ _ _ Hrest) in Hcover. simpl in Hcover.
    rewrite Hfw in Hcover. simpl in Hcover. simpl.
    rewrite Hperm in Hcover.
    transitivity (v :: live' ++ visited).
    2:{ rewrite app_assoc, (Permutation_app_comm _ [v]). done. }
    etrans; [|exact Hcover].
    rewrite <- !app_assoc. simpl. apply Permutation_middle.
Qed.

Lemma strip_loop_forest V neighbors0 live :
  forall neighbors queue visited fuel forest,
    length live <= fuel -> live <> [] ->
    length neighbors0 = V ->
    strip_inv V neighbors queue visited live ->
    forest_inv neighbors0 neighbors live visited forest ->
    exists visited' c t,
      strip_loop fuel neighbors queue (last visited) visited
      = Ok (Some c, visited')
      /\ hangs neighbors0 None t
      /\ root_of t = c
      /\ vertices t ≡ₚ live ++ visited.
Proof.
  remember (length live) as n eqn:Hn. revert live Hn.
  induction n as [|n IH];
    intros live Hn neighbors queue visited fuel forest Hfuel Hne Hlen0 Hinv Hforest.
  { destruct live; [done|simpl in Hn; lia]. }
  destruct queue as [|v queue].
  { exfalso.
    destruct (exists_small_degree (degree neighbors) live Hne) as (u & Hu & Hdeg).
    { by apply (inv_count _ _ _ _ _ Hinv). }
    apply (inv_queue _ _ _ _ _ Hinv u Hu) in Hdeg. by apply elem_of_nil in Hdeg. }
  destruct fuel as [|fuel]; [lia|].
  pose proof (inv_queue_live _ _ _ _ _ Hinv v ltac:(left)) as Hv.
  pose proof (proj1 (inv_live _ _ _ _ _ Hinv v) Hv) as [HvV _].
  pose proof (inv_length _ _ _ _ _ Hinv) as Hlen.
  destruct (lookup_lt_is_Some_2 neighbors v) as [s Hs]; [lia|].
  assert (size s <= 1) as Hsize.
  { rewrite <- (neighbors_of_lookup _ _ _ Hs), <- degree_size.
    apply (inv_queue _ _ _ _ _ Hinv v Hv). left. }
  destruct Hforest as [Htrees Hcover].
  destruct (Htrees v Hv) as (kids_v & Hfv & Hkv & Hnv).
  cbn [strip_loop]. rewrite (getitem_lookup _ _ _ Hs). cbn [mbind res_bind].
  destruct (decide (size s = 0)) as [H0|H0].
  - rewrite (sorted_empty s H0). cbn [strip_vertex mbind res_bind].
    apply size_empty_inv, leibniz_equiv in H0. subst s.
    destruct (strip_step_isolated _ _ _ _ _ _ Hinv) as (-> & -> & _).
    { by apply neighbors_of_lookup. }
    exists (visited ++ [v]), v, (forest v). split.
    { by destruct fuel. }
    split.
    { rewrite Hfv. constructor; [|done].
      by rewrite Hnv, (neighbors_of_lookup _ _ _ Hs). }
    split; [by rewrite Hfv|].
    simpl in Hcover. by rewrite app_nil_r in Hcover.
  - destruct (sorted_singleton s) as (w & -> & Hsorted); [lia|].
    rewrite Hsorted.
    pose proof (neighbors_of_lookup _ _ _ Hs) as Hnbv.
    destruct (inv_adj _ _ _ _ _ Hinv v w Hv) as (Hwl & Hwv & _).
    { rewrite Hnbv. by apply elem_of_singleton. }
    destruct (strip_step_leaf _ _ _ w _ _ _ Hinv Hnbv)
      as (sw & live' & Hsw & Hvsw & Hperm & Hinv').
    cbn [strip_vertex]. rewrite (getitem_lookup _ _ _ Hsw).
    cbn [mbind res_bind]. unfold set_remove. rewrite decide_True by done.
    cbn [mbind res_bind].
    assert (w ∈ live') as Hwl'.
    { rewrite Hperm in Hwl. apply elem_of_cons in Hwl as [?|?]; done. }
    destruct (forest_step neighbors0 neighbors sw v w live live' visited forest
                kids_v (conj Htrees Hcover) Hperm
                (inv_live_nodup _ _ _ _ _ Hinv) Hwl' ltac:(lia) Hsw Hvsw Hnbv Hfv)
      as (kids_w & Hfw & Hforest').
    pose proof (Permutation_length Hperm) as Hl. simpl in Hl.
    destruct (IH live' ltac:(lia) _ _ _ fuel _ ltac:(lia)
                ltac:(by intros ->; apply elem_of_nil in Hwl') Hlen0 Hinv' Hforest')
      as (visited' & c & t & Hloop & Hhangs & Hroot & Hvert).
    exists visited', c, t. rewrite last_snoc in Hloop.
    split; [exact Hloop|]. split; [done|]. split; [done|].
    rewrite Hvert, Hperm. rewrite app_assoc, (Permutation_app_comm _ [v]). done.
Qed.

Lemma concat_singletons (l : list nat) :
  concat (map (fun u => vertices (Node u [])) l) = l.
Proof. induction l as [|a l IH]; simpl in *; [done|]. by f_equal. Qed.

Lemma tree_hangs_from_center edges neighbors :
  is_tree edges ->
  build_neighbors (length edges + 1) edges = Ok neighbors ->
  exists c t,
    find_center_of_tree edges = Ok c
    /\ hangs neighbors None t
    /\ root_of t = c
    /\ vertices t ≡ₚ seq 0 (length edges + 1).
Proof.
  intros Htree Hnb.
  destruct (strip_inv_initial edges Htree) as (nb & Hnb' & Hinv).
  rewrite Hnb in Hnb'. injection Hnb' as <-.
  pose proof (inv_length _ _ _ _ _ Hinv) as Hlen.
  destruct (strip_loop_forest (length edges + 1) neighbors
              (seq 0 (length edges + 1)) neighbors (initial_queue neighbors) []
              (strip_fuel (length edges + 1) edges) (fun u => Node u []))
    as (visited & c & t & Hloop & Hhangs & Hroot & Hvert); try done.
  - rewrite length_seq. unfold strip_fuel. lia.
  - rewrite Nat.add_1_r. done.
  - split.
    + intros u Hu%elem_of_seq. exists []. split; [done|]. split; [done|].
      destruct (lookup_lt_is_Some_2 neighbors u) as [s Hs]; [lia|].
      rewrite Hs, (neighbors_of_lookup _ _ _ Hs). f_equal. simpl. set_solver.
    + by rewrite concat_singletons, app_nil_r.
  - exists c, t. rewrite app_nil_r in Hvert. split; [|done].
    unfold find_center_of_tree, strip_leaves. rewrite Hnb. cbn [mbind res_bind].
    change (last []) with (@None nat) in Hloop. by rewrite Hloop.
Qed.
(** ** [TreeCat.model] on a tree *)

Lemma model_batch_ok {Feature Column : Type} (size0 : Column -> nat)
    (self : TreeCat.t Feature) (data : list (option Column)) num_rows :
  length data = length (TreeCat.features Feature self) ->
  (exists col, Some col ∈ data) ->
  exists batch_size n,
    TreeCat.model_batch size0 self data num_rows = Ok (batch_size, n).
Proof.
  intros Hlen [col Hcol]. unfold TreeCat.model_batch.
  rewrite bool_decide_eq_true_2 by done. cbn [assert mbind res_bind].
  assert (forallb (fun column => bool_decide (column = None)) data = false) as ->.
  { apply not_true_is_false. intros Hall.
    rewrite forallb_forall in Hall.
    specialize (Hall (Some col) ltac:(by apply list_elem_of_In)).
    by apply bool_decide_eq_true in Hall. }
  cbn [negb assert mbind res_bind].
  assert (col ∈ omap id data) as Hin.
  { apply list_elem_of_omap. exists (Some col). done. }
  destruct (omap id data) as [|c rest]; [by apply elem_of_nil in Hin|].
  simpl. eauto.
Qed.

(** X19. On a model whose edges form a tree, [model] returns normally: it
    walks the tree that hangs below [_root], and samples the latent states of
    every vertex once, the root from its row of [vertex_probs] and every other
    vertex from the joint table of the edge to its parent, given the states of
    the parent.  All [V] entries of the saved [z] are set, and [x] holds a
    value exactly for the columns that are observed or, with [impute], for
    all.  The samplers are assumed to return tables of the right shape and
    latent states below the capacity. *)
Theorem model_samples_along_tree {Feature Column : Type}
    (size0 : Column -> nat)
    (sample_probs : nat -> nat -> nat -> list (list Q) * list (list Q))
    (sample_z : nat -> probs -> list nat)
    (sample_x : nat -> list nat -> option Column -> Column)
    (features : list Feature) capacity edges annealing_rate self
    (data : list (option Column)) num_rows impute :
  let V := length features in
  let M := TreeCat.capacity Feature self in
  let E := length (TreeCat._edges Feature self) in
  let vertex_probs := (sample_probs V E M).1 in
  let edge_probs := (sample_probs V E M).2 in
  TreeCat.__init__ features capacity (tensor_of <$> edges) annealing_rate
  = Ok self ->
  is_tree (TreeCat._edges Feature self) ->
  length data = V ->
  (exists col, Some col ∈ data) ->
  length vertex_probs = V ->
  length edge_probs = E ->
  Forall (fun joint => length joint = M * M) edge_probs ->
  (forall v p, Forall (fun st => st < M) (sample_z v p)) ->
  exists t z x,
    hangs (TreeCat._neighbors Feature self) None t
    /\ root_of t = TreeCat._root Feature self
    /\ vertices t ≡ₚ seq 0 V
    /\ TreeCat.model size0 sample_probs sample_z sample_x self data num_rows
         impute
       = Ok (set_saved_z (Some z) self, x)
    /\ length z = V /\ length x = V
    /\ (forall v, v < V ->
          exists states,
            z !! v = Some (Some states)
            /\ Forall (fun st => st < M) states)
    /\ (forall v, v < V -> emitted sample_x data impute z x v)
    /\ sampled sample_z self vertex_probs edge_probs z None
         (TreeCat._root Feature self)
    /\ (forall a b, (a, b) ∈ tree_edges t ->
          sampled sample_z self vertex_probs edge_probs z (Some a) b).
Proof.
  intros V M E vertex_probs edge_probs Hinit0 Htree Hdata Hcol Hvp Hep Hjoint Hsz.
  destruct (treecat_init_pairs _ _ _ _ _ Hinit0) as (pairs & Hinit & _).
  destruct (treecat_init_inv _ _ _ _ _ Hinit) as (Hcap & Hlen & Hrate & Hr).
  destruct (treecat_init_run features capacity pairs annealing_rate
              Hcap Hlen Hrate Hr)
    as (s0 & c & nb & idx & H & _ & Hc & _ & _ & Hnb & Hlast & Hsome).
  rewrite H in Hinit. injection Hinit as <-.
  cbn [TreeCat._edges TreeCat._neighbors TreeCat._root TreeCat.capacity
       TreeCat.features] in *.
  fold V in Hlen, Hnb, Hr.
  destruct (build_neighbors_spec V pairs Hr) as (nb' & Hnb' & Hnblen & _ & Hmem).
  rewrite Hnb in Hnb'. injection Hnb' as <-.
  assert (V = length pairs + 1) as HV by lia.
  destruct (tree_hangs_from_center pairs nb Htree) as (c' & t & Hc' & Hhangs & Hroot & Hvert).
  { by rewrite <- HV. }
  rewrite Hc in Hc'. injection Hc' as <-. rewrite <- HV in Hvert.
  set (self := TreeCat.mk Feature features (Z.to_nat capacity) s0 _ _ None
                 pairs c nb idx) in *.
  assert (forall u, u ∈ vertices t <-> u < V) as Hin.
  { intros u. rewrite Hvert, elem_of_seq. lia. }
  assert (NoDup (vertices t)) as Hnd by (rewrite Hvert; apply NoDup_seq).
  destruct (propagate_subtree sample_z sample_x self data impute
              vertex_probs edge_probs) with
    (t := t) (fuel := S V) (parent := @None nat)
    (z := replicate V (@None (list nat))) (x := replicate V (@None Column))
    as (z & x & Hrun & Hz & Hx & _ & Hassigned & Hemitted & Hsampled & Hedges).
  - simpl. lia.
  - simpl. lia.
  - intros a b Hab. apply Hmem, Hsome in Hab as [e He].
    pose proof (proj1 (Hlast a b e) He) as [Hj _].
    assert (e < length pairs) as Hlt.
    { destruct Hj as [Hj|Hj]; by apply lookup_lt_Some in Hj. }
    destruct (lookup_lt_is_Some_2 edge_probs e) as [joint Hjt].
    { rewrite Hep. exact Hlt. }
    exists e, joint. split; [done|]. split; [done|].
    rewrite Forall_lookup in Hjoint. by apply (Hjoint e).
  - exact Hsz.
  - pose proof (height_vertices t) as Hh. rewrite Hvert, length_seq in Hh. lia.
  - done.
  - done.
  - split; [simpl; by rewrite length_replicate|].
    split; [simpl; by rewrite length_replicate|]. split; [|done].
    intros u Hu%Hin. by rewrite !lookup_replicate_2.
  - simpl in Hz, Hx. rewrite Hnblen in Hz, Hx. rewrite Hroot in Hrun, Hsampled.
    exists t, z, x. split; [done|]. split; [done|]. split; [done|].
    split.
    + destruct (model_batch_ok size0 self data num_rows Hdata Hcol)
        as (batch_size & n & Hbatch).
      unfold TreeCat.model. rewrite Hbatch. cbn [mbind res_bind].
      fold V. fold E. fold M.
      change (length (TreeCat.features Feature self)) with V.
      change (length (TreeCat._edges Feature self)) with E.
      change (TreeCat.capacity Feature self) with M.
      rewrite (surjective_pairing (sample_probs V E M)).
      change (TreeCat._root Feature self) with c.
      fold vertex_probs edge_probs. rewrite Hrun.
      reflexivity.
    + split; [done|]. split; [done|].
      split; [intros v Hv; by apply Hassigned, Hin|].
      split; [intros v Hv; by apply Hemitted, Hin|]. done.
Qed.

Lemma model_samples_along_tree_witness :
  exists t z x,
    hangs (TreeCat._neighbors unit tree3) None t
    /\ root_of t = TreeCat._root unit tree3
    /\ vertices t ≡ₚ seq 0 3
    /\ TreeCat.model length sample_probs3 sample_z3 sample_x3 tree3 data3 None
         false
       = Ok (set_saved_z (Some z) tree3, x)
    /\ length z = 3 /\ length x = 3
    /\ (forall v, v < 3 ->
          exists states,
            z !! v = Some (Some states) /\ Forall (fun st => st < 2) states)
    /\ (forall v, v < 3 -> emitted sample_x3 data3 false z x v)
    /\ sampled sample_z3 tree3 vertex_probs3 edge_probs3 z None
         (TreeCat._root unit tree3)
    /\ (forall a b, (a, b) ∈ tree_edges t ->
          sampled sample_z3 tree3 vertex_probs3 edge_probs3 z (Some a) b).
Proof.
  apply (model_samples_along_tree length sample_probs3 sample_z3 sample_x3
           [tt; tt; tt] 2 None (1 # 100)%Q tree3 data3 None false).
  - exact tree3_init.
  - exact is_tree_path3.
  - reflexivity.
  - exists [5]. left.
  - reflexivity.
  - reflexivity.
  - repeat constructor.
  - intros v p. repeat constructor.
Defined.

(** ** C6: the distribution a vertex is sampled from *)

Lemma tree_edges_hang neighbors t a b :
  forall parent, hangs neighbors parent t ->
  (a, b) ∈ tree_edges t -> a ∈ neighbors_of neighbors b.
Proof.
  induction t as [v kids IH] using rtree_induction.
  intros parent [Hs Hkids]%hangs_inv. simpl.
  rewrite elem_of_app. intros [Hab|Hab].
  - apply list_elem_of_fmap in Hab as (k & [= -> ->] & Hk).
    rewrite Forall_forall in Hkids. specialize (Hkids k Hk).
    destruct k as [u kids']. apply hangs_inv in Hkids as [Hu _]. simpl.
    unfold neighbors_of. rewrite Hu. simpl. set_solver.
  - apply elem_of_concat in Hab as (l & Hab & Hl).
    apply list_elem_of_fmap in Hl as (k & -> & Hk).
    rewrite Forall_forall in IH, Hkids. apply (IH k Hk (Some v)); [by apply Hkids|done].
Qed.

(** C6. When [_propagate] runs over a tree, every vertex [v] reached from a
    parent [v0] gets as [z[v]] the sample of the [Categorical] site whose
    distribution is found by taking the [M*M] row of [edge_probs] at the edge
    index of [(v, v0)], reading it as an [M x M] block, transposed exactly
    when [v0 > v], and selecting, for every row of the batch, the row of the
    block given by the parent's realized state [z[v0]]; the root gets the
    sample of the site whose distribution is row [v] of [vertex_probs].  The
    run returns, and no later step changes a state once sampled. *)
Theorem propagate_conditional {Feature Column : Type}
    (sample_z : nat -> probs -> list nat)
    (sample_x : nat -> list nat -> option Column -> Column)
    (self : TreeCat.t Feature) (data : list (option Column)) (impute : bool)
    (vertex_probs edge_probs : list (list Q)) (t : rtree) (fuel : nat)
    (z : list (option (list nat))) (x : list (option Column)) :
  let M := TreeCat.capacity Feature self in
  let neighbors := TreeCat._neighbors Feature self in
  length data = length neighbors ->
  length vertex_probs = length neighbors ->
  (forall a b, b ∈ neighbors_of neighbors a ->
     exists e joint,
       TreeCat._edge_index Feature self !! (a, b) = Some e
       /\ edge_probs !! e = Some joint /\ length joint = M * M) ->
  (forall v p, Forall (fun st => st < M) (sample_z v p)) ->
  hangs neighbors None t -> NoDup (vertices t) -> height t <= fuel ->
  length z = length neighbors -> length x = length neighbors ->
  (forall u, u ∈ vertices t -> z !! u = Some None /\ x !! u = Some None) ->
  exists z' x',
    TreeCat._propagate sample_z sample_x fuel self data impute
      vertex_probs edge_probs (z, x) (root_of t) = Ok (z', x')
    /\ (exists p,
          vertex_probs !! root_of t = Some p
          /\ z' !! root_of t
             = Some (Some (sample_z (root_of t) (Unbatched p))))
    /\ forall v0 v, (v0, v) ∈ tree_edges t ->
         exists e joint states ps,
           TreeCat._edge_index Feature self !! (v, v0) = Some e
           /\ edge_probs !! e = Some joint
           /\ z' !! v0 = Some (Some states)
           /\ z' !! v = Some (Some (sample_z v (Batched ps)))
           /\ length ps = length states
           /\ forall row st j,
                states !! row = Some st -> j < M ->
                exists pr,
                  ps !! row = Some pr
                  /\ length pr = M
                  /\ pr !! j = if decide (v < v0) then block_entry M joint j st
                               else block_entry M joint st j.
Proof.
  intros M neighbors Hdata Hvp Htables Hstates Hhangs Hnd Hfuel Hz Hx Hunset.
  destruct (propagate_subtree sample_z sample_x self data impute
              vertex_probs edge_probs Hdata Hvp Htables Hstates
              t fuel None z x Hfuel Hhangs Hnd)
    as (z' & x' & Hrun & _ & _ & _ & Hassigned & _ & Hroot & Hedges).
  { split; [done|]. split; [done|]. split; [done|]. intros p [=]. }
  exists z', x'. split; [exact Hrun|]. split.
  - destruct Hroot as (p & Hc & Hzr). unfold TreeCat.conditional in Hc.
    unfold getitem in Hc.
    destruct (vertex_probs !! root_of t) as [p0|]; [|done].
    injection Hc as <-. by exists p0.
  - intros v0 v Hedge.
    destruct (Hedges v0 v Hedge) as (p & Hc & Hzv).
    destruct (tree_edges_vertices t v0 v Hedge) as [Hv0 _].
    destruct (Hassigned v0 Hv0) as (states & Hzv0 & Hbelow).
    destruct (Htables v v0) as (e & joint & He & Hjoint & Hlen).
    { by apply (tree_edges_hang neighbors t v0 v None). }
    destruct (conditional_parent self vertex_probs edge_probs z' v v0 e joint
                states He Hjoint Hlen Hzv0 Hbelow) as (ps & Hps & Hlenps & Hrows).
    rewrite Hps in Hc. injection Hc as <-.
    exists e, joint, states, ps. done.
Qed.

Lemma propagate_conditional_witness :
  exists z' x',
    TreeCat._propagate sample_z3 sample_x3 2 tree3 data3 false
      vertex_probs3 edge_probs3 ([None; None; None], [None; None; None]) 1
    = Ok (z', x')
    /\ (exists p,
          vertex_probs3 !! 1 = Some p
          /\ z' !! 1 = Some (Some (sample_z3 1 (Unbatched p))))
    /\ forall v0 v, (v0, v) ∈ [(1, 0); (1, 2)] ->
         exists e joint states ps,
           TreeCat._edge_index unit tree3 !! (v, v0) = Some e
           /\ edge_probs3 !! e = Some joint
           /\ z' !! v0 = Some (Some states)
           /\ z' !! v = Some (Some (sample_z3 v (Batched ps)))
           /\ length ps = length states
           /\ forall row st j,
                states !! row = Some st -> j < 2 ->
                exists pr,
                  ps !! row = Some pr
                  /\ length pr = 2
                  /\ pr !! j = if decide (v < v0) then block_entry 2 joint j st
                               else block_entry 2 joint st j.
Proof.
  apply (propagate_conditional sample_z3 sample_x3 tree3 data3 false
           vertex_probs3 edge_probs3 (Node 1 [Node 0 []; Node 2 []]) 2
           [None; None; None] [None; None; None]).
  - reflexivity.
  - reflexivity.
  - intros a b Hb.
    assert ((a = 0 /\ b = 1) \/ (a = 1 /\ (b = 0 \/ b = 2)) \/ (a = 2 /\ b = 1))
      as Hab.
    { unfold neighbors_of in Hb.
      destruct a as [|[|[|a]]]; simpl in Hb; set_solver. }
    destruct Hab as [[-> ->]|[[-> [->| ->]]|[-> ->]]];
      eexists _, _; (split; [reflexivity|]); (split; reflexivity).
  - intros v p. repeat constructor.
  - constructor.
    + apply (f_equal Some). apply leibniz_equiv. simpl. set_solver.
    + repeat constructor; apply (f_equal Some); apply leibniz_equiv; simpl;
        set_solver.
  - simpl. repeat constructor; set_solver.
  - simpl. lia.
  - reflexivity.
  - reflexivity.
  - intros u Hu. simpl in Hu.
    assert (u = 1 \/ u = 0 \/ u = 2) as [-> | [-> | ->]] by set_solver; done.
Defined.
